(** * Incremental spell-check engine of nova-front/textarea

    A shallow embedding of the spell-check worker (word and region LRU
    caches, full and incremental checks, suggestions), of the exported
    [LRUCache], of the diff-region calculator, of [findNodesFromIndex]
    and of [debounce] of [utils/index.ts], of [CustomDictionary] (the
    methods that add, remove and clear words), and of the two word
    lists [DictionaryTrie] and [EnglishDictionary], followed by the
    properties established about them.

    Conventions of the embedding.
    - A JavaScript string is the list of its code units.  Code units are
      restricted to the range 0..255 (Latin-1), on which [toLowerCase],
      [trim] and the regular-expression classes are written out in full.
    - Offsets that only ever index a string are [nat]; the [start] and
      [end] fields of regions and results are [Z], since the worker adds
      and subtracts arbitrary region offsets received in a message.
    - The worker's module-level variables are the fields of one record
      [Engine]; every function takes the engine and returns the new one.
    - Message handlers are taken as atomic: the cooperative [setTimeout]
      yields inside the check loops only affect timing and are dropped. *)

From Stdlib Require Import ZArith Ascii String DecimalString Sorted.
From stdpp Require Import gmap strings list fin_maps.

#[local] Set Warnings "-clear-no-such-hyp,-abstract-large-number,-register-all".

Abbreviation jsstring := (list ascii).

(** String literals of the source are written [str "..."]. *)
Definition str (s : string) : jsstring := list_ascii_of_string s.

(** ** Strings *)

Module JsString.

Definition code (c : ascii) : nat := nat_of_ascii c.

Definition inRange (lo hi : nat) (c : ascii) : bool :=
  (lo <=? code c) && (code c <=? hi).

(** Upper-case letters that have a lower-case partner 32 code units
    later: A-Z, and U+00C0..U+00DE without the multiplication sign. *)
Definition isUpper (c : ascii) : bool :=
  inRange 65 90 c || (inRange 192 222 c && negb (code c =? 215)).

Definition toLowerChar (c : ascii) : ascii :=
  if isUpper c then ascii_of_nat (code c + 32) else c.

(** [s.toLowerCase()] *)
Definition toLowerCase (s : jsstring) : jsstring := map toLowerChar s.

(** White space of [trim] and of the class [\s]: TAB, LF, VT, FF, CR,
    SPACE and NO-BREAK SPACE. *)
Definition isWhiteSpace (c : ascii) : bool :=
  inRange 9 13 c || (code c =? 32) || (code c =? 160).

Fixpoint trimStart (s : jsstring) : jsstring :=
  match s with
  | c :: s' => if isWhiteSpace c then trimStart s' else s
  | [] => []
  end.

(** [s.trim()] *)
Definition trim (s : jsstring) : jsstring :=
  rev (trimStart (rev (trimStart s))).

(** [s.replace(/\s+/g, '')] *)
Definition removeWhiteSpace (s : jsstring) : jsstring :=
  filter (fun c => isWhiteSpace c = false) s.

(** Index normalisation of [slice]: a negative index counts from the
    end, and both ends are clamped to the string. *)
Definition sliceIndex (len i : Z) : Z :=
  if (i <? 0)%Z then Z.max (len + i) 0 else Z.min i len.

(** [s.slice(from, to)] *)
Definition slice (s : jsstring) (from to : Z) : jsstring :=
  let len := Z.of_nat (length s) in
  let a := sliceIndex len from in
  let b := sliceIndex len to in
  take (Z.to_nat (b - a)) (drop (Z.to_nat a) s).

(** [words.join('')] *)
Definition join (ws : list jsstring) : jsstring := concat ws.

(** Decimal rendering of an integer inside a template literal. *)
Definition ofInt (z : Z) : jsstring :=
  list_ascii_of_string (NilZero.string_of_int (Z.to_int z)).

Definition eqb (a b : jsstring) : bool := bool_decide (a = b).

End JsString.

(** ** The word pattern [/\b[a-zA-Z']{2,}\b/g]

    The same pattern (with or without a capture group around the class)
    is used by the worker, by [expandRegionWithContext] and by
    [addWordsFromText]. *)

Module WordRegex.
Import JsString.

(** [\w]: letters, digits and the underscore. *)
Definition isWordChar (c : ascii) : bool :=
  inRange 97 122 c || inRange 65 90 c || inRange 48 57 c || (code c =? 95).

(** The class [[a-zA-Z']]. *)
Definition inClass (c : ascii) : bool :=
  inRange 97 122 c || inRange 65 90 c || (code c =? 39).

Definition isWordCharAt (c : option ascii) : bool :=
  match c with Some x => isWordChar x | None => false end.

(** [\b] between two neighbouring positions; beyond either end of the
    input counts as a non-word character. *)
Definition wordBoundary (prev next : option ascii) : bool :=
  xorb (isWordCharAt prev) (isWordCharAt next).

(** Length of the longest prefix of [s] inside the class: what the
    greedy quantifier consumes first. *)
Fixpoint classRun (s : jsstring) : nat :=
  match s with
  | c :: s' => if inClass c then S (classRun s') else 0
  | [] => 0
  end.

(** Backtracking of the quantifier: the largest [k] with
    [2 <= k <= n] such that [\b] holds after [k] characters. *)
Fixpoint backtrack (s : jsstring) (n : nat) : option nat :=
  match n with
  | O => None
  | S n' =>
      if (2 <=? n) && wordBoundary (s !! n') (s !! n)
      then Some n
      else backtrack s n'
  end.

(** An attempt to match at the head of [s], where [prev] is the
    character just before it in the input; the length of the match. *)
Definition matchAt (prev : option ascii) (s : jsstring) : option nat :=
  if wordBoundary prev (head s) then backtrack s (classRun s) else None.

(** [match.index] and [match[0]] of one result of [exec]. *)
Record RegExpMatch := mkMatch { index : nat; matched : jsstring }.

(** The successive results of [wordRegex.exec(text)] until [null].
    [skip] counts the characters still covered by the previous match
    (the search resumes at [lastIndex]), [prev] is the character before
    the current position and [pos] the position itself. *)
Fixpoint execFrom (skip : nat) (prev : option ascii) (pos : nat)
         (s : jsstring) : list RegExpMatch :=
  match s with
  | [] => []
  | c :: s' =>
      match skip with
      | S k => execFrom k (Some c) (S pos) s'
      | O =>
          match matchAt prev s with
          | Some len =>
              mkMatch pos (take len s)
                :: execFrom (len - 1) (Some c) (S pos) s'
          | None => execFrom 0 (Some c) (S pos) s'
          end
      end
  end.

Definition execAll (text : jsstring) : list RegExpMatch :=
  execFrom 0 None 0 text.

End WordRegex.

(** ** LRUCache

    The class appears twice in the repository (inlined in the worker and
    exported on its own); the two copies agree on every method below.

    [cache] is the [Map] from a key to its node, recorded as the node's
    value.  [order] is the doubly linked list between the two sentinels,
    recorded as the keys of its nodes from [head.next] to [tail.prev]:
    [addToHead] links a node right after [head], [removeNode] unlinks
    one node, [removeTail] unlinks the node before [tail]. *)

Module LRU.

Record LRUCache (V : Type) := mkLRU {
  capacity : nat;
  size : nat;
  cache : gmap jsstring V;
  order : list jsstring
}.
Arguments mkLRU {V}.
Arguments capacity {V}.
Arguments size {V}.
Arguments cache {V}.
Arguments order {V}.

Section Methods.
Context {V : Type}.

(** [new LRUCache(capacity)] *)
Definition create (cap : nat) : LRUCache V := mkLRU cap 0 ∅ [].

Definition addToHead (key : jsstring) (l : list jsstring) : list jsstring :=
  key :: l.

Fixpoint removeNode (key : jsstring) (l : list jsstring) : list jsstring :=
  match l with
  | [] => []
  | k :: l' => if decide (k = key) then l' else k :: removeNode key l'
  end.

Definition moveToHead (key : jsstring) (l : list jsstring) : list jsstring :=
  addToHead key (removeNode key l).

(** The unlinked last node and the remaining list; [None] when
    [tail.prev] is [head]. *)
Definition removeTail (l : list jsstring) : option (jsstring * list jsstring) :=
  match last l with
  | Some k => Some (k, removelast l)
  | None => None
  end.

Definition get (key : jsstring) (c : LRUCache V) : option V * LRUCache V :=
  match cache c !! key with
  | None => (None, c)
  | Some v =>
      (Some v, mkLRU (capacity c) (size c) (cache c) (moveToHead key (order c)))
  end.

Definition set (key : jsstring) (value : V) (c : LRUCache V) : LRUCache V :=
  match cache c !! key with
  | Some _ =>
      mkLRU (capacity c) (size c) (<[key := value]> (cache c))
            (moveToHead key (order c))
  | None =>
      let cache1 := <[key := value]> (cache c) in
      let order1 := addToHead key (order c) in
      let size1 := S (size c) in
      if capacity c <? size1 then
        match removeTail order1 with
        | Some (k, order2) =>
            mkLRU (capacity c) (size1 - 1) (delete k cache1) order2
        | None => mkLRU (capacity c) size1 cache1 order1
        end
      else mkLRU (capacity c) size1 cache1 order1
  end.

Definition has (key : jsstring) (c : LRUCache V) : bool :=
  bool_decide (is_Some (cache c !! key)).

Definition delete (key : jsstring) (c : LRUCache V) : bool * LRUCache V :=
  match cache c !! key with
  | None => (false, c)
  | Some _ =>
      (true, mkLRU (capacity c) (size c - 1) (base.delete key (cache c))
                   (removeNode key (order c)))
  end.

Definition clear (c : LRUCache V) : LRUCache V :=
  mkLRU (capacity c) 0 ∅ [].

End Methods.

(** The two accessors of the exported copy. *)
Section Accessors.
Context {V : Type}.

Definition getSize (c : LRUCache V) : nat := size c.

Definition getCapacity (c : LRUCache V) : nat := capacity c.

End Accessors.

End LRU.

(** ** Diff regions ([utils/index.ts]) *)

Module Utils.
Import JsString WordRegex.

Record TextChange := mkChange {
  changeStart : nat;
  changeEnd : nat;
  changeText : jsstring;
  oldText : jsstring
}.

Record IncrementalCheckRegion := mkRegion {
  start : Z;
  end_ : Z;
  text : jsstring
}.

(** Number of leading positions at which the two strings agree: the
    value of [start] when the first [while] loop of
    [calculateTextChanges] stops. *)
Fixpoint commonPrefix (a b : jsstring) : nat :=
  match a, b with
  | x :: a', y :: b' =>
      if bool_decide (x = y) then S (commonPrefix a' b') else 0
  | _, _ => 0
  end.

(** The second loop walks [oldEnd] and [newEnd] down together while
    both stay above [start] and the characters before them agree: it
    removes the common suffix of what follows [start] in each text. *)
Definition commonSuffixAfter (start : nat) (a b : jsstring) : nat :=
  commonPrefix (rev (drop start a)) (rev (drop start b)).

Definition calculateTextChanges (oldText newText : jsstring) : list TextChange :=
  let start := commonPrefix oldText newText in
  let k := commonSuffixAfter start oldText newText in
  let oldEnd := length oldText - k in
  let newEnd := length newText - k in
  if (start <? oldEnd) || (start <? newEnd) then
    [ mkChange start newEnd
        (slice newText (Z.of_nat start) (Z.of_nat newEnd))
        (slice oldText (Z.of_nat start) (Z.of_nat oldEnd)) ]
  else [].

(** One element of the local array [words]. *)
Record WordSpan := mkSpan {
  spanStart : nat;
  spanEnd : nat;
  spanWord : jsstring
}.

Definition wordSpans (text : jsstring) : list WordSpan :=
  map (fun m => mkSpan (index m) (index m + length (matched m)) (matched m))
      (execAll text).

(** [Array.prototype.findIndex]: -1 when no element qualifies. *)
Fixpoint findIndexFrom {A} (p : A -> bool) (i : Z) (l : list A) : Z :=
  match l with
  | [] => (-1)%Z
  | x :: l' => if p x then i else findIndexFrom p (i + 1)%Z l'
  end.

Definition findIndex {A} (p : A -> bool) (l : list A) : Z :=
  findIndexFrom p 0%Z l.

(** [words[i].start] and [words[i].end]; both uses in the source are
    guarded so that [i] is a valid index. *)
Definition spanStartAt (words : list WordSpan) (i : Z) : Z :=
  match words !! Z.to_nat i with
  | Some w => Z.of_nat (spanStart w)
  | None => 0%Z
  end.

Definition spanEndAt (words : list WordSpan) (i : Z) : Z :=
  match words !! Z.to_nat i with
  | Some w => Z.of_nat (spanEnd w)
  | None => 0%Z
  end.

Definition expandRegionWithContext (text : jsstring) (start end_ : Z)
    (contextWords : Z) : IncrementalCheckRegion :=
  let words := wordSpans text in
  let len := Z.of_nat (length words) in
  let startWordIndex :=
    let i := findIndex (fun w => (start <? Z.of_nat (spanEnd w))%Z) words in
    if (i =? -1)%Z then len else i in
  let endWordIndex :=
    let i := findIndex (fun w => (end_ <=? Z.of_nat (spanStart w))%Z) words in
    if (i =? -1)%Z then len else i in
  let expandedStartIndex := Z.max 0 (startWordIndex - contextWords) in
  let expandedEndIndex := Z.min len (endWordIndex + contextWords) in
  let expandedStart :=
    if (expandedStartIndex <? len)%Z
    then spanStartAt words expandedStartIndex else start in
  let expandedEnd :=
    if (0 <? expandedEndIndex)%Z
    then spanEndAt words (expandedEndIndex - 1) else end_ in
  mkRegion expandedStart expandedEnd (slice text expandedStart expandedEnd).

(** [regions.sort((a, b) => a.start - b.start)]: the sort is stable. *)
Fixpoint insertByStart (r : IncrementalCheckRegion)
    (l : list IncrementalCheckRegion) : list IncrementalCheckRegion :=
  match l with
  | [] => [r]
  | x :: l' =>
      if (start r <=? start x)%Z then r :: l else x :: insertByStart r l'
  end.

Definition sortByStart (l : list IncrementalCheckRegion)
    : list IncrementalCheckRegion :=
  foldr insertByStart [] l.

(** One turn of the merging loop.  [lastR] is the last element of
    [merged], kept apart from the elements [done] before it, so that the
    assignments to [last.end] and [last.text] update it in place. *)
Definition mergeStep (acc : list IncrementalCheckRegion * IncrementalCheckRegion)
    (current : IncrementalCheckRegion)
    : list IncrementalCheckRegion * IncrementalCheckRegion :=
  let '(done, lastR) := acc in
  if (start current <=? end_ lastR)%Z then
    let newEnd := Z.max (end_ lastR) (end_ current) in
    let newText :=
      slice (text lastR) 0 (start lastR)
        ++ slice (text current) 0 (end_ current - start lastR) in
    (done, mkRegion (start lastR) newEnd newText)
  else (done ++ [lastR], current).

Definition mergeOverlappingRegions (regions : list IncrementalCheckRegion)
    : list IncrementalCheckRegion :=
  if length regions <=? 1 then regions
  else
    match sortByStart regions with
    | [] => []
    | first :: rest =>
        let '(done, lastR) := fold_left mergeStep rest ([], first) in
        done ++ [lastR]
    end.

Definition calculateIncrementalCheckRegions (oldText newText : jsstring)
    (contextWords : Z) : list IncrementalCheckRegion :=
  if bool_decide (oldText = []) || bool_decide (newText = []) then
    [ mkRegion 0 (Z.of_nat (length newText)) newText ]
  else
    let changes := calculateTextChanges oldText newText in
    if length changes =? 0 then []
    else
      mergeOverlappingRegions
        (map (fun change =>
                expandRegionWithContext newText
                  (Z.of_nat (changeStart change)) (Z.of_nat (changeEnd change))
                  contextWords)
             changes).

(** The default value of the parameter [contextWords]. *)
Definition defaultContextWords : Z := 2.

(** *** Locating a match among the text nodes

    [N] stands for the DOM [Text] nodes and [textContent] for their
    text, which is all that the two functions below read of them. *)

Section TextNodes.
Context {N : Type}.

(** An element of [nodeMap]. *)
Record Segment := mkSegment {
  node : N;
  segStart : nat;
  segEnd : nat
}.

(** The object returned by [findNodesFromIndex]; a node that was never
    assigned is [None]. *)
Record Located := mkLocated {
  startNode : option N;
  startOffset : nat;
  endNode : option N;
  endOffset : nat
}.

(** One turn of the loop of [findNodesFromIndex]. *)
Definition locateStep (matchStart matchEnd : nat) (acc : Located)
    (segment : Segment) : Located :=
  let acc1 :=
    if (segStart segment <=? matchStart) && (matchStart <? segEnd segment)
    then mkLocated (Some (node segment)) (matchStart - segStart segment)
           (endNode acc) (endOffset acc)
    else acc in
  if (segStart segment <? matchEnd) && (matchEnd <=? segEnd segment)
  then mkLocated (startNode acc1) (startOffset acc1)
         (Some (node segment)) (matchEnd - segStart segment)
  else acc1.

Definition findNodesFromIndex (nodeMap : list Segment)
    (matchStart matchEnd : nat) : Located :=
  fold_left (locateStep matchStart matchEnd) nodeMap (mkLocated None 0 None 0).

(** The loop of [getTextPositionsWithDictionary] that builds
    [fullText] and [nodeMap] from the text nodes: each node's text is
    followed by one space. *)
Fixpoint buildNodeMap (textContent : N -> jsstring) (nodes : list N)
    (fullText : jsstring) : jsstring * list Segment :=
  match nodes with
  | [] => (fullText, [])
  | node :: rest =>
      let text := textContent node in
      let segment :=
        mkSegment node (length fullText) (length fullText + length text) in
      let '(full, nodeMap) :=
        buildNodeMap textContent rest (fullText ++ text ++ str " ") in
      (full, segment :: nodeMap)
  end.

End TextNodes.
Arguments Segment : clear implicits.
Arguments Located : clear implicits.

End Utils.

(** ** The spell-check worker *)

Module Worker.
Import JsString WordRegex.

(** The dictionary is the external capability [typo-js]; only its two
    methods used by the worker appear, as functions of the word. *)
Record Typo := mkTypo {
  check : jsstring -> bool;
  suggest : jsstring -> list jsstring
}.

(** [isCorrect] is absent from the entries pushed by [processText] and
    [false] in those pushed by [processIncrementalText]. *)
Record SpellCheckResult := mkResult {
  word : jsstring;
  start : Z;
  end_ : Z;
  isCorrect : option bool
}.

(** A value of the region cache.  [recordedText] is ghost state: the
    text of the region for which the entry was computed. *)
Record RegionEntry := mkEntry {
  words : list jsstring;
  results : list SpellCheckResult;
  recordedText : jsstring
}.

(** Messages received by [self.onmessage].  [INIT_DICTIONARY] carries
    the dictionary that [new Typo('en_US', affData, dicData)] builds. *)
Inductive Request :=
| INIT_DICTIONARY (dict : Typo)
| ADD_WORD (payloadWord : jsstring)
| REMOVE_WORD (payloadWord : jsstring)
| CLEAR_WORDS
| GET_CACHE_STATS
| GET_SUGGESTIONS (payloadWord : jsstring)
| CHECK_TEXT (fullText : jsstring)
| CHECK_INCREMENTAL (fullText : jsstring)
    (regions : list Utils.IncrementalCheckRegion)
| UNKNOWN.

(** Messages sent with [self.postMessage]. *)
Inductive Response :=
| DICTIONARY_READY (ready : bool)
| CHECK_RESULT (invalidWords : list SpellCheckResult)
    (currentCheckCache : gmap jsstring bool)
| DICTIONARY_UPDATED (action : jsstring) (payloadWord : jsstring)
| CACHE_STATS (checkedCacheSize regionCacheSize : jsstring)
    (customWordsCount : nat)
| SUGGESTIONS_RESULT (payloadWord : jsstring) (suggestions : list jsstring).

(** The module-level state of the worker.  [posted] lists the messages
    sent so far, oldest first.  [checkCalls] is ghost state: the arguments
    of the calls made to [dictionary.check], oldest first. *)
Record Engine := mkEngine {
  dictionary : option Typo;
  customWords : gset jsstring;
  checkedCache : LRU.LRUCache bool;
  regionCache : LRU.LRUCache RegionEntry;
  currentCheckCache : gmap jsstring bool;
  lastFullText : jsstring;
  posted : list Response;
  checkCalls : list jsstring
}.

Definition initialEngine : Engine :=
  mkEngine None ∅ (LRU.create 5000) (LRU.create 1000) ∅ [] [] [].

Definition withDictionary (d : option Typo) (st : Engine) : Engine :=
  mkEngine d (customWords st) (checkedCache st) (regionCache st)
    (currentCheckCache st) (lastFullText st) (posted st) (checkCalls st).

Definition withCustomWords (s : gset jsstring) (st : Engine) : Engine :=
  mkEngine (dictionary st) s (checkedCache st) (regionCache st)
    (currentCheckCache st) (lastFullText st) (posted st) (checkCalls st).

Definition withCheckedCache (c : LRU.LRUCache bool) (st : Engine) : Engine :=
  mkEngine (dictionary st) (customWords st) c (regionCache st)
    (currentCheckCache st) (lastFullText st) (posted st) (checkCalls st).

Definition withRegionCache (c : LRU.LRUCache RegionEntry) (st : Engine) : Engine :=
  mkEngine (dictionary st) (customWords st) (checkedCache st) c
    (currentCheckCache st) (lastFullText st) (posted st) (checkCalls st).

Definition withCurrentCheckCache (m : gmap jsstring bool) (st : Engine) : Engine :=
  mkEngine (dictionary st) (customWords st) (checkedCache st) (regionCache st)
    m (lastFullText st) (posted st) (checkCalls st).

Definition withLastFullText (t : jsstring) (st : Engine) : Engine :=
  mkEngine (dictionary st) (customWords st) (checkedCache st) (regionCache st)
    (currentCheckCache st) t (posted st) (checkCalls st).

(** [self.postMessage(msg)] *)
Definition postMessage (msg : Response) (st : Engine) : Engine :=
  mkEngine (dictionary st) (customWords st) (checkedCache st) (regionCache st)
    (currentCheckCache st) (lastFullText st) (posted st ++ [msg]) (checkCalls st).

Definition recordCheck (w : jsstring) (st : Engine) : Engine :=
  mkEngine (dictionary st) (customWords st) (checkedCache st) (regionCache st)
    (currentCheckCache st) (lastFullText st) (posted st) (checkCalls st ++ [w]).

(** [customWords.has(lowerWord) || (dictionary?.check(lowerWord) ?? true)]:
    the dictionary is consulted only when the custom set does not hold
    the word and the dictionary exists. *)
Definition isValid (lowerWord : jsstring) (st : Engine) : bool * Engine :=
  if bool_decide (lowerWord ∈ customWords st) then (true, st)
  else
    match dictionary st with
    | Some d => (check d lowerWord, recordCheck lowerWord st)
    | None => (true, st)
    end.

(** Truthiness of the result of [checkedCache.get]: [undefined] and
    [false] are falsy. *)
Definition truthy (v : option bool) : bool := default false v.

(** The cache ladder that [processText] and [processIncrementalText]
    both run on a lower-cased word.  The boolean tells whether the word
    is pushed as invalid; [currentCheckCache] is updated in that case. *)
Definition checkWord (lowerWord : jsstring) (st : Engine) : bool * Engine :=
  if LRU.has lowerWord (checkedCache st) then
    let '(v, c) := LRU.get lowerWord (checkedCache st) in
    let st1 := withCheckedCache c st in
    if negb (truthy v)
    then (true, withCurrentCheckCache (<[lowerWord := false]> (currentCheckCache st1)) st1)
    else (false, st1)
  else
    let '(valid, st1) := isValid lowerWord st in
    let st2 := withCheckedCache (LRU.set lowerWord valid (checkedCache st1)) st1 in
    if negb valid
    then (true, withCurrentCheckCache (<[lowerWord := false]> (currentCheckCache st2)) st2)
    else (false, st2).

Definition resultOfMatch (m : RegExpMatch) (flag : option bool) : SpellCheckResult :=
  mkResult (matched m) (Z.of_nat (index m))
    (Z.of_nat (index m) + Z.of_nat (length (matched m)))%Z flag.

(** The [while] loop of [processText] over the successive matches. *)
Fixpoint processMatches (ms : list RegExpMatch) (st : Engine)
    : list SpellCheckResult * Engine :=
  match ms with
  | [] => ([], st)
  | m :: ms' =>
      let lowerWord := toLowerCase (matched m) in
      let '(invalid, st1) := checkWord lowerWord st in
      let '(rest, st2) := processMatches ms' st1 in
      (if invalid then resultOfMatch m None :: rest else rest, st2)
  end.

Definition processText (fullText : jsstring) (st : Engine)
    : list SpellCheckResult * Engine :=
  processMatches (execAll fullText) st.

(** [{...r, start: r.start + offset, end: r.end + offset}] *)
Definition shiftResult (offset : Z) (r : SpellCheckResult) : SpellCheckResult :=
  mkResult (word r) (start r + offset)%Z (end_ r + offset)%Z (isCorrect r).

(** What the inner loop of [processIncrementalText] accumulates. *)
Record RegionScan := mkScan {
  regionWords : list jsstring;
  regionResults : list SpellCheckResult;
  pushed : list SpellCheckResult
}.

(** The inner [while] loop over the matches of one region's text. *)
Fixpoint processRegionMatches (regionStart : Z) (ms : list RegExpMatch)
    (st : Engine) : RegionScan * Engine :=
  match ms with
  | [] => (mkScan [] [] [], st)
  | m :: ms' =>
      let lowerWord := toLowerCase (matched m) in
      let '(invalid, st1) := checkWord lowerWord st in
      let '(rest, st2) := processRegionMatches regionStart ms' st1 in
      let result := resultOfMatch m (Some false) in
      (mkScan (matched m :: regionWords rest)
         (if invalid then result :: regionResults rest else regionResults rest)
         (if invalid then shiftResult regionStart result :: pushed rest
          else pushed rest),
       st2)
  end.

Definition regionKey (region : Utils.IncrementalCheckRegion) : jsstring :=
  ofInt (Utils.start region) ++ str "-" ++ ofInt (Utils.end_ region).

(** The test guarding the use of a region-cache entry. *)
Definition cacheEntryMatches (cached : RegionEntry) (regionText : jsstring) : bool :=
  bool_decide (join (words cached) = removeWhiteSpace regionText).

(** The part of the [for] loop's body after the cache test: the scan
    of the region's text, and the entry stored for it. *)
Definition scanRegion (region : Utils.IncrementalCheckRegion) (st : Engine)
    : list SpellCheckResult * Engine :=
  let '(scan, st2) :=
    processRegionMatches (Utils.start region) (execAll (Utils.text region)) st in
  (pushed scan,
   withRegionCache
     (LRU.set (regionKey region)
        (mkEntry (regionWords scan) (regionResults scan) (Utils.text region))
        (regionCache st2)) st2).

(** One turn of the [for] loop of [processIncrementalText]: the results
    it pushes, and the engine afterwards. *)
Definition processRegion (region : Utils.IncrementalCheckRegion) (st : Engine)
    : list SpellCheckResult * Engine :=
  let '(cached, rc) := LRU.get (regionKey region) (regionCache st) in
  let st1 := withRegionCache rc st in
  match cached with
  | Some entry =>
      if cacheEntryMatches entry (Utils.text region)
      then (map (shiftResult (Utils.start region)) (results entry), st1)
      else scanRegion region st1
  | None => scanRegion region st1
  end.

Fixpoint processRegions (regions : list Utils.IncrementalCheckRegion)
    (st : Engine) : list SpellCheckResult * Engine :=
  match regions with
  | [] => ([], st)
  | region :: regions' =>
      let '(rs, st1) := processRegion region st in
      let '(rest, st2) := processRegions regions' st1 in
      (rs ++ rest, st2)
  end.

Definition processIncrementalText (_fullText : jsstring)
    (regions : list Utils.IncrementalCheckRegion) (st : Engine)
    : list SpellCheckResult * Engine :=
  processRegions regions (withCurrentCheckCache ∅ st).

(** *** Suggestions *)

(** The row [matrix[0]]: [matrix[0][j] = j]. *)
Definition firstRow (len2 : nat) : list nat := seq 0 (S len2).

(** The cells [matrix[i][j]], [matrix[i][j+1]], ... of row [i], given
    the character [c1 = str1[i-1]], the rest [str2[j-1..]] of the second
    string, the cells [matrix[i-1][j-1..]] of the row above and the cell
    [left = matrix[i][j-1]] just computed. *)
Fixpoint fillRow (c1 : ascii) (str2 : jsstring) (above : list nat)
    (left : nat) : list nat :=
  match str2, above with
  | c2 :: str2', diag :: ((up :: _) as above') =>
      let cell :=
        if bool_decide (c1 = c2) then diag
        else Nat.min (up + 1) (Nat.min (left + 1) (diag + 1)) in
      cell :: fillRow c1 str2' above' cell
  | _, _ => []
  end.

(** Row [i]: [matrix[i][0] = i], then the inner loop over [j]. *)
Definition nextRow (i : nat) (c1 : ascii) (str2 : jsstring)
    (above : list nat) : list nat :=
  i :: fillRow c1 str2 above i.

(** Rows [i], [i+1], ... for the remaining characters of [str1]. *)
Fixpoint fillRows (str1 : jsstring) (i : nat) (str2 : jsstring)
    (above : list nat) : list (list nat) :=
  match str1 with
  | [] => []
  | c1 :: str1' =>
      let row := nextRow i c1 str2 above in
      row :: fillRows str1' (S i) str2 row
  end.

Definition editMatrix (str1 str2 : jsstring) : list (list nat) :=
  let row0 := firstRow (length str2) in
  row0 :: fillRows str1 1 str2 row0.

(** [matrix[len1][len2]] *)
Definition calculateEditDistance (str1 str2 : jsstring) : nat :=
  match last (editMatrix str1 str2) with
  | Some row => default 0 (last row)
  | None => 0
  end.

Definition commonWords : list jsstring := map str [
  "the"; "be"; "to"; "of"; "and"; "a"; "in"; "that"; "have"; "i"; "it";
  "for"; "not"; "on"; "with"; "he"; "as"; "you"; "do"; "at"; "this"; "but";
  "his"; "by"; "from"; "they"; "we"; "say"; "her"; "she"; "or"; "an";
  "will"; "my"; "one"; "all"; "would"; "there"; "their"; "what"; "so";
  "up"; "out"; "if"; "about"; "who"; "get"; "which"; "go"; "me"; "when";
  "make"; "can"; "like"; "time"; "no"; "just"; "him"; "know"; "take";
  "people"; "into"; "year"; "your"; "good"; "some"; "could"; "them"; "see";
  "other"; "than"; "then"; "now"; "look"; "only"; "come"; "its"; "over";
  "think"; "also"; "back"; "after"; "use"; "two"; "how"; "our"; "work";
  "first"; "well"; "way"; "even"; "new"; "want"; "because"; "any"; "these";
  "give"; "day"; "most"; "us"; "is"; "water"; "long"; "very"; "find";
  "still"; "life"; "become"; "here"; "old"; "see"; "him"; "two"; "more";
  "go"; "do"; "no"; "way"; "could"; "my"; "than"; "first"; "been"; "call";
  "who"; "its"; "now"; "find"; "long"; "down"; "day"; "did"; "get"; "come";
  "made"; "may"; "part"
].

(** The [for] loop of [getSimpleSuggestions], with its [break]. *)
Fixpoint suggestLoop (word : jsstring) (maxSuggestions : nat)
    (candidates : list jsstring) (suggestions : list jsstring) : list jsstring :=
  match candidates with
  | [] => suggestions
  | candidate :: rest =>
      if (Z.abs (Z.of_nat (length candidate) - Z.of_nat (length word)) <=? 2)%Z
      then
        let distance := calculateEditDistance word candidate in
        if (distance <=? 2) && (0 <? distance) then
          let suggestions1 := suggestions ++ [candidate] in
          if maxSuggestions <=? length suggestions1 then suggestions1
          else suggestLoop word maxSuggestions rest suggestions1
        else suggestLoop word maxSuggestions rest suggestions
      else suggestLoop word maxSuggestions rest suggestions
  end.

Definition getSimpleSuggestions (word : jsstring) (maxSuggestions : nat)
    : list jsstring :=
  suggestLoop word maxSuggestions commonWords [].

Definition getSuggestions (word : jsstring) (maxSuggestions : nat)
    (st : Engine) : list jsstring :=
  match dictionary st with
  | None => []
  | Some d =>
      if bool_decide (word = []) then []
      else
        let lowerWord := toLowerCase word in
        if bool_decide (lowerWord ∈ customWords st) then []
        else
          let suggestions := suggest d word in
          if length suggestions =? 0
          then getSimpleSuggestions lowerWord maxSuggestions
          else
            filter (fun suggestion => toLowerCase suggestion ≠ lowerWord)
                   (take maxSuggestions suggestions)
  end.

(** The default value of the parameter [maxSuggestions]. *)
Definition defaultMaxSuggestions : nat := 5.

(** *** The message handler *)

(** The re-check shared by [ADD_WORD] and [REMOVE_WORD]:
    [if (lastFullText) { ... processText(lastFullText) ... }]. *)
Definition recheckLastText (st : Engine) : Engine :=
  if bool_decide (lastFullText st = []) then st
  else
    let '(invalidWords, st1) := processText (lastFullText st) st in
    postMessage (CHECK_RESULT invalidWords (currentCheckCache st1)) st1.

Definition clearCaches (st : Engine) : Engine :=
  withRegionCache (LRU.clear (regionCache st))
    (withCheckedCache (LRU.clear (checkedCache st)) st).

Definition onmessage (msg : Request) (st : Engine) : Engine :=
  match msg with
  | INIT_DICTIONARY dict =>
      postMessage (DICTIONARY_READY true)
        (clearCaches (withDictionary (Some dict) st))
  | ADD_WORD payloadWord =>
      let addedWord := toLowerCase payloadWord in
      let st1 := withCustomWords ({[ addedWord ]} ∪ customWords st) st in
      let st2 := withCurrentCheckCache ∅ (clearCaches st1) in
      postMessage (DICTIONARY_UPDATED (str "ADD_WORD") payloadWord)
        (recheckLastText st2)
  | REMOVE_WORD payloadWord =>
      let removedWord := toLowerCase payloadWord in
      let st1 := withCustomWords (customWords st ∖ {[ removedWord ]}) st in
      let st2 := withCurrentCheckCache ∅ (clearCaches st1) in
      postMessage (DICTIONARY_UPDATED (str "REMOVE_WORD") payloadWord)
        (recheckLastText st2)
  | CLEAR_WORDS => clearCaches (withCustomWords ∅ st)
  | GET_CACHE_STATS =>
      postMessage
        (CACHE_STATS (str "LRU Cache Active") (str "LRU Cache Active")
           (base.size (customWords st))) st
  | GET_SUGGESTIONS payloadWord =>
      postMessage
        (SUGGESTIONS_RESULT payloadWord
           (getSuggestions payloadWord defaultMaxSuggestions st)) st
  | CHECK_TEXT fullText =>
      let '(invalidWords, st1) := processText fullText st in
      let st2 := withLastFullText fullText st1 in
      postMessage (CHECK_RESULT invalidWords (currentCheckCache st2)) st2
  | CHECK_INCREMENTAL fullText regions =>
      let '(invalidWords, st1) := processIncrementalText fullText regions st in
      let st2 := withLastFullText fullText st1 in
      postMessage (CHECK_RESULT invalidWords (currentCheckCache st2)) st2
  | UNKNOWN => st
  end.

(** The states the worker can be in: those obtained from the initial
    one by handling messages. *)
Inductive reachable : Engine -> Prop :=
| reachable_init : reachable initialEngine
| reachable_step msg st : reachable st -> reachable (onmessage msg st).

End Worker.

(** ** CustomDictionary *)

Module CustomDictionary.
Import JsString.

(** The values the argument of [addWord] can hold at run time. *)
Inductive JsValue :=
| VUndefined
| VNull
| VBoolean (b : bool)
| VNumber (n : Z)
| VString (s : jsstring)
| VObject.

(** [!v] *)
Definition falsy (v : JsValue) : bool :=
  match v with
  | VUndefined => true
  | VNull => true
  | VBoolean b => negb b
  | VNumber n => (n =? 0)%Z
  | VString s => bool_decide (s = [])
  | VObject => false
  end.

(** The state of a [CustomDictionary] that [addWord] reads or writes:
    the word set, the limit, the auto-save flag, and the messages posted
    to the worker when one is attached ([worker?.postMessage]).  The
    write to [localStorage] is counted in [saves]; its failure is caught
    by [saveToStorage] and changes nothing else. *)
Record State := mkState {
  words : gset jsstring;
  maxWords : Z;
  autoSave : bool;
  worker : option (list Worker.Request);
  saves : nat
}.

Definition postToWorker (msg : Worker.Request) (w : option (list Worker.Request))
    : option (list Worker.Request) :=
  match w with
  | Some sent => Some (sent ++ [msg])
  | None => None
  end.

Definition addWord (word : JsValue) (d : State) : bool * State :=
  if falsy word then (false, d)
  else
    match word with
    | VString s =>
        let normalizedWord := trim (toLowerCase s) in
        if bool_decide (normalizedWord = []) || (length normalizedWord <? 2)
        then (false, d)
        else if (maxWords d <=? Z.of_nat (base.size (words d)))%Z
                && negb (bool_decide (normalizedWord ∈ words d))
        then (false, d)
        else
          let wasAdded := negb (bool_decide (normalizedWord ∈ words d)) in
          let words1 := {[ normalizedWord ]} ∪ words d in
          if wasAdded then
            (true,
             mkState words1 (maxWords d) (autoSave d)
               (postToWorker (Worker.ADD_WORD normalizedWord) (worker d))
               (if autoSave d then S (saves d) else saves d))
          else
            (false,
             mkState words1 (maxWords d) (autoSave d) (worker d) (saves d))
    | _ => (false, d)
    end.

(** [this.words.delete(normalizedWord)] returns whether the word was
    in the set. *)
Definition removeWord (word : jsstring) (d : State) : bool * State :=
  let normalizedWord := trim (toLowerCase word) in
  let wasRemoved := bool_decide (normalizedWord ∈ words d) in
  let words1 := words d ∖ {[ normalizedWord ]} in
  if wasRemoved then
    (true,
     mkState words1 (maxWords d) (autoSave d)
       (postToWorker (Worker.REMOVE_WORD normalizedWord) (worker d))
       (if autoSave d then S (saves d) else saves d))
  else
    (false, mkState words1 (maxWords d) (autoSave d) (worker d) (saves d)).

Definition hasWord (word : jsstring) (d : State) : bool :=
  bool_decide (trim (toLowerCase word) ∈ words d).

Definition getWordCount (d : State) : nat := base.size (words d).

(** The loop of [addWords]: the counter [added], the list [failed] and
    the dictionary after it. *)
Fixpoint addWords (ws : list jsstring) (d : State)
    : (nat * list jsstring) * State :=
  match ws with
  | [] => ((0, []), d)
  | word :: rest =>
      let '(wasAdded, d1) := addWord (VString word) d in
      let '((added, failed), d2) := addWords rest d1 in
      if wasAdded then ((S added, failed), d2)
      else ((added, word :: failed), d2)
  end.

(** The loop of [removeWords]: the counter [removed], the list
    [notFound] and the dictionary after it. *)
Fixpoint removeWords (ws : list jsstring) (d : State)
    : (nat * list jsstring) * State :=
  match ws with
  | [] => ((0, []), d)
  | word :: rest =>
      let '(wasRemoved, d1) := removeWord word d in
      let '((removed, notFound), d2) := removeWords rest d1 in
      if wasRemoved then ((S removed, notFound), d2)
      else ((removed, word :: notFound), d2)
  end.

Definition clear (d : State) : State :=
  mkState ∅ (maxWords d) (autoSave d)
    (postToWorker Worker.CLEAR_WORDS (worker d))
    (if autoSave d then S (saves d) else saves d).

(** The words pushed by the loop over the matches are the matched
    texts, in the order of the text. *)
Definition addWordsFromText (text : jsstring) (d : State)
    : (nat * list jsstring) * State :=
  addWords (map WordRegex.matched (WordRegex.execAll text)) d.

End CustomDictionary.

(** ** DictionaryTrie ([dictionary/dictionaryTrie.ts]) *)

Module DictionaryTrie.
Import JsString.

(** [children] is an object used as a map from a character to a node.
    The loops run over the characters of the lower-cased word, which in
    the range of the embedding are its code units. *)
Inductive TrieNode := mkNode {
  children : gmap ascii TrieNode;
  isEnd : bool
}.

(** [new TrieNode()] *)
Definition newNode : TrieNode := mkNode ∅ false.

(** The loop of [insert] from [node] on, followed by
    [node.isEnd = true] on the node reached: the node at [char] is
    created when it is missing, and the walk goes on from it. *)
Fixpoint insertFrom (chars : jsstring) (node : TrieNode) : TrieNode :=
  match chars with
  | [] => mkNode (children node) true
  | char :: chars' =>
      let child := default newNode (children node !! char) in
      mkNode (<[char := insertFrom chars' child]> (children node)) (isEnd node)
  end.

Definition insert (word : jsstring) (root : TrieNode) : TrieNode :=
  insertFrom (toLowerCase word) root.

(** The loop of [check] from [node] on, and the final [node.isEnd]. *)
Fixpoint checkFrom (chars : jsstring) (node : TrieNode) : bool :=
  match chars with
  | [] => isEnd node
  | char :: chars' =>
      match children node !! char with
      | None => false
      | Some child => checkFrom chars' child
      end
  end.

Definition check (word : jsstring) (root : TrieNode) : bool :=
  checkFrom (toLowerCase word) root.

(** The constructor, given the word list of the data file. *)
Definition create (words : list jsstring) : TrieNode :=
  foldl (fun root word => insert word root) newNode words.

End DictionaryTrie.

(** ** EnglishDictionary ([dictionary/englishDictionary.ts]) *)

Module EnglishDictionary.
Import JsString.

Record State := mkDictionary {
  wordSet : gset jsstring;
  prefixMap : gmap jsstring bool
}.

Definition prefixLength : Z := 3.

(** [word.slice(0, this.prefixLength)] *)
Definition prefixOf (word : jsstring) : jsstring := slice word 0 prefixLength.

(** The constructor, given the word list of the data file: the set of
    the lower-cased words, then one entry of the prefix index for each
    word of the set. *)
Definition create (words : list jsstring) : State :=
  let wordSet := list_to_set (map toLowerCase words) in
  mkDictionary wordSet
    (set_fold (fun word m => <[prefixOf word := true]> m) ∅ wordSet).

Definition insert (word : jsstring) (d : State) : State :=
  let lowerWord := toLowerCase word in
  mkDictionary ({[ lowerWord ]} ∪ wordSet d)
    (<[prefixOf lowerWord := true]> (prefixMap d)).

Definition check (word : jsstring) (d : State) : bool :=
  let lowerWord := toLowerCase word in
  let prefix := prefixOf lowerWord in
  if negb (bool_decide (is_Some (prefixMap d !! prefix))) then false
  else bool_decide (lowerWord ∈ wordSet d).

End EnglishDictionary.

(** ** debounce ([utils/index.ts])

    The closure returned by [debounce] is a record of its captured
    variables.  [Date.now()] is the [time] given with each event.  The
    timers of the host are the list [timers] of those set and neither
    fired nor cleared; every one of them runs [timerExpired].  [lastThis]
    is left out: it is only handed back to [func]. *)

Module Debounce.

Section Debounced.
Context {A R : Type}.
Variable func : A -> R.
Variable delay : Z.
Variable leading trailing : bool.

Record Timer := mkTimer {
  timerId : nat;
  timerDelay : Z
}.

(** [invocations] is ghost state: the arguments [func] was applied
    to, oldest first. *)
Record State := mkState {
  timeoutId : option nat;
  lastCallTime : Z;
  lastInvokeTime : Z;
  lastArgs : option A;
  result : option R;
  timers : list Timer;
  nextTimer : nat;
  invocations : list A
}.

Definition initial : State := mkState None 0 0 None None [] 0 [].

Definition withTimeoutId (id : option nat) (st : State) : State :=
  mkState id (lastCallTime st) (lastInvokeTime st) (lastArgs st) (result st)
    (timers st) (nextTimer st) (invocations st).

Definition withLastCallTime (time : Z) (st : State) : State :=
  mkState (timeoutId st) time (lastInvokeTime st) (lastArgs st) (result st)
    (timers st) (nextTimer st) (invocations st).

Definition withLastInvokeTime (time : Z) (st : State) : State :=
  mkState (timeoutId st) (lastCallTime st) time (lastArgs st) (result st)
    (timers st) (nextTimer st) (invocations st).

Definition withLastArgs (args : option A) (st : State) : State :=
  mkState (timeoutId st) (lastCallTime st) (lastInvokeTime st) args (result st)
    (timers st) (nextTimer st) (invocations st).

(** [setTimeout(timerExpired, ms)]: the handle, and the state with the
    new timer. *)
Definition setTimeout (ms : Z) (st : State) : nat * State :=
  (nextTimer st,
   mkState (timeoutId st) (lastCallTime st) (lastInvokeTime st) (lastArgs st)
     (result st) (timers st ++ [mkTimer (nextTimer st) ms])
     (S (nextTimer st)) (invocations st)).

(** [clearTimeout(id)]; also what becomes of a timer that fires. *)
Definition clearTimeout (id : nat) (st : State) : State :=
  mkState (timeoutId st) (lastCallTime st) (lastInvokeTime st) (lastArgs st)
    (result st) (filter (fun t => timerId t <> id) (timers st))
    (nextTimer st) (invocations st).

Definition invokeFunc (time : Z) (st : State) : option R * State :=
  let args := lastArgs st in
  let st1 := withLastInvokeTime time (withLastArgs None st) in
  match args with
  | Some a =>
      let r := func a in
      (Some r,
       mkState (timeoutId st1) (lastCallTime st1) (lastInvokeTime st1)
         (lastArgs st1) (Some r) (timers st1) (nextTimer st1)
         (invocations st1 ++ [a]))
  | None => (result st1, st1)
  end.

Definition leadingEdge (time : Z) (st : State) : option R * State :=
  let st1 := withLastInvokeTime time st in
  let '(id, st2) := setTimeout delay st1 in
  let st3 := withTimeoutId (Some id) st2 in
  if leading then invokeFunc time st3 else (result st3, st3).

Definition remainingWait (time : Z) (st : State) : Z :=
  let timeSinceLastCall := (time - lastCallTime st)%Z in
  (delay - timeSinceLastCall)%Z.

Definition shouldInvoke (time : Z) (st : State) : bool :=
  let timeSinceLastCall := (time - lastCallTime st)%Z in
  let timeSinceLastInvoke := (time - lastInvokeTime st)%Z in
  (lastCallTime st =? 0)%Z
  || (delay <=? timeSinceLastCall)%Z
  || (timeSinceLastCall <? 0)%Z
  || (delay <=? timeSinceLastInvoke)%Z.

Definition trailingEdge (time : Z) (st : State) : option R * State :=
  let st1 := withTimeoutId None st in
  if trailing && bool_decide (is_Some (lastArgs st1)) then invokeFunc time st1
  else (result st1, withLastArgs None st1).

Definition timerExpired (time : Z) (st : State) : State :=
  if shouldInvoke time st then (trailingEdge time st).2
  else
    let '(id, st1) := setTimeout (remainingWait time st) st in
    withTimeoutId (Some id) st1.

Definition cancel (st : State) : State :=
  let st1 :=
    match timeoutId st with
    | Some id => clearTimeout id st
    | None => st
    end in
  withTimeoutId None
    (withLastCallTime 0 (withLastArgs None (withLastInvokeTime 0 st1))).

Definition debounced (time : Z) (args : A) (st : State) : option R * State :=
  let isInvoking := shouldInvoke time st in
  let st1 := withLastCallTime time (withLastArgs (Some args) st) in
  if isInvoking then
    match timeoutId st1 with
    | None => leadingEdge (lastCallTime st1) st1
    | Some _ =>
        let '(id, st2) := setTimeout delay st1 in
        invokeFunc (lastCallTime st2) (withTimeoutId (Some id) st2)
    end
  else
    match timeoutId st1 with
    | None =>
        let '(id, st2) := setTimeout delay st1 in
        let st3 := withTimeoutId (Some id) st2 in
        (result st3, st3)
    | Some _ => (result st1, st1)
    end.

(** What can happen to the closure: a call, the firing of a timer
    that is set, a call of [cancel]. *)
Inductive Event :=
| Call (time : Z) (args : A)
| Fire (time : Z) (id : nat)
| Cancel.

Definition step (ev : Event) (st : State) : State :=
  match ev with
  | Call time args => (debounced time args st).2
  | Fire time id =>
      if bool_decide (id ∈ map timerId (timers st))
      then timerExpired time (clearTimeout id st)
      else st
  | Cancel => cancel st
  end.

Definition run (evs : list Event) (st : State) : State :=
  foldl (fun acc ev => step ev acc) st evs.

End Debounced.

Arguments State : clear implicits.
Arguments Event : clear implicits.
Arguments initial {A R}.
Arguments Cancel {A}.
Arguments Fire {A}.

End Debounce.

(** ** Reference notions used to state the properties *)

Module Spec.
Import JsString WordRegex.

(** [s[i]] for an integer index: [undefined] outside the string. *)
Definition charAt (s : jsstring) (i : Z) : option ascii :=
  if (i <? 0)%Z then None else s !! Z.to_nat i.

Definition inClassAt (c : option ascii) : bool :=
  match c with Some x => inClass x | None => false end.

(** [text[start:end]] is a maximal run of letters and apostrophes: the
    characters next to it on either side, if any, are outside the class. *)
Definition isMaximalRun (text : jsstring) (start end_ : Z) : bool :=
  negb (inClassAt (charAt text (start - 1))) && negb (inClassAt (charAt text end_)).

(** [\b] holds in [text] at offset [i]. *)
Definition boundaryAt (text : jsstring) (i : Z) : bool :=
  wordBoundary (charAt text (i - 1)) (charAt text i).

(** What it means for [m] to be a match of the pattern inside [text]. *)
Definition IsToken (text : jsstring) (m : RegExpMatch) : Prop :=
  let len := length (matched m) in
  matched m = take len (drop (index m) text)
  /\ 2 <= len
  /\ index m + len <= length text
  /\ Forall (fun c => inClass c = true) (matched m)
  /\ wordBoundary (match index m with 0 => None | S i => text !! i end)
                   (text !! index m) = true
  /\ wordBoundary (text !! (index m + len - 1)) (text !! (index m + len)) = true.

(** A dictionary that knows the two words of the specification's
    scenario and never suggests anything. *)
Definition helloWorld : Worker.Typo :=
  Worker.mkTypo
    (fun w => bool_decide (w = str "hello") || bool_decide (w = str "world"))
    (fun _ => []).

(** The three situations in which [addWord] is to refuse its argument:
    it is not a non-empty string; its lower-cased, trimmed form has fewer
    than two characters (none included); the set is full and does not
    hold that form. *)
Inductive Refused (d : CustomDictionary.State) : CustomDictionary.JsValue -> Prop :=
| refused_not_a_word v :
    (forall s, v = CustomDictionary.VString s -> s = []) -> Refused d v
| refused_too_short s :
    length (trim (toLowerCase s)) < 2 -> Refused d (CustomDictionary.VString s)
| refused_full s :
    (CustomDictionary.maxWords d <= Z.of_nat (size (CustomDictionary.words d)))%Z ->
    trim (toLowerCase s) ∉ CustomDictionary.words d ->
    Refused d (CustomDictionary.VString s).

(** The representation invariant of an [LRUCache]: the linked list
    holds each key of the map exactly once, and [size] counts them. *)
Definition wf {V} (c : LRU.LRUCache V) : Prop :=
  NoDup (LRU.order c)
  /\ (forall k, k ∈ LRU.order c <-> is_Some (LRU.cache c !! k))
  /\ LRU.size c = length (LRU.order c).


(** The fields that neither the word ladder nor the loops write. *)
Definition sameSetting (st st' : Worker.Engine) : Prop :=
  Worker.dictionary st' = Worker.dictionary st
  /\ Worker.customWords st' = Worker.customWords st
  /\ Worker.lastFullText st' = Worker.lastFullText st
  /\ Worker.posted st' = Worker.posted st.

(** The verdict on a lower-cased word that the engine computes when
    the word cache does not hold it. *)
Definition verdict (st : Worker.Engine) (w : jsstring) : bool :=
  bool_decide (w ∈ Worker.customWords st)
  || match Worker.dictionary st with
     | Some d => Worker.check d w
     | None => true
     end.

(** Every verdict held by the word cache is the one the engine would
    compute now. *)
Definition consistent (st : Worker.Engine) : Prop :=
  forall w v, LRU.cache (Worker.checkedCache st) !! w = Some v -> v = verdict st w.

(** The matches of a text whose lower-cased word is invalid. *)
Definition invalidMatches (st : Worker.Engine) (ms : list WordRegex.RegExpMatch)
    : list WordRegex.RegExpMatch :=
  filter (fun m => verdict st (toLowerCase (WordRegex.matched m)) = false) ms.


(** No entry of the region cache holds a result. *)
Definition noResults (st : Worker.Engine) : Prop :=
  forall k e, LRU.cache (Worker.regionCache st) !! k = Some e -> Worker.results e = [].


(** What holds of the word cache in every state of the worker. *)
Definition cacheInv (st : Worker.Engine) : Prop :=
  wf (Worker.checkedCache st)
  /\ consistent st
  /\ LRU.capacity (Worker.checkedCache st) = 5000.

(** A family of pairwise distinct lower-case words: [wo] followed by
    the binary digits of a positive number written with [a] and [b]. *)
Fixpoint bitsOf (p : positive) : jsstring :=
  match p with
  | xH => []
  | xO q => "a"%char :: bitsOf q
  | xI q => "b"%char :: bitsOf q
  end.

Definition wordOf (p : positive) : jsstring :=
  "w"%char :: "o"%char :: bitsOf p.

Definition manyWords (n : nat) : list jsstring :=
  map (fun i => wordOf (Pos.of_nat i)) (seq 1 n).





(** The Levenshtein recurrence, read from the heads of the strings:
    the other string's length when one is empty, the distance of the
    tails when the heads agree, and otherwise one more than the least of
    the three distances obtained by dropping a head on the left, on the
    right, or on both sides. *)
Fixpoint levenshtein (s : jsstring) : jsstring -> nat :=
  match s with
  | [] => fun t => length t
  | a :: s' =>
      fix inner (t : jsstring) : nat :=
        match t with
        | [] => length s
        | b :: t' =>
            if bool_decide (a = b) then levenshtein s' t'
            else S (Nat.min (levenshtein s' t)
                            (Nat.min (inner t') (levenshtein s' t')))
        end
  end.

(** The matrix of [calculateEditDistance] runs the recurrence from the
    last characters: its cell [(i, j)] is the distance between the first
    [i] characters of one string and the first [j] of the other. *)
Definition prefixDistance (s t : jsstring) (i j : nat) : nat :=
  levenshtein (rev (take i s)) (rev (take j t)).

(** The Levenshtein distance of two strings, as the matrix reads it. *)
Definition editDistance (s t : jsstring) : nat :=
  levenshtein (rev s) (rev t).

(** A candidate at Levenshtein distance 1 or 2 from the word. *)
Definition closeEnough (word candidate : jsstring) : Prop :=
  1 <= editDistance word candidate <= 2.

#[global] Instance closeEnough_dec (word candidate : jsstring) :
  Decision (closeEnough word candidate).
Proof. unfold closeEnough. apply _. Defined.

(** Every custom word is its own lower-case form. *)
Definition lowerCased (st : Worker.Engine) : Prop :=
  forall w, w ∈ Worker.customWords st -> toLowerCase w = w.




(** A match of a slice, placed back at its offset in the whole text. *)
Definition shiftMatch (off : nat) (m : WordRegex.RegExpMatch)
    : WordRegex.RegExpMatch :=
  WordRegex.mkMatch (WordRegex.index m + off) (WordRegex.matched m).

(** The character before the current position once [a] has been
    passed, [prev] being the one before [a]. *)
Definition lastOr (prev : option ascii) (a : jsstring) : option ascii :=
  from_option Some prev (last a).

(** The three fields that the host reads from a result. *)
Definition entryOf (r : Worker.SpellCheckResult) : jsstring * Z * Z :=
  (Worker.word r, Worker.start r, Worker.end_ r).

(** The results of a full check that lie inside a region. *)
Definition insideRegion (region : Utils.IncrementalCheckRegion)
    (r : Worker.SpellCheckResult) : Prop :=
  (Utils.start region <= Worker.start r)%Z
  /\ (Worker.end_ r <= Utils.end_ region)%Z.

#[global] Instance insideRegion_dec region r : Decision (insideRegion region r).
Proof. unfold insideRegion. apply _. Defined.

(** A call of a public method of [LRUCache]. *)
Inductive LRUCall (V : Type) : Type :=
| CallGet (key : jsstring)
| CallSet (key : jsstring) (value : V)
| CallHas (key : jsstring)
| CallDelete (key : jsstring)
| CallClear.
Arguments CallGet {V}.
Arguments CallSet {V}.
Arguments CallHas {V}.
Arguments CallDelete {V}.
Arguments CallClear {V}.

(** The cache after a call, and after a sequence of calls. *)
Definition callOn {V} (o : LRUCall V) (c : LRU.LRUCache V) : LRU.LRUCache V :=
  match o with
  | CallGet key => (LRU.get key c).2
  | CallSet key value => LRU.set key value c
  | CallHas key => c
  | CallDelete key => (LRU.delete key c).2
  | CallClear => LRU.clear c
  end.

Definition callsOn {V} (os : list (LRUCall V)) (c : LRU.LRUCache V)
    : LRU.LRUCache V :=
  foldl (fun acc o => callOn o acc) c os.

(** A cache in good shape that never holds more than its capacity. *)
Definition fits {V} (c : LRU.LRUCache V) : Prop :=
  wf c /\ LRU.size c <= LRU.capacity c.






(** What holds of the three caches in every state of the worker. *)
Definition storeInv (st : Worker.Engine) : Prop :=
  fits (Worker.checkedCache st)
  /\ LRU.capacity (Worker.checkedCache st) = 5000
  /\ fits (Worker.regionCache st)
  /\ LRU.capacity (Worker.regionCache st) = 1000
  /\ (forall k v, Worker.currentCheckCache st !! k = Some v -> v = false).

(** Each region of the list starts after the end of the one before
    it. *)
Definition apart (l : list Utils.IncrementalCheckRegion) : Prop :=
  forall i a b, l !! i = Some a -> l !! S i = Some b ->
                (Utils.end_ a < Utils.start b)%Z.


(** The span of [r] lies inside the span of some region of [l]. *)
Definition within (r : Utils.IncrementalCheckRegion)
    (l : list Utils.IncrementalCheckRegion) : Prop :=
  exists o, o ∈ l /\ (Utils.start o <= Utils.start r)%Z
            /\ (Utils.end_ r <= Utils.end_ o)%Z.

(** Every word of the set has its prefix in the index. *)
Definition indexed (d : EnglishDictionary.State) : Prop :=
  forall w, w ∈ EnglishDictionary.wordSet d ->
    is_Some (EnglishDictionary.prefixMap d !! EnglishDictionary.prefixOf w).

(** A call of a method of [CustomDictionary] that may change it. *)
Inductive DictionaryCall :=
| CallAddWord (word : CustomDictionary.JsValue)
| CallRemoveWord (word : jsstring)
| CallAddWords (words : list jsstring)
| CallRemoveWords (words : list jsstring)
| CallClearWords
| CallAddWordsFromText (text : jsstring).

(** The dictionary after a call, and after a sequence of calls. *)
Definition callDictionary (o : DictionaryCall) (d : CustomDictionary.State)
    : CustomDictionary.State :=
  match o with
  | CallAddWord word => (CustomDictionary.addWord word d).2
  | CallRemoveWord word => (CustomDictionary.removeWord word d).2
  | CallAddWords ws => (CustomDictionary.addWords ws d).2
  | CallRemoveWords ws => (CustomDictionary.removeWords ws d).2
  | CallClearWords => CustomDictionary.clear d
  | CallAddWordsFromText text => (CustomDictionary.addWordsFromText text d).2
  end.

Definition callsDictionary (os : list DictionaryCall)
    (d : CustomDictionary.State) : CustomDictionary.State :=
  foldl (fun acc o => callDictionary o acc) d os.

(** The worker after it has handled the messages, first one first. *)
Definition handleAll (msgs : list Worker.Request) (st : Worker.Engine)
    : Worker.Engine :=
  foldl (fun acc msg => Worker.onmessage msg acc) st msgs.

(** What the calls keep of a dictionary [d0]: the limit, the
    auto-save flag, no more words than the limit allows, and a message
    log [sent ++ more] whose new messages [more] take a worker that held
    the words of [d0] to one that holds the words of [d]. *)
Definition inStep (d0 d : CustomDictionary.State) : Prop :=
  CustomDictionary.maxWords d = CustomDictionary.maxWords d0
  /\ CustomDictionary.autoSave d = CustomDictionary.autoSave d0
  /\ ((Z.of_nat (base.size (CustomDictionary.words d0))
       <= CustomDictionary.maxWords d0)%Z ->
      (Z.of_nat (base.size (CustomDictionary.words d))
       <= CustomDictionary.maxWords d0)%Z)
  /\ (forall sent, CustomDictionary.worker d0 = Some sent ->
        exists more,
          CustomDictionary.worker d = Some (sent ++ more)
          /\ forall st,
               Worker.customWords st = CustomDictionary.words d0 ->
               Worker.customWords (handleAll more st)
               = CustomDictionary.words d).

(** The arguments of the calls among the events, in order. *)
Definition callArgs {A} (evs : list (Debounce.Event A)) : list A :=
  omap (fun ev => match ev with Debounce.Call _ a => Some a | _ => None end) evs.


(** Timer handles are not reused, the timer named by [timeoutId] is
    set, and the arguments of a call not yet handed to [func] have such
    a timer. *)
Definition armed {A R} (st : Debounce.State A R) : Prop :=
  (forall t, t ∈ Debounce.timers st ->
     Debounce.timerId t < Debounce.nextTimer st)
  /\ (forall id, Debounce.timeoutId st = Some id ->
        id ∈ map Debounce.timerId (Debounce.timers st))
  /\ (is_Some (Debounce.lastArgs st) -> is_Some (Debounce.timeoutId st)).

End Spec.

(** * Properties *)

(** ** The word pattern *)

Section WordRegexFacts.
Import JsString WordRegex Spec.

Lemma classRun_le (s : jsstring) : classRun s <= length s.
Proof.
  induction s as [|c s IH]; simpl; [lia|].
  destruct (inClass c); simpl; lia.
Qed.

Lemma classRun_Forall (s : jsstring) (n : nat) :
  n <= classRun s -> Forall (fun c => inClass c = true) (take n s).
Proof.
  revert n; induction s as [|c s IH]; intros n Hn; simpl in *.
  - rewrite take_nil. constructor.
  - destruct n as [|n]; [constructor|].
    destruct (inClass c) eqn:Hc; [|lia].
    simpl. constructor; [exact Hc|]. apply IH. lia.
Qed.

Lemma backtrack_Some (s : jsstring) (n k : nat) :
  backtrack s n = Some k ->
  2 <= k <= n /\ wordBoundary (s !! (k - 1)) (s !! k) = true.
Proof.
  induction n as [|n IH]; simpl; [discriminate|].
  destruct (match n with 0 => false | S m' => true end
            && wordBoundary (s !! n) (s !! S n)) eqn:E.
  - intros [= <-]. apply andb_true_iff in E as [E1 E2].
    destruct n; [discriminate|].
    replace (S (S n) - 1) with (S n) by lia. split; [lia|exact E2].
  - intros H. destruct (IH H) as [? ?]. split; [lia|assumption].
Qed.

Lemma matchAt_Some (prev : option ascii) (s : jsstring) (len : nat) :
  matchAt prev s = Some len ->
  2 <= len <= classRun s
  /\ wordBoundary prev (head s) = true
  /\ wordBoundary (s !! (len - 1)) (s !! len) = true.
Proof.
  unfold matchAt. destruct (wordBoundary prev (head s)) eqn:Hb; [|discriminate].
  intros H. apply backtrack_Some in H as [? ?]. auto.
Qed.

Lemma execFrom_IsToken (s pre : jsstring) (skip : nat) (m : RegExpMatch) :
  m ∈ execFrom skip (last pre) (length pre) s ->
  length pre + skip <= index m /\ IsToken (pre ++ s) m.
Proof.
  revert pre skip. induction s as [|c s IH]; intros pre skip Hm; simpl in Hm.
  - by apply elem_of_nil in Hm.
  - assert (Hstep : forall k, m ∈ execFrom k (Some c) (S (length pre)) s ->
              S (length pre) + k <= index m /\ IsToken (pre ++ c :: s) m).
    { intros k Hk. specialize (IH (pre ++ [c]) k).
      rewrite last_snoc, length_app, Nat.add_1_r, <- app_assoc in IH.
      simpl in IH. destruct (IH Hk) as [? ?]. split; [lia|assumption]. }
    destruct skip as [|skip].
    + destruct (matchAt (last pre) (c :: s)) as [len|] eqn:Hmatch.
      * apply elem_of_cons in Hm as [->|Hm].
        -- apply matchAt_Some in Hmatch as (Hlen & Hb1 & Hb2).
           pose proof (classRun_le (c :: s)) as Hle.
           split; [simpl; lia|].
           assert (Hl : length (take len (c :: s)) = len)
             by (rewrite length_take; lia).
           unfold IsToken. cbn [index matched]. rewrite Hl.
           rewrite drop_app_length. repeat split.
           ++ lia.
           ++ rewrite length_app. lia.
           ++ apply classRun_Forall. lia.
           ++ rewrite lookup_app_r, Nat.sub_diag by lia.
              destruct pre as [|p pre] using rev_ind.
              ** exact Hb1.
              ** rewrite last_snoc in Hb1. rewrite length_app, Nat.add_1_r.
                 rewrite lookup_app_l by (rewrite length_app; simpl; lia).
                 rewrite lookup_app_r, Nat.sub_diag by lia. exact Hb1.
           ++ rewrite !lookup_app_r by lia.
              replace (length pre + len - 1 - length pre) with (len - 1) by lia.
              replace (length pre + len - length pre) with len by lia.
              exact Hb2.
        -- destruct (Hstep _ Hm) as [? ?]. split; [lia|assumption].
      * destruct (Hstep _ Hm) as [? ?]. split; [lia|assumption].
    + destruct (Hstep _ Hm) as [? ?]. split; [lia|assumption].
Qed.

Lemma execAll_IsToken (text : jsstring) (m : RegExpMatch) :
  m ∈ execAll text -> IsToken text m.
Proof.
  intros Hm. by destruct (execFrom_IsToken text [] 0 m Hm).
Qed.

End WordRegexFacts.

Section SliceFacts.
Import JsString.

Lemma slice_take_drop (s : jsstring) (i len : nat) :
  i + len <= length s ->
  slice s (Z.of_nat i) (Z.of_nat i + Z.of_nat len) = take len (drop i s).
Proof.
  intros H. unfold slice, sliceIndex.
  destruct (Z.ltb_spec (Z.of_nat i) 0); [lia|].
  destruct (Z.ltb_spec (Z.of_nat i + Z.of_nat len) 0); [lia|].
  rewrite !Z.min_l by lia.
  replace (Z.to_nat (Z.of_nat i + Z.of_nat len - Z.of_nat i)) with len by lia.
  by rewrite Nat2Z.id.
Qed.

Lemma slice_full (s : jsstring) : slice s 0 (Z.of_nat (length s)) = s.
Proof.
  exact (eq_trans (slice_take_drop s 0 (length s) (le_n _)) (firstn_all s)).
Qed.

End SliceFacts.

(** ** Full check: shape of the reported entries *)

Section FullCheckEntries.
Import JsString WordRegex Worker Spec.

Lemma processMatches_from_match (ms : list RegExpMatch) (st : Engine)
    (r : SpellCheckResult) :
  r ∈ (processMatches ms st).1 ->
  exists m, m ∈ ms /\ r = resultOfMatch m None.
Proof.
  revert st. induction ms as [|m ms IH]; intros st; simpl.
  - intros H. by apply elem_of_nil in H.
  - destruct (checkWord (toLowerCase (matched m)) st) as [invalid st1].
    specialize (IH st1).
    destruct (processMatches ms st1) as [rest st2]. simpl in *.
    intros Hr.
    assert (Hcases : r = resultOfMatch m None \/ r ∈ rest).
    { destruct invalid; [|by right].
      apply elem_of_cons in Hr as [->|Hr]; [by left|by right]. }
    destruct Hcases as [->|Hr'].
    + exists m. split; [left|reflexivity].
    + destruct (IH Hr') as (m' & Hm' & ->). exists m'. split; [by right|done].
Qed.

(** C8, as the code has it.  Every entry reported by a full check spans
    its word in the text ([end = start + length], [text[start:end] = word]);
    the word has at least two characters, all of them ASCII letters or
    apostrophes, and a regular-expression word boundary holds at both of
    its ends.  Maximality of the run is not part of it. *)
Theorem processText_entries (fullText : jsstring) (st : Engine)
    (r : SpellCheckResult) :
  r ∈ (processText fullText st).1 ->
  end_ r = (start r + Z.of_nat (length (word r)))%Z
  /\ slice fullText (start r) (end_ r) = word r
  /\ 2 <= length (word r)
  /\ Forall (fun c => inClass c = true) (word r)
  /\ boundaryAt fullText (start r) = true
  /\ boundaryAt fullText (end_ r) = true.
Proof.
  intros Hr. apply processMatches_from_match in Hr as (m & Hm & ->).
  apply execAll_IsToken in Hm as (Htxt & Hlen & Hin & Hcls & Hb1 & Hb2).
  cbn [resultOfMatch word start end_].
  split; [reflexivity|]. split.
  { rewrite slice_take_drop by lia. by rewrite <- Htxt. }
  split; [lia|]. split; [exact Hcls|].
  unfold boundaryAt, charAt. split.
  - destruct (Z.ltb_spec (Z.of_nat (index m)) 0); [lia|].
    rewrite Nat2Z.id.
    destruct (index m) as [|i] eqn:Hi.
    + simpl. exact Hb1.
    + destruct (Z.ltb_spec (Z.of_nat (S i) - 1) 0); [lia|].
      replace (Z.to_nat (Z.of_nat (S i) - 1)) with i by lia. exact Hb1.
  - set (len := length (matched m)) in *.
    destruct (Z.ltb_spec (Z.of_nat (index m) + Z.of_nat len - 1) 0); [lia|].
    destruct (Z.ltb_spec (Z.of_nat (index m) + Z.of_nat len) 0); [lia|].
    replace (Z.to_nat (Z.of_nat (index m) + Z.of_nat len - 1))
      with (index m + len - 1) by lia.
    replace (Z.to_nat (Z.of_nat (index m) + Z.of_nat len))
      with (index m + len) by lia.
    exact Hb2.
Qed.

Lemma processText_entries_witness :
  let st := onmessage (INIT_DICTIONARY helloWorld) initialEngine in
  let r := mkResult (str "helo") 0 4 None in
  r ∈ (processText (str "helo wrold") st).1
  /\ slice (str "helo wrold") (start r) (end_ r) = word r.
Proof.
  assert (H : mkResult (str "helo") 0 4 None
              ∈ (processText (str "helo wrold")
                   (onmessage (INIT_DICTIONARY helloWorld) initialEngine)).1).
  { vm_compute. left. }
  split; [exact H|].
  exact (proj1 (proj2 (processText_entries _ _ _ H))).
Defined.

(** C8 as stated fails: in the text ['helo'] the reported word is
    [helo] at [1,5), which has an apostrophe on each side and so is not
    a maximal run of letters and apostrophes. *)
Lemma processText_entry_not_maximal :
  let text := str "'helo'" in
  let st := onmessage (INIT_DICTIONARY helloWorld) initialEngine in
  (processText text st).1 = [mkResult (str "helo") 1 5 None]
  /\ isMaximalRun text 1 5 = false.
Proof. vm_compute. split; reflexivity. Qed.

(** A run made of apostrophes only is matched when word characters
    enclose it, and is reported when the dictionary rejects it. *)
Lemma processText_apostrophes_only :
  let st := onmessage (INIT_DICTIONARY helloWorld) initialEngine in
  (processText (str "1''2") st).1 = [mkResult (str "''") 1 3 None].
Proof. vm_compute. reflexivity. Qed.

End FullCheckEntries.

(** ** CustomDictionary.addWord *)

Section AddWord.
Import JsString CustomDictionary Spec.

(** C10.  [addWord] returns [false] and leaves the dictionary as it was
    whenever the argument is not a non-empty string, or its lower-cased
    trimmed form has fewer than two characters, or the set is full and
    lacks that form; and when it returns [true] the argument is a string
    whose lower-cased trimmed form was absent and is the one element
    added to the set. *)
Theorem addWord_spec (v : JsValue) (d : State) :
  (Refused d v -> addWord v d = (false, d))
  /\ ((addWord v d).1 = true ->
      exists s, v = VString s
        /\ (trim (toLowerCase s) ∉ words d)
        /\ words (addWord v d).2 = {[ trim (toLowerCase s) ]} ∪ words d).
Proof.
  split.
  - intros Href. unfold addWord. destruct Href as [v Hv|s Hs|s Hfull Hnot].
    + destruct v; simpl; try reflexivity.
      * by destruct b.
      * by destruct (n =? 0)%Z.
      * rewrite (Hv s eq_refl). reflexivity.
    + simpl. case_bool_decide; [reflexivity|].
      apply Nat.ltb_lt in Hs. rewrite Hs.
      case_bool_decide; reflexivity.
    + simpl. case_bool_decide; [reflexivity|].
      destruct (bool_decide (trim (toLowerCase s) = []) ||
                (length (trim (toLowerCase s)) <? 2)); [reflexivity|].
      apply Z.leb_le in Hfull. rewrite Hfull.
      rewrite (bool_decide_eq_false_2 _ Hnot). reflexivity.
  - unfold addWord. destruct v; simpl;
      try (destruct (falsy _); discriminate);
      try discriminate.
    + destruct (negb b); discriminate.
    + destruct (n =? 0)%Z; discriminate.
    + case_bool_decide; [discriminate|].
      destruct (bool_decide (trim (toLowerCase s) = []) ||
                (length (trim (toLowerCase s)) <? 2)); [discriminate|].
      destruct ((maxWords d <=? Z.of_nat (size (words d)))%Z &&
                negb (bool_decide (trim (toLowerCase s) ∈ words d)));
        [discriminate|].
      case_bool_decide as Hin; simpl; [discriminate|].
      intros _. exists s. auto.
Qed.

Lemma addWord_spec_witness :
  let d := mkState ∅ 10000 true (Some []) 0 in
  addWord (VString (str " A ")) d = (false, d)
  /\ words (addWord (VString (str " Helo ")) d).2 = {[ str "helo" ]} ∪ ∅.
Proof.
  split.
  - apply (proj1 (addWord_spec _ _)). apply refused_too_short.
    vm_compute. lia.
  - assert (Htrue : (addWord (VString (str " Helo "))
                        (mkState ∅ 10000 true (Some []) 0)).1 = true)
      by (vm_compute; reflexivity).
    destruct (proj2 (addWord_spec _ _) Htrue) as (s & Hs & _ & Hw).
    injection Hs as <-. exact Hw.
Defined.

End AddWord.

(** ** Merging regions *)

Section MergeRegions.
Import JsString Utils.

(** Two overlapping regions, which no caller passes: the regions
    [0,5) and [4,10) of the document [0123456789] merge into one region
    that spans [0,10), and its text is rebuilt as [456789]. *)
Lemma mergeOverlappingRegions_overlapping_pair :
  let doc := str "0123456789" in
  mergeOverlappingRegions
    [mkRegion 0 5 (slice doc 0 5); mkRegion 4 10 (slice doc 4 10)]
  = [mkRegion 0 10 (str "456789")]
  /\ slice doc 0 10 = str "0123456789".
Proof. vm_compute. split; reflexivity. Qed.


End MergeRegions.

(** ** What the check loops leave untouched *)

Section Frame.
Import JsString WordRegex Worker Spec.

Lemma sameSetting_refl (st : Engine) : sameSetting st st.
Proof. by repeat split. Qed.

Lemma sameSetting_trans (a b c : Engine) :
  sameSetting a b -> sameSetting b c -> sameSetting a c.
Proof.
  intros (H1 & H2 & H3 & H4) (G1 & G2 & G3 & G4).
  repeat split; congruence.
Qed.

Lemma isValid_frame (w : jsstring) (st : Engine) :
  sameSetting st (isValid w st).2
  /\ checkedCache (isValid w st).2 = checkedCache st
  /\ regionCache (isValid w st).2 = regionCache st
  /\ currentCheckCache (isValid w st).2 = currentCheckCache st.
Proof.
  unfold isValid. case_bool_decide; [by repeat split|].
  destruct (dictionary st); by repeat split.
Qed.

Lemma checkWord_frame (w : jsstring) (st : Engine) :
  sameSetting st (checkWord w st).2
  /\ regionCache (checkWord w st).2 = regionCache st.
Proof.
  unfold checkWord. destruct (LRU.has w (checkedCache st)).
  - destruct (LRU.get w (checkedCache st)) as [v c].
    destruct (negb (truthy v)); by repeat split.
  - pose proof (isValid_frame w st) as (Hs & _ & Hr & _).
    destruct (isValid w st) as [valid st1]. simpl in *.
    destruct Hs as (H1 & H2 & H3 & H4).
    destruct (negb valid); by repeat split.
Qed.

Lemma processMatches_frame (ms : list RegExpMatch) (st : Engine) :
  sameSetting st (processMatches ms st).2
  /\ regionCache (processMatches ms st).2 = regionCache st.
Proof.
  revert st. induction ms as [|m ms IH]; intros st; simpl.
  - split; [apply sameSetting_refl|reflexivity].
  - pose proof (checkWord_frame (toLowerCase (matched m)) st) as [Hs Hr].
    destruct (checkWord (toLowerCase (matched m)) st) as [invalid st1].
    specialize (IH st1). destruct (processMatches ms st1) as [rest st2].
    simpl in *. destruct IH as [Hs' Hr']. split.
    + eapply sameSetting_trans; eassumption.
    + congruence.
Qed.

Lemma processRegionMatches_frame (off : Z) (ms : list RegExpMatch) (st : Engine) :
  sameSetting st (processRegionMatches off ms st).2
  /\ regionCache (processRegionMatches off ms st).2 = regionCache st.
Proof.
  revert st. induction ms as [|m ms IH]; intros st; simpl.
  - split; [apply sameSetting_refl|reflexivity].
  - pose proof (checkWord_frame (toLowerCase (matched m)) st) as [Hs Hr].
    destruct (checkWord (toLowerCase (matched m)) st) as [invalid st1].
    specialize (IH st1). destruct (processRegionMatches off ms st1) as [rest st2].
    simpl in *. destruct IH as [Hs' Hr']. split.
    + eapply sameSetting_trans; eassumption.
    + congruence.
Qed.

End Frame.

(** ** Mutations of the custom word set *)

Section CustomWordMutations.
Import JsString Worker.

(** [ADD_WORD] clears both caches, re-runs the full check when a text
    was saved and posts its result before the update notice. *)
Lemma add_word_rechecks (w : jsstring) (st : Engine) :
  lastFullText st <> [] ->
  let cleared :=
    withCurrentCheckCache ∅
      (clearCaches (withCustomWords ({[ toLowerCase w ]} ∪ customWords st) st)) in
  let run := processText (lastFullText st) cleared in
  LRU.cache (checkedCache cleared) = ∅
  /\ LRU.cache (regionCache cleared) = ∅
  /\ posted (onmessage (ADD_WORD w) st)
     = posted st ++ [CHECK_RESULT run.1 (currentCheckCache run.2);
                     DICTIONARY_UPDATED (str "ADD_WORD") w].
Proof.
  intros Htext. simpl. split; [reflexivity|]. split; [reflexivity|].
  unfold recheckLastText. cbn [lastFullText withCurrentCheckCache clearCaches
    withRegionCache withCheckedCache withCustomWords].
  rewrite (bool_decide_eq_false_2 _ Htext).
  match goal with |- context [processText ?t ?e] =>
    pose proof (processMatches_frame (WordRegex.execAll t) e) as [(_ & _ & _ & Hp) _];
    fold (processText t e) in Hp;
    destruct (processText t e) as [invalidWords st1]
  end.
  simpl in *. by rewrite Hp, <- app_assoc.
Qed.

Lemma remove_word_rechecks (w : jsstring) (st : Engine) :
  lastFullText st <> [] ->
  let cleared :=
    withCurrentCheckCache ∅
      (clearCaches (withCustomWords (customWords st ∖ {[ toLowerCase w ]}) st)) in
  let run := processText (lastFullText st) cleared in
  LRU.cache (checkedCache cleared) = ∅
  /\ LRU.cache (regionCache cleared) = ∅
  /\ posted (onmessage (REMOVE_WORD w) st)
     = posted st ++ [CHECK_RESULT run.1 (currentCheckCache run.2);
                     DICTIONARY_UPDATED (str "REMOVE_WORD") w].
Proof.
  intros Htext. simpl. split; [reflexivity|]. split; [reflexivity|].
  unfold recheckLastText. cbn [lastFullText withCurrentCheckCache clearCaches
    withRegionCache withCheckedCache withCustomWords].
  rewrite (bool_decide_eq_false_2 _ Htext).
  match goal with |- context [processText ?t ?e] =>
    pose proof (processMatches_frame (WordRegex.execAll t) e) as [(_ & _ & _ & Hp) _];
    fold (processText t e) in Hp;
    destruct (processText t e) as [invalidWords st1]
  end.
  simpl in *. by rewrite Hp, <- app_assoc.
Qed.

(** C3 on [CLEAR_WORDS]: the handler empties the custom word set and
    both caches, and posts nothing, whatever text was saved. *)
Theorem clear_words_posts_nothing (st : Engine) :
  let st' := onmessage CLEAR_WORDS st in
  customWords st' = ∅
  /\ LRU.cache (checkedCache st') = ∅
  /\ LRU.cache (regionCache st') = ∅
  /\ posted st' = posted st
  /\ lastFullText st' = lastFullText st.
Proof. repeat split. Qed.

(** The same on a concrete run: [helo] had been added to the custom
    words and the text [helo] checked; after [CLEAR_WORDS] the last
    message is still the check result that reports no invalid word,
    although a full check would now report [helo]. *)
Lemma clear_words_stale_result :
  let st :=
    onmessage (CHECK_TEXT (str "helo"))
      (onmessage (ADD_WORD (str "helo"))
         (onmessage (INIT_DICTIONARY Spec.helloWorld) initialEngine)) in
  let st' := onmessage CLEAR_WORDS st in
  lastFullText st' = str "helo"
  /\ last (posted st') = Some (CHECK_RESULT [] ∅)
  /\ (processText (lastFullText st') st').1 = [mkResult (str "helo") 0 4 None].
Proof. vm_compute. repeat split. Qed.

End CustomWordMutations.

(** ** LRUCache *)

Section LRUFacts.
Import LRU Spec.
Context {V : Type}.
Implicit Types (c : LRUCache V) (k x : jsstring) (l : list jsstring).

Lemma removeNode_notin k l : k ∉ l -> removeNode k l = l.
Proof.
  induction l as [|y l IH]; simpl; [done|].
  intros Hk. apply not_elem_of_cons in Hk as [Hne Hk].
  destruct (decide (y = k)); [congruence|]. by rewrite IH.
Qed.

Lemma elem_of_removeNode k x l :
  NoDup l -> x ∈ removeNode k l <-> x ∈ l /\ x <> k.
Proof.
  induction l as [|y l IH]; simpl; intros Hnd.
  - split; [intros H; by apply elem_of_nil in H|intros [H _]; done].
  - apply NoDup_cons in Hnd as [Hy Hnd].
    destruct (decide (y = k)) as [->|Hne].
    + split.
      * intros Hx. split; [by right|]. intros ->. done.
      * intros [Hx Hxk]. apply elem_of_cons in Hx as [?|?]; [congruence|done].
    + rewrite !elem_of_cons, (IH Hnd). split.
      * intros [->|[? ?]]; split; auto.
      * intros [[->|?] ?]; auto.
Qed.

Lemma NoDup_removeNode k l : NoDup l -> NoDup (removeNode k l).
Proof.
  induction l as [|y l IH]; simpl; intros Hnd; [done|].
  apply NoDup_cons in Hnd as [Hy Hnd].
  destruct (decide (y = k)); [done|].
  apply NoDup_cons. split; [|by apply IH].
  rewrite elem_of_removeNode by done. intros [? _]. done.
Qed.

Lemma length_removeNode k l :
  k ∈ l -> S (length (removeNode k l)) = length l.
Proof.
  induction l as [|y l IH]; simpl; intros Hk.
  - by apply elem_of_nil in Hk.
  - destruct (decide (y = k)); [done|].
    apply elem_of_cons in Hk as [?|Hk]; [congruence|].
    simpl. by rewrite IH.
Qed.



Lemma removeTail_snoc l x : removeTail (l ++ [x]) = Some (x, l).
Proof. unfold removeTail. by rewrite last_snoc, removelast_last. Qed.

Lemma wf_create (cap : nat) : wf (create cap : LRUCache V).
Proof.
  repeat split; simpl.
  - constructor.
  - intros H. by apply elem_of_nil in H.
  - rewrite lookup_empty. by intros [? ?].
Qed.

Lemma wf_clear c : wf (clear c).
Proof. apply (wf_create (capacity c)). Qed.

Lemma get_hit k c v :
  cache c !! k = Some v ->
  get k c = (Some v, mkLRU (capacity c) (size c) (cache c) (k :: removeNode k (order c))).
Proof. intros H. unfold get. by rewrite H. Qed.

Lemma get_miss k c : cache c !! k = None -> get k c = (None, c).
Proof. intros H. unfold get. by rewrite H. Qed.

Lemma get_cache k c : cache (get k c).2 = cache c.
Proof. unfold get. by destruct (cache c !! k). Qed.

Lemma get_value k c : (get k c).1 = cache c !! k.
Proof. unfold get. by destruct (cache c !! k). Qed.

Lemma has_true k c : has k c = true <-> is_Some (cache c !! k).
Proof. unfold has. apply bool_decide_eq_true. Qed.

Lemma has_false k c : has k c = false <-> cache c !! k = None.
Proof.
  unfold has. rewrite bool_decide_eq_false. by rewrite eq_None_not_Some.
Qed.

Lemma wf_moveToHead k c :
  wf c -> is_Some (cache c !! k) ->
  wf (mkLRU (capacity c) (size c) (cache c) (moveToHead k (order c))).
Proof.
  intros (Hnd & Hdom & Hsz) Hk. unfold moveToHead, addToHead.
  assert (Hin : k ∈ order c) by by apply Hdom.
  repeat split; simpl.
  - apply NoDup_cons. split; [|by apply NoDup_removeNode].
    rewrite elem_of_removeNode by done. intros [_ ?]. done.
  - intros Hx. apply Hdom. apply elem_of_cons in Hx as [->|Hx]; [done|].
    by apply elem_of_removeNode in Hx as [? _].
  - intros Hx. apply Hdom in Hx. destruct (decide (k0 = k)) as [->|Hne].
    + by left.
    + right. by apply elem_of_removeNode.
  - rewrite length_removeNode by done. done.
Qed.

Lemma wf_get k c : wf c -> wf (get k c).2.
Proof.
  intros Hwf. unfold get. destruct (cache c !! k) as [v|] eqn:E; [|done].
  simpl. apply wf_moveToHead; [done|]. by rewrite E.
Qed.

Lemma wf_empty_order c : wf c -> order c = [] -> cache c = ∅.
Proof.
  intros (_ & Hdom & _) Ho. apply map_eq. intros k. rewrite lookup_empty.
  apply eq_None_not_Some. intros Hk. apply Hdom in Hk. rewrite Ho in Hk.
  by apply elem_of_nil in Hk.
Qed.

(** [set] of a key that is present: the value is replaced and the node
    moves to the head. *)
Lemma set_present k v c :
  is_Some (cache c !! k) ->
  set k v c = mkLRU (capacity c) (size c) (<[k := v]> (cache c))
                (k :: removeNode k (order c)).
Proof. intros [v0 H]. unfold set. by rewrite H. Qed.

(** [set] of a new key while there is room. *)
Lemma set_fresh_room k v c :
  cache c !! k = None -> size c < capacity c ->
  set k v c = mkLRU (capacity c) (S (size c)) (<[k := v]> (cache c)) (k :: order c).
Proof.
  intros H Hlt. unfold set. rewrite H.
  destruct (Nat.ltb_spec (capacity c) (S (size c))); [lia|done].
Qed.

(** [set] of a new key into a cache without room: the node before
    [tail] is unlinked and its key deleted from the map. *)
Lemma set_fresh_full k v c rest victim :
  cache c !! k = None -> capacity c <= size c ->
  order c = rest ++ [victim] ->
  set k v c = mkLRU (capacity c) (size c)
                (base.delete victim (<[k := v]> (cache c))) (k :: rest).
Proof.
  intros H Hle Ho. unfold set. rewrite H.
  destruct (Nat.ltb_spec (capacity c) (S (size c))); [|lia].
  unfold addToHead. rewrite Ho, app_comm_cons, removeTail_snoc.
  simpl. by rewrite Nat.sub_0_r.
Qed.

(** The same when the list is empty, which needs capacity 0: the new
    node itself is the one before [tail]. *)
Lemma set_fresh_empty k v c :
  cache c !! k = None -> capacity c <= size c -> order c = [] ->
  set k v c = mkLRU (capacity c) (size c)
                (base.delete k (<[k := v]> (cache c))) [].
Proof.
  intros H Hle Ho. unfold set. rewrite H.
  destruct (Nat.ltb_spec (capacity c) (S (size c))); [|lia].
  unfold addToHead. rewrite Ho. simpl. by rewrite Nat.sub_0_r.
Qed.

Lemma wf_set k v c : wf c -> wf (set k v c).
Proof.
  intros Hwf. destruct (cache c !! k) as [v0|] eqn:E.
  - rewrite set_present by by rewrite E.
    destruct (wf_moveToHead k c Hwf) as (Hnd & Hdom & Hsz); [by rewrite E|].
    simpl in *. repeat split; simpl; try done.
    + intros Hx. apply Hdom in Hx. rewrite lookup_insert.
      case_decide; [done|]. done.
    + intros Hx. apply Hdom. rewrite lookup_insert in Hx.
      case_decide as Hd; [subst; by rewrite E|done].
  - destruct Hwf as (Hnd & Hdom & Hsz).
    assert (Hk : k ∉ order c).
    { intros Hin. apply Hdom in Hin. rewrite E in Hin. by destruct Hin. }
    destruct (Nat.lt_ge_cases (size c) (capacity c)) as [Hlt|Hge].
    + rewrite set_fresh_room by done. repeat split; simpl.
      * by apply NoDup_cons.
      * intros Hx. rewrite lookup_insert. case_decide; [done|].
        apply Hdom. apply elem_of_cons in Hx as [?|?]; [congruence|done].
      * intros Hx. rewrite lookup_insert in Hx. case_decide as Hd.
        -- subst. by left.
        -- right. by apply Hdom.
      * by rewrite Hsz.
    + destruct (order c) as [|y l] eqn:Ho using rev_ind.
      * rewrite set_fresh_empty by done. repeat split; simpl.
        -- constructor.
        -- intros Hx. by apply elem_of_nil in Hx.
        -- intros [w Hx]. rewrite lookup_delete in Hx.
           case_decide as Hd; [done|].
           rewrite lookup_insert_ne in Hx by done.
           assert (Hin : k0 ∈ @nil jsstring) by (apply Hdom; by rewrite Hx).
           by apply elem_of_nil in Hin.
        -- by rewrite Hsz.
      * clear IHl. rewrite (set_fresh_full k v c l y) by done.
        apply NoDup_app in Hnd as (Hnd1 & Hnd2 & _).
        rewrite not_elem_of_app in Hk. destruct Hk as [Hk1 Hk2].
        assert (Hky : k <> y) by (intros ->; apply Hk2; by left).
        repeat split; simpl.
        -- by apply NoDup_cons.
        -- intros Hx. rewrite lookup_delete. case_decide as Hd.
           ++ subst. apply elem_of_cons in Hx as [?|Hx]; [congruence|].
              exfalso. apply (Hnd2 _ Hx). by left.
           ++ rewrite lookup_insert. case_decide; [done|].
              apply Hdom. apply elem_of_app. left.
              apply elem_of_cons in Hx as [?|?]; [congruence|done].
        -- intros [w Hx]. rewrite lookup_delete in Hx.
           case_decide as Hd; [done|].
           rewrite lookup_insert in Hx. case_decide as Hd'.
           ++ subst. by left.
           ++ right. assert (Hin : k0 ∈ l ++ [y]) by (apply Hdom; by rewrite Hx).
              apply elem_of_app in Hin as [?|Hin]; [done|].
              apply list_elem_of_singleton in Hin. congruence.
        -- rewrite Hsz, length_app. simpl. lia.
Qed.

Lemma capacity_set k v c : capacity (set k v c) = capacity c.
Proof.
  unfold set. destruct (cache c !! k); [done|].
  destruct (capacity c <? S (size c)); [|done].
  by destruct (removeTail (addToHead k (order c))) as [[? ?]|].
Qed.

Lemma capacity_get k c : capacity (get k c).2 = capacity c.
Proof. unfold get. by destruct (cache c !! k). Qed.


Lemma wf_fresh k c : wf c -> k ∉ order c -> cache c !! k = None.
Proof.
  intros (_ & Hdom & _) Hk. apply eq_None_not_Some. intros H. by apply Hdom in H.
Qed.






End LRUFacts.

(** ** The word cache during a check *)

Section WordCache.
Import JsString WordRegex LRU Worker Spec.

Lemma set_lookup_Some {V} (k x : jsstring) (v y : V) (c : LRUCache V) :
  cache (set k v c) !! x = Some y ->
  (x = k /\ y = v) \/ cache c !! x = Some y.
Proof.
  assert (Hins : forall m : gmap jsstring V,
            <[k := v]> m !! x = Some y -> (x = k /\ y = v) \/ m !! x = Some y).
  { intros m. rewrite lookup_insert. case_decide; [|by right].
    intros [= <-]. left. by split. }
  unfold set. destruct (cache c !! k) eqn:E; simpl; [apply Hins|].
  destruct (capacity c <? S (size c)); [|apply Hins].
  destruct (removeTail (addToHead k (order c))) as [[k' o]|]; simpl; [|apply Hins].
  rewrite lookup_delete. case_decide; [done|apply Hins].
Qed.

Lemma verdict_sameSetting (st st' : Engine) (w : jsstring) :
  sameSetting st st' -> verdict st' w = verdict st w.
Proof. intros (Hd & Hc & _). unfold verdict. by rewrite Hd, Hc. Qed.

Lemma isValid_value (w : jsstring) (st : Engine) :
  (isValid w st).1 = verdict st w.
Proof.
  unfold isValid, verdict. case_bool_decide; [done|].
  by destruct (dictionary st).
Qed.

Lemma checkWord_consistent (w : jsstring) (st : Engine) :
  consistent st ->
  (checkWord w st).1 = negb (verdict st w) /\ consistent (checkWord w st).2.
Proof.
  intros Hc. pose proof (checkWord_frame w st) as [Hs _].
  assert (Hgoal : (checkWord w st).1 = negb (verdict st w)
            /\ forall x y, cache (checkedCache (checkWord w st).2) !! x = Some y ->
                           y = verdict st x).
  { clear Hs. unfold checkWord. destruct (has w (checkedCache st)) eqn:Hh.
    - apply has_true in Hh as [v Hv].
      rewrite (get_hit _ _ _ Hv). rewrite (Hc _ _ Hv). simpl.
      destruct (verdict st w); simpl; split; try done; apply Hc.
    - pose proof (isValid_value w st) as Hval.
      pose proof (isValid_frame w st) as (_ & Hcc & _).
      destruct (isValid w st) as [valid st1]. simpl in *. subst valid.
      assert (Hset : forall x y,
                cache (set w (verdict st w) (checkedCache st1)) !! x = Some y ->
                y = verdict st x).
      { intros x y Hx. apply set_lookup_Some in Hx as [[-> ->]|Hx]; [done|].
        rewrite Hcc in Hx. by apply Hc. }
      destruct (verdict st w); simpl; split; try done; apply Hset. }
  destruct Hgoal as [H1 H2]. split; [done|].
  intros x y Hx. rewrite (verdict_sameSetting _ _ _ Hs). by apply H2.
Qed.

Lemma invalidMatches_cons (st : Engine) (m : RegExpMatch) (ms : list RegExpMatch) :
  invalidMatches st (m :: ms)
  = if verdict st (toLowerCase (matched m)) then invalidMatches st ms
    else m :: invalidMatches st ms.
Proof.
  unfold invalidMatches. rewrite filter_cons.
  destruct (verdict st (toLowerCase (matched m))).
  - by rewrite decide_False.
  - by rewrite decide_True.
Qed.

Lemma processMatches_consistent (ms : list RegExpMatch) (st : Engine) :
  consistent st ->
  (processMatches ms st).1
    = map (fun m => resultOfMatch m None) (invalidMatches st ms)
  /\ consistent (processMatches ms st).2.
Proof.
  revert st. induction ms as [|m ms IH]; intros st Hc; simpl; [done|].
  pose proof (checkWord_consistent (toLowerCase (matched m)) st Hc) as [Hv Hc1].
  pose proof (checkWord_frame (toLowerCase (matched m)) st) as [Hs _].
  destruct (checkWord (toLowerCase (matched m)) st) as [invalid st1].
  simpl in *. specialize (IH st1 Hc1).
  destruct (processMatches ms st1) as [rest st2]. simpl in *.
  destruct IH as [Hrest Hc2]. split; [|done].
  assert (Hsame : invalidMatches st1 ms = invalidMatches st ms).
  { unfold invalidMatches. apply list_filter_iff. intros x.
    by rewrite (verdict_sameSetting _ _ _ Hs). }
  rewrite Hrest, Hsame, invalidMatches_cons. subst invalid.
  by destruct (verdict st (toLowerCase (matched m))).
Qed.

Lemma processRegionMatches_consistent (off : Z) (ms : list RegExpMatch)
    (st : Engine) :
  consistent st ->
  let scan := (processRegionMatches off ms st).1 in
  regionWords scan = map matched ms
  /\ regionResults scan
     = map (fun m => resultOfMatch m (Some false)) (invalidMatches st ms)
  /\ pushed scan = map (shiftResult off) (regionResults scan)
  /\ consistent (processRegionMatches off ms st).2.
Proof.
  revert st. induction ms as [|m ms IH]; intros st Hc; simpl; [done|].
  pose proof (checkWord_consistent (toLowerCase (matched m)) st Hc) as [Hv Hc1].
  pose proof (checkWord_frame (toLowerCase (matched m)) st) as [Hs _].
  destruct (checkWord (toLowerCase (matched m)) st) as [invalid st1].
  simpl in *. specialize (IH st1 Hc1).
  destruct (processRegionMatches off ms st1) as [rest st2]. simpl in *.
  destruct IH as (Hw & Hr & Hp & Hc2).
  assert (Hsame : invalidMatches st1 ms = invalidMatches st ms).
  { unfold invalidMatches. apply list_filter_iff. intros x.
    by rewrite (verdict_sameSetting _ _ _ Hs). }
  rewrite Hw, Hp, Hr, Hsame, invalidMatches_cons. subst invalid.
  by destruct (verdict st (toLowerCase (matched m))).
Qed.

Lemma checkWord_wf (w : jsstring) (st : Engine) :
  wf (checkedCache st) -> wf (checkedCache (checkWord w st).2).
Proof.
  intros Hwf. unfold checkWord. destruct (has w (checkedCache st)).
  - pose proof (wf_get w _ Hwf) as Hg.
    destruct (get w (checkedCache st)) as [v c]. simpl in Hg.
    by destruct (negb (truthy v)).
  - pose proof (isValid_frame w st) as (_ & Hcc & _).
    destruct (isValid w st) as [valid st1]. simpl in *.
    assert (wf (set w valid (checkedCache st1))) by (apply wf_set; by rewrite Hcc).
    by destruct (negb valid).
Qed.

Lemma processMatches_wf (ms : list RegExpMatch) (st : Engine) :
  wf (checkedCache st) -> wf (checkedCache (processMatches ms st).2).
Proof.
  revert st. induction ms as [|m ms IH]; intros st Hwf; simpl; [done|].
  pose proof (checkWord_wf (toLowerCase (matched m)) st Hwf) as H1.
  destruct (checkWord (toLowerCase (matched m)) st) as [invalid st1].
  specialize (IH st1 H1). by destruct (processMatches ms st1) as [rest st2].
Qed.

Lemma processRegionMatches_wf (off : Z) (ms : list RegExpMatch) (st : Engine) :
  wf (checkedCache st) -> wf (checkedCache (processRegionMatches off ms st).2).
Proof.
  revert st. induction ms as [|m ms IH]; intros st Hwf; simpl; [done|].
  pose proof (checkWord_wf (toLowerCase (matched m)) st Hwf) as H1.
  destruct (checkWord (toLowerCase (matched m)) st) as [invalid st1].
  specialize (IH st1 H1).
  by destruct (processRegionMatches off ms st1) as [rest st2].
Qed.

End WordCache.

(** ** Checks before the dictionary is initialised *)

Section Uninitialised.
Import JsString WordRegex LRU Worker Spec.

Lemma verdict_uninit (st : Engine) (w : jsstring) :
  dictionary st = None -> verdict st w = true.
Proof. intros H. unfold verdict. rewrite H. apply orb_true_r. Qed.

Lemma invalidMatches_uninit (st : Engine) (ms : list RegExpMatch) :
  dictionary st = None -> invalidMatches st ms = [].
Proof.
  intros H. induction ms as [|m ms IH]; [done|].
  by rewrite invalidMatches_cons, verdict_uninit.
Qed.

Lemma consistent_withRegionCache (rc : LRUCache RegionEntry) (st : Engine) :
  consistent st -> consistent (withRegionCache rc st).
Proof. intros H. exact H. Qed.

Lemma consistent_empty (st : Engine) :
  cache (checkedCache st) = ∅ -> consistent st.
Proof. intros H w v Hw. by rewrite H, lookup_empty in Hw. Qed.

Lemma scanRegion_uninit (region : Utils.IncrementalCheckRegion) (st : Engine) :
  dictionary st = None -> consistent st -> noResults st ->
  (scanRegion region st).1 = []
  /\ dictionary (scanRegion region st).2 = None
  /\ consistent (scanRegion region st).2
  /\ noResults (scanRegion region st).2.
Proof.
  intros Hd Hc Hn. unfold scanRegion.
  destruct (processRegionMatches_consistent (Utils.start region)
              (execAll (Utils.text region)) st Hc) as (_ & Hr & Hp & Hc2).
  destruct (processRegionMatches_frame (Utils.start region)
              (execAll (Utils.text region)) st) as [(Hd2 & _) Hrc].
  destruct (processRegionMatches _ _ st) as [scan st2]. simpl in *.
  rewrite invalidMatches_uninit in Hr by done. simpl in Hr.
  rewrite Hr in Hp. simpl in Hp.
  split; [done|]. split; [by rewrite Hd2|]. split; [done|].
  intros k e Hk. simpl in Hk.
  apply set_lookup_Some in Hk as [[_ ->]|Hk]; [done|].
  rewrite Hrc in Hk. by apply (Hn k e).
Qed.

Lemma processRegion_uninit (region : Utils.IncrementalCheckRegion) (st : Engine) :
  dictionary st = None -> consistent st -> noResults st ->
  (processRegion region st).1 = []
  /\ dictionary (processRegion region st).2 = None
  /\ consistent (processRegion region st).2
  /\ noResults (processRegion region st).2.
Proof.
  intros Hd Hc Hn. unfold processRegion.
  pose proof (get_value (regionKey region) (regionCache st)) as Hgv.
  pose proof (get_cache (regionKey region) (regionCache st)) as Hgc.
  destruct (get (regionKey region) (regionCache st)) as [cached rc].
  simpl in Hgv, Hgc.
  assert (Hn1 : noResults (withRegionCache rc st)).
  { intros k e Hk. simpl in Hk. rewrite Hgc in Hk. by apply (Hn k e). }
  pose proof (scanRegion_uninit region (withRegionCache rc st) Hd Hc Hn1) as Hscan.
  destruct cached as [entry|]; [|exact Hscan].
  destruct (cacheEntryMatches entry (Utils.text region)); [|exact Hscan].
  simpl. split; [|done].
  rewrite (Hn (regionKey region) entry) by done. done.
Qed.

Lemma processRegions_uninit (regions : list Utils.IncrementalCheckRegion)
    (st : Engine) :
  dictionary st = None -> consistent st -> noResults st ->
  (processRegions regions st).1 = [].
Proof.
  revert st. induction regions as [|region regions IH]; intros st Hd Hc Hn;
    simpl; [done|].
  destruct (processRegion_uninit region st Hd Hc Hn) as (Hr & Hd1 & Hc1 & Hn1).
  destruct (processRegion region st) as [rs st1]. simpl in *.
  specialize (IH st1 Hd1 Hc1 Hn1).
  destruct (processRegions regions st1) as [rest st2]. simpl in *.
  by rewrite Hr, IH.
Qed.

(** C5.  While no dictionary is installed, a full check and an
    incremental check that start from an empty word cache and an empty
    region cache report nothing, whatever the text, the regions and the
    custom words. *)
Theorem uninitialized_reports_nothing (st : Engine) (fullText : jsstring)
    (regions : list Utils.IncrementalCheckRegion) :
  dictionary st = None ->
  cache (checkedCache st) = ∅ ->
  cache (regionCache st) = ∅ ->
  (processText fullText st).1 = []
  /\ (processIncrementalText fullText regions st).1 = [].
Proof.
  intros Hd Hw Hr. pose proof (consistent_empty st Hw) as Hc. split.
  - unfold processText.
    rewrite (proj1 (processMatches_consistent _ st Hc)).
    by rewrite invalidMatches_uninit.
  - unfold processIncrementalText. apply processRegions_uninit; try done.
    intros k e Hk. simpl in Hk. by rewrite Hr, lookup_empty in Hk.
Qed.

Lemma uninitialized_reports_nothing_witness :
  (processText (str "helo wrold") initialEngine).1 = []
  /\ (processIncrementalText (str "helo wrold")
        [Utils.mkRegion 0 10 (str "helo wrold")] initialEngine).1 = [].
Proof.
  exact (uninitialized_reports_nothing initialEngine (str "helo wrold")
           [Utils.mkRegion 0 10 (str "helo wrold")] eq_refl eq_refl eq_refl).
Defined.

End Uninitialised.

(** ** Recency: the keys a pass has touched stay in the cache *)

Section Recency.
Import LRU Spec.
Context {V : Type}.
Implicit Types (c : LRUCache V) (k : jsstring) (D : gset jsstring).






End Recency.

(** ** Two full checks in a row *)

Section Idempotence.
Import JsString WordRegex LRU Worker Spec.

Lemma processRegionMatches_state (off : Z) (ms : list RegExpMatch) (st : Engine) :
  (processRegionMatches off ms st).2 = (processMatches ms st).2.
Proof.
  revert st. induction ms as [|m ms IH]; intros st; simpl; [done|].
  destruct (checkWord (toLowerCase (matched m)) st) as [invalid st1].
  specialize (IH st1).
  destruct (processRegionMatches off ms st1) as [rest st2].
  by destruct (processMatches ms st1) as [rest' st2'].
Qed.

Lemma checkWord_capacity (w : jsstring) (st : Engine) :
  capacity (checkedCache (checkWord w st).2) = capacity (checkedCache st).
Proof.
  unfold checkWord. destruct (has w (checkedCache st)).
  - pose proof (capacity_get w (checkedCache st)) as Hg.
    destruct (get w (checkedCache st)) as [v c]. simpl in Hg.
    by destruct (negb (truthy v)).
  - pose proof (isValid_frame w st) as (_ & Hcc & _).
    destruct (isValid w st) as [valid st1]. simpl in *.
    destruct (negb valid); simpl; by rewrite capacity_set, Hcc.
Qed.

Lemma processMatches_capacity (ms : list RegExpMatch) (st : Engine) :
  capacity (checkedCache (processMatches ms st).2) = capacity (checkedCache st).
Proof.
  revert st. induction ms as [|m ms IH]; intros st; simpl; [done|].
  pose proof (checkWord_capacity (toLowerCase (matched m)) st) as H1.
  destruct (checkWord (toLowerCase (matched m)) st) as [invalid st1].
  specialize (IH st1). destruct (processMatches ms st1) as [rest st2].
  simpl in *. congruence.
Qed.





Lemma processMatches_cacheInv (ms : list RegExpMatch) (st : Engine) :
  cacheInv st -> cacheInv (processMatches ms st).2.
Proof.
  intros (Hwf & Hc & Hcap). split; [by apply processMatches_wf|].
  split; [by apply processMatches_consistent|].
  by rewrite processMatches_capacity.
Qed.

Lemma cacheInv_withRegionCache (rc : LRUCache RegionEntry) (st : Engine) :
  cacheInv st -> cacheInv (withRegionCache rc st).
Proof. intros H. exact H. Qed.

Lemma scanRegion_cacheInv (region : Utils.IncrementalCheckRegion) (st : Engine) :
  cacheInv st -> cacheInv (scanRegion region st).2.
Proof.
  intros Hinv. unfold scanRegion.
  pose proof (processMatches_cacheInv (execAll (Utils.text region)) st Hinv)
    as Hscan.
  rewrite <- (processRegionMatches_state (Utils.start region)) in Hscan.
  by destruct (processRegionMatches _ _ _) as [scan st2].
Qed.

Lemma processRegion_cacheInv (region : Utils.IncrementalCheckRegion) (st : Engine) :
  cacheInv st -> cacheInv (processRegion region st).2.
Proof.
  intros Hinv. unfold processRegion.
  destruct (get (regionKey region) (regionCache st)) as [cached rc].
  pose proof (scanRegion_cacheInv region (withRegionCache rc st) Hinv) as Hscan.
  destruct cached as [entry|]; [|exact Hscan].
  destruct (cacheEntryMatches entry (Utils.text region)); [exact Hinv|exact Hscan].
Qed.

Lemma processRegions_cacheInv (regions : list Utils.IncrementalCheckRegion)
    (st : Engine) :
  cacheInv st -> cacheInv (processRegions regions st).2.
Proof.
  revert st. induction regions as [|region regions IH]; intros st Hinv;
    simpl; [done|].
  pose proof (processRegion_cacheInv region st Hinv) as H1.
  destruct (processRegion region st) as [rs st1].
  specialize (IH st1 H1). by destruct (processRegions regions st1) as [rest st2].
Qed.

Lemma cacheInv_cleared (st : Engine) :
  capacity (checkedCache st) = 5000 -> cacheInv (clearCaches st).
Proof.
  intros Hcap. split; [apply wf_clear|]. split; [|exact Hcap].
  by apply consistent_empty.
Qed.

Lemma recheckLastText_cacheInv (st : Engine) :
  cacheInv st -> cacheInv (recheckLastText st).
Proof.
  intros Hinv. unfold recheckLastText. case_bool_decide; [done|].
  pose proof (processMatches_cacheInv (execAll (lastFullText st)) st Hinv) as Hp.
  unfold processText. by destruct (processMatches _ st) as [invalidWords st1].
Qed.

Lemma onmessage_cacheInv (msg : Request) (st : Engine) :
  cacheInv st -> cacheInv (onmessage msg st).
Proof.
  intros Hinv. pose proof Hinv as (_ & _ & Hcap).
  destruct msg; simpl; try exact Hinv.
  - by apply (cacheInv_cleared (withDictionary (Some dict) st)).
  - apply (recheckLastText_cacheInv
             (withCurrentCheckCache ∅
                (clearCaches (withCustomWords _ st)))).
    by apply (cacheInv_cleared (withCustomWords _ st)).
  - apply (recheckLastText_cacheInv
             (withCurrentCheckCache ∅
                (clearCaches (withCustomWords _ st)))).
    by apply (cacheInv_cleared (withCustomWords _ st)).
  - by apply (cacheInv_cleared (withCustomWords ∅ st)).
  - pose proof (processMatches_cacheInv (execAll fullText) st Hinv) as H.
    unfold processText. by destruct (processMatches _ st) as [invalidWords st1].
  - pose proof (processRegions_cacheInv regions
                  (withCurrentCheckCache ∅ st) Hinv) as H.
    unfold processIncrementalText.
    by destruct (processRegions regions _) as [invalidWords st1].
Qed.

Lemma reachable_cacheInv (st : Engine) : reachable st -> cacheInv st.
Proof.
  induction 1 as [|msg st _ IH].
  - split; [apply wf_create|]. split; [by apply consistent_empty|done].
  - by apply onmessage_cacheInv.
Qed.



End Idempotence.

(** ** A text with more distinct words than the word cache holds *)

Section LongText.
Import JsString WordRegex LRU Worker Spec.






Lemma execFrom_skip (a b : jsstring) (prev : option ascii) (pos : nat) :
  execFrom (length a) prev pos (a ++ b)
  = execFrom 0 (lastOr prev a) (pos + length a) b.
Proof.
  unfold lastOr. revert prev pos.
  induction a as [|c a IH]; intros prev pos; simpl.
  - by rewrite Nat.add_0_r.
  - rewrite IH. rewrite Nat.add_succ_r. simpl. f_equal.
    destruct a as [|c' a]; [done|].
    change (last (c :: c' :: a)) with (last (c' :: a)).
    destruct (last (c' :: a)) eqn:El; [done|]. by apply last_None in El.
Qed.















Lemma manyWords_S (n : nat) :
  manyWords (S n)
  = wordOf 1 :: map (fun i => wordOf (Pos.of_nat i)) (seq 2 n).
Proof. reflexivity. Qed.




End LongText.

(** ** The edit-distance matrix *)

Section EditDistance.
Import JsString Worker Spec.

Lemma levenshtein_nil_r (s : jsstring) : levenshtein s [] = length s.
Proof. by destruct s. Qed.

Lemma levenshtein_cons (a b : ascii) (s t : jsstring) :
  levenshtein (a :: s) (b :: t)
  = if bool_decide (a = b) then levenshtein s t
    else S (Nat.min (levenshtein s (b :: t))
                    (Nat.min (levenshtein (a :: s) t) (levenshtein s t))).
Proof. reflexivity. Qed.

(** The distance is at least the difference of the lengths. *)
Lemma levenshtein_length (s t : jsstring) :
  length s - length t <= levenshtein s t
  /\ length t - length s <= levenshtein s t.
Proof.
  revert t. induction s as [|a s IHs]; intros t.
  - simpl. lia.
  - induction t as [|b t IHt].
    + rewrite levenshtein_nil_r. simpl. lia.
    + rewrite levenshtein_cons.
      pose proof (IHs t) as H1. pose proof (IHs (b :: t)) as H2.
      simpl length in *. case_bool_decide; lia.
Qed.

Section Matrix.
Variables str1 str2 : jsstring.

Let cell := prefixDistance str1 str2.

Lemma cell_row0 (j : nat) : j <= length str2 -> cell 0 j = j.
Proof.
  intros Hj. unfold cell, prefixDistance. simpl.
  rewrite length_rev, length_take. lia.
Qed.

Lemma cell_col0 (i : nat) : i <= length str1 -> cell i 0 = i.
Proof.
  intros Hi. unfold cell, prefixDistance. simpl.
  rewrite levenshtein_nil_r, length_rev, length_take. lia.
Qed.

Lemma cell_step (i j : nat) (c1 c2 : ascii) :
  str1 !! i = Some c1 -> str2 !! j = Some c2 ->
  cell (S i) (S j)
  = if bool_decide (c1 = c2) then cell i j
    else Nat.min (cell i (S j) + 1) (Nat.min (cell (S i) j + 1) (cell i j + 1)).
Proof.
  intros H1 H2. unfold cell, prefixDistance.
  rewrite (take_S_r str1 i c1 H1), (take_S_r str2 j c2 H2).
  rewrite !rev_unit, levenshtein_cons.
  rewrite <- !rev_unit, <- (take_S_r str1 i c1 H1), <- (take_S_r str2 j c2 H2).
  case_bool_decide; lia.
Qed.

(** The inner loop fills the rest of row [i+1] from column [j+1] on. *)
Lemma fillRow_cells (i : nat) (c1 : ascii) (t1 t2 : jsstring) :
  str1 !! i = Some c1 -> str2 = t1 ++ t2 ->
  fillRow c1 t2
    (map (cell i) (seq (length t1) (S (length t2))))
    (cell (S i) (length t1))
  = map (cell (S i)) (seq (S (length t1)) (length t2)).
Proof.
  intros Hc. revert t1. induction t2 as [|c2 t2 IH]; intros t1 Ht; [done|].
  cbn [length seq map fillRow].
  assert (Hj : str2 !! length t1 = Some c2).
  { rewrite Ht. by apply list_lookup_middle. }
  rewrite <- (cell_step i (length t1) c1 c2 Hc Hj).
  f_equal. specialize (IH (t1 ++ [c2])).
  rewrite length_app, Nat.add_1_r in IH. cbn [seq map] in IH.
  apply IH. by rewrite <- app_assoc.
Qed.

Lemma nextRow_cells (i : nat) (c1 : ascii) :
  str1 !! i = Some c1 ->
  nextRow (S i) c1 str2 (map (cell i) (seq 0 (S (length str2))))
  = map (cell (S i)) (seq 0 (S (length str2))).
Proof.
  intros Hc. unfold nextRow. cbn [seq map]. f_equal.
  - symmetry. apply cell_col0. apply lookup_lt_Some in Hc. lia.
  - pose proof (fillRow_cells i c1 [] str2 Hc eq_refl) as H.
    cbn [length seq map] in H.
    rewrite <- (cell_col0 (S i)) at 1 by (apply lookup_lt_Some in Hc; lia).
    exact H.
Qed.

Lemma fillRows_last (s1 s2 : jsstring) :
  str1 = s1 ++ s2 ->
  last (map (cell (length s1)) (seq 0 (S (length str2)))
          :: fillRows s2 (S (length s1)) str2
               (map (cell (length s1)) (seq 0 (S (length str2)))))
  = Some (map (cell (length str1)) (seq 0 (S (length str2)))).
Proof.
  revert s1. induction s2 as [|c s2 IH]; intros s1 Hs.
  - rewrite Hs, app_nil_r. done.
  - cbn [fillRows]. rewrite last_cons_cons.
    rewrite nextRow_cells by (rewrite Hs; by apply list_lookup_middle).
    specialize (IH (s1 ++ [c])). rewrite length_app, Nat.add_1_r in IH.
    apply IH. by rewrite <- app_assoc.
Qed.

(** The value returned is the cell for the two whole strings. *)
Lemma calculateEditDistance_cell :
  calculateEditDistance str1 str2 = cell (length str1) (length str2).
Proof.
  unfold calculateEditDistance, editMatrix, firstRow.
  assert (Hrow0 : seq 0 (S (length str2))
                  = map (cell 0) (seq 0 (S (length str2)))).
  { apply list_eq. intros j. rewrite list_lookup_fmap.
    destruct (seq 0 (S (length str2)) !! j) as [x|] eqn:E; [|done].
    apply lookup_seq in E as [-> Hlt]. simpl. f_equal.
    symmetry. apply cell_row0. lia. }
  rewrite Hrow0. pose proof (fillRows_last [] str1 eq_refl) as Hlast.
  cbn [length] in Hlast. rewrite Hlast.
  rewrite seq_S, map_app. cbn [map]. rewrite last_snoc. done.
Qed.

End Matrix.

(** [calculateEditDistance] computes the Levenshtein distance, the
    recurrence being run from the ends of the strings. *)
Lemma calculateEditDistance_levenshtein (str1 str2 : jsstring) :
  calculateEditDistance str1 str2 = levenshtein (rev str1) (rev str2).
Proof.
  rewrite calculateEditDistance_cell. unfold prefixDistance.
  by rewrite !firstn_all.
Qed.

Lemma calculateEditDistance_length (str1 str2 : jsstring) :
  (Z.abs (Z.of_nat (length str2) - Z.of_nat (length str1))
   <= Z.of_nat (calculateEditDistance str1 str2))%Z.
Proof.
  rewrite calculateEditDistance_levenshtein.
  pose proof (levenshtein_length (rev str1) (rev str2)) as [H1 H2].
  rewrite !length_rev in H1, H2. lia.
Qed.

End EditDistance.

(** ** Suggestions *)

Section Suggestions.
Import JsString WordRegex LRU Worker Spec.

Lemma toLowerChar_idempotent (c : ascii) :
  toLowerChar (toLowerChar c) = toLowerChar c.
Proof. destruct c as [[] [] [] [] [] [] [] []]; reflexivity. Qed.

Lemma toLowerCase_idempotent (s : jsstring) :
  toLowerCase (toLowerCase s) = toLowerCase s.
Proof.
  unfold toLowerCase. rewrite map_map. apply map_ext.
  apply toLowerChar_idempotent.
Qed.

Lemma scanRegion_sameSetting (region : Utils.IncrementalCheckRegion)
    (st : Engine) :
  sameSetting st (scanRegion region st).2.
Proof.
  unfold scanRegion.
  pose proof (processRegionMatches_frame (Utils.start region)
                (execAll (Utils.text region)) st) as [Hs _].
  destruct (processRegionMatches _ _ _) as [scan st2]. exact Hs.
Qed.

Lemma processRegion_sameSetting (region : Utils.IncrementalCheckRegion)
    (st : Engine) :
  sameSetting st (processRegion region st).2.
Proof.
  unfold processRegion.
  destruct (get (regionKey region) (regionCache st)) as [cached rc].
  pose proof (scanRegion_sameSetting region (withRegionCache rc st)) as Hs.
  destruct cached as [entry|]; [|exact Hs].
  destruct (cacheEntryMatches entry (Utils.text region));
    [exact (sameSetting_refl st)|exact Hs].
Qed.

Lemma processRegions_sameSetting (regions : list Utils.IncrementalCheckRegion)
    (st : Engine) :
  sameSetting st (processRegions regions st).2.
Proof.
  revert st. induction regions as [|region regions IH]; intros st; simpl.
  - apply sameSetting_refl.
  - pose proof (processRegion_sameSetting region st) as H1.
    destruct (processRegion region st) as [rs st1].
    specialize (IH st1). destruct (processRegions regions st1) as [rest st2].
    simpl in *. eapply sameSetting_trans; eassumption.
Qed.

Lemma recheckLastText_customWords (st : Engine) :
  customWords (recheckLastText st) = customWords st.
Proof.
  unfold recheckLastText. case_bool_decide; [done|].
  pose proof (processMatches_frame (execAll (lastFullText st)) st)
    as [(_ & Hc & _) _].
  unfold processText. by destruct (processMatches _ st) as [invalidWords st1].
Qed.

Lemma onmessage_lowerCased (msg : Request) (st : Engine) :
  lowerCased st -> lowerCased (onmessage msg st).
Proof.
  intros Hl. destruct msg; simpl; try exact Hl.
  - intros w. cbn [customWords postMessage].
    rewrite recheckLastText_customWords. simpl.
    rewrite elem_of_union, elem_of_singleton.
    intros [->|Hw]; [apply toLowerCase_idempotent|by apply Hl].
  - intros w. cbn [customWords postMessage].
    rewrite recheckLastText_customWords. simpl.
    rewrite elem_of_difference. intros [Hw _]. by apply Hl.
  - intros w Hw. by apply not_elem_of_empty in Hw.
  - pose proof (processMatches_frame (execAll fullText) st) as [(_ & Hc & _) _].
    unfold processText. destruct (processMatches _ st) as [invalidWords st1].
    simpl in *. intros w. cbn [customWords postMessage withLastFullText].
    rewrite Hc. apply Hl.
  - pose proof (processRegions_sameSetting regions (withCurrentCheckCache ∅ st))
      as (_ & Hc & _).
    unfold processIncrementalText.
    destruct (processRegions regions _) as [invalidWords st1].
    simpl in *. intros w. cbn [customWords postMessage withLastFullText].
    rewrite Hc. apply Hl.
Qed.

Lemma reachable_lowerCased (st : Engine) : reachable st -> lowerCased st.
Proof.
  induction 1 as [|msg st _ IH].
  - intros w Hw. by apply not_elem_of_empty in Hw.
  - by apply onmessage_lowerCased.
Qed.

(** The test on the distance in the loop is the test of [closeEnough],
    and the test on the lengths before it never rejects a candidate
    that is close enough. *)
Lemma distance_test (word candidate : jsstring) :
  (calculateEditDistance word candidate <=? 2)
  && (0 <? calculateEditDistance word candidate) = true
  <-> closeEnough word candidate.
Proof.
  unfold closeEnough, editDistance. rewrite <- calculateEditDistance_levenshtein.
  rewrite andb_true_iff, Nat.leb_le, Nat.ltb_lt. lia.
Qed.

Lemma length_test (word candidate : jsstring) :
  closeEnough word candidate ->
  (Z.abs (Z.of_nat (length candidate) - Z.of_nat (length word)) <=? 2)%Z = true.
Proof.
  unfold closeEnough, editDistance. rewrite <- calculateEditDistance_levenshtein.
  intros H. pose proof (calculateEditDistance_length word candidate).
  apply Z.leb_le. lia.
Qed.

(** The loop appends the close candidates in order until the result
    holds [maxSuggestions] of them. *)
Lemma suggestLoop_spec (word : jsstring) (maxSuggestions : nat)
    (candidates suggestions : list jsstring) :
  length suggestions < maxSuggestions ->
  suggestLoop word maxSuggestions candidates suggestions
  = suggestions
      ++ take (maxSuggestions - length suggestions)
           (filter (closeEnough word) candidates).
Proof.
  revert suggestions.
  induction candidates as [|candidate rest IH]; intros suggestions Hlt.
  - simpl. by rewrite filter_nil, take_nil, app_nil_r.
  - cbn [suggestLoop]. rewrite filter_cons.
    destruct (decide (closeEnough word candidate)) as [Hc|Hn].
    + rewrite (length_test _ _ Hc), (proj2 (distance_test _ _) Hc).
      rewrite length_app. cbn [length].
      destruct (Nat.leb_spec maxSuggestions (length suggestions + 1)).
      * replace (maxSuggestions - length suggestions) with 1 by lia.
        simpl. by rewrite take_0.
      * rewrite IH by (rewrite length_app; simpl; lia).
        rewrite length_app. cbn [length]. rewrite <- app_assoc.
        replace (maxSuggestions - length suggestions)
          with (S (maxSuggestions - (length suggestions + 1))) by lia.
        done.
    + destruct ((calculateEditDistance word candidate <=? 2)
                && (0 <? calculateEditDistance word candidate)) eqn:E.
      * exfalso. apply Hn. by apply distance_test.
      * destruct (_ <=? 2)%Z; by apply IH.
Qed.

Lemma getSimpleSuggestions_spec (word : jsstring) (maxSuggestions : nat) :
  1 <= maxSuggestions ->
  getSimpleSuggestions word maxSuggestions
  = take maxSuggestions (filter (closeEnough word) commonWords).
Proof.
  intros H. unfold getSimpleSuggestions.
  rewrite suggestLoop_spec by (simpl; lia). simpl. by rewrite Nat.sub_0_r.
Qed.

(** C9.  In any state of the worker.  For a limit
    [maxSuggestions >= 1] (the worker always passes 5): when the
    dictionary suggests nothing for a word, the result holds at most
    [maxSuggestions] words; each of them is a word of the reference
    list at Levenshtein distance 1 or 2 from the lower-cased word; and
    they are the first such words of the list, in its order.  They are
    all of the first [maxSuggestions] of them unless the word is empty
    or its lower-case form is a custom word.  And for any limit: for a
    word that is a custom word, or whose lower-case form is one, the
    result is empty. *)
Theorem getSuggestions_spec (st : Engine) (word : jsstring)
    (maxSuggestions : nat) :
  reachable st ->
  (1 <= maxSuggestions ->
   forall d, dictionary st = Some d -> suggest d word = [] ->
     let result := getSuggestions word maxSuggestions st in
     let close := filter (closeEnough (toLowerCase word)) commonWords in
     length result <= maxSuggestions
     /\ (forall s, s ∈ result ->
           s ∈ commonWords /\ 1 <= editDistance (toLowerCase word) s <= 2)
     /\ result `prefix_of` close
     /\ (word <> [] -> toLowerCase word ∉ customWords st ->
         result = take maxSuggestions close))
  /\ (word ∈ customWords st \/ toLowerCase word ∈ customWords st ->
      getSuggestions word maxSuggestions st = []).
Proof.
  intros Hreach. split.
  - intros Hmax d Hd Hs result close.
    assert (Hcases : result = []
                     \/ (word <> [] /\ (toLowerCase word ∉ customWords st)
                         /\ result = take maxSuggestions close)).
    { unfold result, getSuggestions. rewrite Hd, Hs.
      case_bool_decide as Hw; [by left|].
      case_bool_decide as Hc; [by left|].
      right. split; [done|]. split; [done|]. simpl.
      by apply getSimpleSuggestions_spec. }
    assert (Hpre : result `prefix_of` close).
    { destruct Hcases as [->|(_ & _ & ->)];
        [apply prefix_nil|apply prefix_take]. }
    split; [|split; [|split]].
    + destruct Hcases as [->|(_ & _ & ->)]; [simpl; lia|].
      rewrite length_take. lia.
    + intros s Hin.
      assert (Hclose : s ∈ close).
      { destruct Hpre as [rest ->]. rewrite elem_of_app. by left. }
      unfold close in Hclose. apply list_elem_of_filter in Hclose as [Hce Hcw].
      done.
    + exact Hpre.
    + intros Hw Hc. destruct Hcases as [Hnil|(_ & _ & ->)]; [|done].
      unfold result, getSuggestions in Hnil |- *. rewrite Hd, Hs in Hnil |- *.
      rewrite (bool_decide_eq_false_2 _ Hw), (bool_decide_eq_false_2 _ Hc).
      simpl. by apply getSimpleSuggestions_spec.
  - intros Hin.
    assert (Hlow : toLowerCase word ∈ customWords st).
    { destruct Hin as [Hin|Hin]; [|done].
      by rewrite (reachable_lowerCased st Hreach word Hin). }
    unfold getSuggestions. destruct (dictionary st); [|done].
    case_bool_decide; [done|]. by rewrite (bool_decide_eq_true_2 _ Hlow).
Qed.

Lemma getSuggestions_spec_witness :
  let st := onmessage (ADD_WORD (str "Helo"))
              (onmessage (INIT_DICTIONARY helloWorld) initialEngine) in
  getSuggestions (str "Teh") defaultMaxSuggestions st
    = take 5 (filter (closeEnough (str "teh")) commonWords)
  /\ length (getSuggestions (str "Teh") defaultMaxSuggestions st) <= 5
  /\ getSuggestions (str "helo") defaultMaxSuggestions st = [].
Proof.
  assert (Hreach : reachable
            (onmessage (ADD_WORD (str "Helo"))
               (onmessage (INIT_DICTIONARY helloWorld) initialEngine))).
  { apply reachable_step, reachable_step, reachable_init. }
  assert (Hmax : 1 <= defaultMaxSuggestions) by (vm_compute; lia).
  destruct (proj1 (getSuggestions_spec _ (str "Teh") defaultMaxSuggestions
                     Hreach) Hmax helloWorld eq_refl eq_refl)
    as (Hlen & _ & _ & Hall).
  split; [|split].
  - apply Hall.
    + discriminate.
    + vm_compute. discriminate.
  - exact Hlen.
  - apply (proj2 (getSuggestions_spec _ (str "helo") defaultMaxSuggestions
                   Hreach)).
    left. vm_compute. reflexivity.
Defined.

End Suggestions.

(** ** Use of the region cache *)

Section RegionCache.
Import JsString WordRegex LRU Worker Spec.












End RegionCache.

(** ** Scanning a slice of a text *)

Section SliceScan.
Import JsString WordRegex Spec.

Lemma lastOr_cons (prev : option ascii) (c : ascii) (a : jsstring) :
  lastOr prev (c :: a) = lastOr (Some c) a.
Proof.
  unfold lastOr. destruct a as [|c' a]; [done|].
  change (last (c :: c' :: a)) with (last (c' :: a)).
  destruct (last (c' :: a)) eqn:El; [done|]. by apply last_None in El.
Qed.

Lemma execFrom_bounds (s : jsstring) (skip : nat) (prev : option ascii)
    (pos : nat) (m : RegExpMatch) :
  m ∈ execFrom skip prev pos s ->
  pos + skip <= index m
  /\ 2 <= length (matched m)
  /\ index m + length (matched m) <= pos + length s.
Proof.
  revert skip prev pos. induction s as [|c s IH]; intros skip prev pos Hm.
  - by apply elem_of_nil in Hm.
  - cbn [execFrom] in Hm. simpl length.
    assert (Hrest : forall k, m ∈ execFrom k (Some c) (S pos) s ->
              S pos + k <= index m /\ 2 <= length (matched m)
              /\ index m + length (matched m) <= pos + S (length s)).
    { intros k Hk. destruct (IH _ _ _ Hk) as (? & ? & ?). lia. }
    destruct skip as [|skip].
    + destruct (matchAt prev (c :: s)) as [len|] eqn:Hmatch.
      * apply elem_of_cons in Hm as [->|Hm].
        -- apply matchAt_Some in Hmatch as (Hlen & _ & _).
           pose proof (classRun_le (c :: s)) as Hle.
           cbn [index matched]. rewrite length_take. cbn [length] in *. lia.
        -- destruct (Hrest _ Hm) as (? & ? & ?). lia.
      * destruct (Hrest _ Hm) as (? & ? & ?). lia.
    + destruct (Hrest _ Hm) as (? & ? & ?). lia.
Qed.

(** Only the word-ness of the character before the input matters, and
    the start position only shifts the indices. *)
Lemma execFrom_shift (s : jsstring) (skip : nat) (prev prev' : option ascii)
    (pos off : nat) :
  isWordCharAt prev = isWordCharAt prev' ->
  execFrom skip prev (pos + off) s
  = map (shiftMatch off) (execFrom skip prev' pos s).
Proof.
  revert skip prev prev' pos. induction s as [|c s IH];
    intros skip prev prev' pos Hp; [done|].
  cbn [execFrom].
  assert (Hm : matchAt prev (c :: s) = matchAt prev' (c :: s)).
  { unfold matchAt, wordBoundary. by rewrite Hp. }
  destruct skip as [|skip].
  - rewrite Hm. destruct (matchAt prev' (c :: s)) as [len|].
    + rewrite map_cons. f_equal. apply (IH _ (Some c) (Some c) (S pos) eq_refl).
    + apply (IH _ (Some c) (Some c) (S pos) eq_refl).
  - apply (IH _ (Some c) (Some c) (S pos) eq_refl).
Qed.

(** A position where a match starts is one the scan reaches afresh:
    what follows is the scan of the rest from there. *)
Lemma execFrom_split (a b : jsstring) (skip : nat) (prev : option ascii)
    (pos : nat) (m : RegExpMatch) :
  m ∈ execFrom skip prev pos (a ++ b) ->
  index m = pos + length a ->
  exists before,
    execFrom skip prev pos (a ++ b)
    = before ++ execFrom 0 (lastOr prev a) (pos + length a) b
    /\ forall x, x ∈ before -> index x < pos + length a.
Proof.
  revert skip prev pos. induction a as [|c a IH]; intros skip prev pos Hm Hi.
  - simpl in *. apply execFrom_bounds in Hm as (Hge & _).
    assert (skip = 0) as -> by lia.
    exists []. rewrite Nat.add_0_r. split; [done|].
    intros x Hx. by apply elem_of_nil in Hx.
  - rewrite lastOr_cons. simpl length in *.
    change ((c :: a) ++ b) with (c :: (a ++ b)) in *.
    cbn [execFrom] in *.
    assert (Hrest : forall k, m ∈ execFrom k (Some c) (S pos) (a ++ b) ->
              exists before,
                execFrom k (Some c) (S pos) (a ++ b)
                = before ++ execFrom 0 (lastOr (Some c) a) (pos + S (length a)) b
                /\ forall x, x ∈ before -> index x < pos + S (length a)).
    { intros k Hk. destruct (IH k (Some c) (S pos) Hk) as (before & He & Hb);
        [lia|].
      exists before. replace (pos + S (length a)) with (S pos + length a) by lia.
      split; [done|]. done. }
    destruct skip as [|skip]; [|by apply Hrest].
    destruct (matchAt prev (c :: a ++ b)) as [len|]; [|by apply Hrest].
    apply elem_of_cons in Hm as [->|Hm]; [cbn [index] in Hi; lia|].
    destruct (Hrest _ Hm) as (before & He & Hb).
    exists (mkMatch pos (take len (c :: a ++ b)) :: before).
    split; [by rewrite He|].
    intros x Hx. apply elem_of_cons in Hx as [->|Hx]; [cbn [index]; lia|].
    by apply Hb.
Qed.

(** [backtrack] finds the largest length with a boundary after it. *)
Lemma backtrack_largest (s : jsstring) (n k : nat) :
  backtrack s n = Some k ->
  forall j, k < j <= n -> wordBoundary (s !! (j - 1)) (s !! j) = false.
Proof.
  induction n as [|n IH]; [discriminate|]. cbn [backtrack].
  destruct ((2 <=? S n) && wordBoundary (s !! n) (s !! S n)) eqn:E.
  - intros [= <-] j Hj. lia.
  - intros Hk j Hj. destruct (decide (j = S n)) as [->|Hne].
    + apply andb_false_iff in E as [E|E].
      * apply Nat.leb_gt in E. apply backtrack_Some in Hk. lia.
      * by rewrite Nat.sub_succ, Nat.sub_0_r.
    + apply IH; [done|lia].
Qed.

Lemma backtrack_None (s : jsstring) (n : nat) :
  backtrack s n = None ->
  forall j, 2 <= j <= n -> wordBoundary (s !! (j - 1)) (s !! j) = false.
Proof.
  induction n as [|n IH]; [intros _ j Hj; lia|]. cbn [backtrack].
  destruct ((2 <=? S n) && wordBoundary (s !! n) (s !! S n)) eqn:E;
    [discriminate|].
  intros Hk j Hj. destruct (decide (j = S n)) as [->|Hne].
  - apply andb_false_iff in E as [E|E].
    + apply Nat.leb_gt in E. lia.
    + by rewrite Nat.sub_succ, Nat.sub_0_r.
  - apply IH; [done|lia].
Qed.

Lemma backtrack_intro (s : jsstring) (n k : nat) :
  2 <= k <= n ->
  wordBoundary (s !! (k - 1)) (s !! k) = true ->
  (forall j, k < j <= n -> wordBoundary (s !! (j - 1)) (s !! j) = false) ->
  backtrack s n = Some k.
Proof.
  intros Hk Hb Hlarge. induction n as [|n IH]; [lia|]. cbn [backtrack].
  destruct (decide (k = S n)) as [->|Hne].
  - rewrite Nat.sub_succ, Nat.sub_0_r in Hb. rewrite Hb.
    destruct (Nat.leb_spec 2 (S n)); [done|lia].
  - pose proof (Hlarge (S n)) as Hn. rewrite Nat.sub_succ, Nat.sub_0_r in Hn.
    rewrite Hn by lia. rewrite andb_false_r.
    apply IH; [lia|]. intros j Hj. apply Hlarge. lia.
Qed.

Lemma backtrack_None_intro (s : jsstring) (n : nat) :
  (forall j, 2 <= j <= n -> wordBoundary (s !! (j - 1)) (s !! j) = false) ->
  backtrack s n = None.
Proof.
  intros Hall. induction n as [|n IH]; [done|]. cbn [backtrack].
  destruct (Nat.leb_spec 2 (S n)) as [Hle|Hgt].
  - pose proof (Hall (S n)) as Hn. rewrite Nat.sub_succ, Nat.sub_0_r in Hn.
    rewrite Hn by lia. simpl. apply IH. intros j Hj. apply Hall. lia.
  - simpl. apply IH. intros j Hj. lia.
Qed.

Lemma classRun_app (a b : jsstring) :
  classRun a <= classRun (a ++ b)
  /\ (classRun a = length a \/ classRun a = classRun (a ++ b)).
Proof.
  induction a as [|c a IH]; simpl.
  - split; [lia|by left].
  - destruct (inClass c); [|split; [lia|by right]].
    destruct IH as [H1 [H2|H2]]; (split; [lia|]); [left|right]; lia.
Qed.

(** Cutting the text behind a word character that a non-word character
    (or nothing) follows changes no boundary up to the cut. *)
Lemma boundary_agree (mid post : jsstring) (j : nat) :
  isWordCharAt (last mid) = true -> isWordCharAt (head post) = false ->
  1 <= j <= length mid ->
  wordBoundary ((mid ++ post) !! (j - 1)) ((mid ++ post) !! j)
  = wordBoundary (mid !! (j - 1)) (mid !! j).
Proof.
  intros Ha Hb Hj. rewrite (lookup_app_l mid post (j - 1)) by lia.
  destruct (decide (j = length mid)) as [->|Hne].
  - rewrite lookup_app_r, Nat.sub_diag by lia.
    rewrite (lookup_ge_None_2 mid (length mid)) by lia.
    rewrite <- head_lookup. rewrite last_lookup in Ha.
    replace (length mid - 1) with (pred (length mid)) by lia.
    unfold wordBoundary. rewrite Ha, Hb. done.
  - by rewrite (lookup_app_l mid post j) by lia.
Qed.

(** What an attempt on the whole text finds within the slice, the
    attempt on the slice finds too. *)
Lemma matchAt_cut (mid post : jsstring) (prev : option ascii) :
  isWordCharAt (last mid) = true -> isWordCharAt (head post) = false ->
  match matchAt prev (mid ++ post) with
  | Some len => len <= length mid -> matchAt prev mid = Some len
  | None => matchAt prev mid = None
  end.
Proof.
  intros Ha Hb. destruct mid as [|c mid']; [discriminate Ha|].
  unfold matchAt. change (head ((c :: mid') ++ post)) with (head (c :: mid')).
  destruct (wordBoundary prev (head (c :: mid'))); [|done].
  set (mid := c :: mid') in *.
  destruct (classRun_app mid post) as [Hrun Hcases].
  pose proof (classRun_le mid) as Hrunle.
  destruct (backtrack (mid ++ post) (classRun (mid ++ post))) as [len|] eqn:E.
  - intros Hlen. pose proof (backtrack_Some _ _ _ E) as [Hk Hbk].
    apply backtrack_intro.
    + lia.
    + rewrite <- boundary_agree with (post := post) by (done || lia). exact Hbk.
    + intros j Hj. rewrite <- boundary_agree with (post := post) by (done || lia).
      apply (backtrack_largest _ _ _ E). lia.
  - apply backtrack_None_intro. intros j Hj.
    rewrite <- boundary_agree with (post := post) by (done || lia).
    apply (backtrack_None _ _ E). lia.
Qed.

(** At the end of a match behind which the text is cut as above, the
    scan of the text is the scan of the slice followed by the scan of
    the rest. *)
Lemma execFrom_cut (mid post : jsstring) (skip : nat) (prev : option ascii)
    (pos : nat) (m : RegExpMatch) :
  isWordCharAt (last mid) = true -> isWordCharAt (head post) = false ->
  m ∈ execFrom skip prev pos (mid ++ post) ->
  index m + length (matched m) = pos + length mid ->
  execFrom skip prev pos (mid ++ post)
  = execFrom skip prev pos mid
      ++ execFrom 0 (lastOr prev mid) (pos + length mid) post.
Proof.
  intros Ha Hb. revert skip prev pos.
  induction mid as [|c mid IH]; intros skip prev pos Hm Hend;
    [discriminate Ha|].
  rewrite lastOr_cons. simpl length in *.
  pose proof (matchAt_cut (c :: mid) post prev Ha Hb) as Hcut.
  change ((c :: mid) ++ post) with (c :: (mid ++ post)) in *.
  cbn [execFrom] in *.
  (* the scan of what follows [c], whenever [m] lies in it *)
  assert (Hrest : forall k,
            m ∈ execFrom k (Some c) (S pos) (mid ++ post) ->
            execFrom k (Some c) (S pos) (mid ++ post)
            = execFrom k (Some c) (S pos) mid
                ++ execFrom 0 (lastOr (Some c) mid) (pos + S (length mid)) post).
  { intros k Hk. destruct mid as [|c' mid'].
    - apply execFrom_bounds in Hk as (? & ? & _). cbn [length] in Hend. lia.
    - replace (pos + S (length (c' :: mid'))) with (S pos + length (c' :: mid'))
        by lia.
      apply IH; [exact Ha|exact Hk|lia]. }
  destruct skip as [|skip]; [|by apply Hrest].
  destruct (matchAt prev (c :: mid ++ post)) as [len|] eqn:Hfull.
  - destruct (Nat.le_gt_cases len (S (length mid))) as [Hle|Hgt].
    + rewrite (Hcut Hle). rewrite <- app_comm_cons.
      change (take len (c :: mid ++ post)) with (take len ((c :: mid) ++ post)).
      rewrite (take_app_le (c :: mid) post len) by (simpl; lia).
      f_equal.
      destruct (decide (len = S (length mid))) as [->|Hne].
      * rewrite Nat.sub_succ, Nat.sub_0_r.
        pose proof (execFrom_skip mid [] (Some c) (S pos)) as Hnil.
        rewrite app_nil_r in Hnil. rewrite execFrom_skip, Hnil.
        replace (S pos + length mid) with (pos + S (length mid)) by lia.
        done.
      * apply Hrest. apply elem_of_cons in Hm as [->|Hm]; [|done].
        cbn [index matched] in Hend. rewrite length_take in Hend.
        cbn [length] in Hend. rewrite length_app in Hend. lia.
    + exfalso. apply elem_of_cons in Hm as [->|Hm].
      * cbn [index matched] in Hend. rewrite length_take in Hend.
        apply matchAt_Some in Hfull as (Hlen & _).
        pose proof (classRun_le (c :: mid ++ post)) as Hrun.
        cbn [length] in *. lia.
      * apply execFrom_bounds in Hm as (? & ? & _). lia.
  - rewrite Hcut. by apply Hrest.
Qed.

(** The slice of a text from the start of one match to the end of a
    later one, when it begins and ends with a word character: its matches
    are those of the text that lie inside it. *)
Lemma execAll_slice (pre mid post : jsstring) (m1 m2 : RegExpMatch) :
  m1 ∈ execAll (pre ++ mid ++ post) ->
  m2 ∈ execAll (pre ++ mid ++ post) ->
  index m1 = length pre ->
  index m2 + length (matched m2) = length pre + length mid ->
  length pre <= index m2 ->
  isWordCharAt (head mid) = true ->
  isWordCharAt (last mid) = true ->
  exists before after,
    execAll (pre ++ mid ++ post)
    = before ++ map (shiftMatch (length pre)) (execAll mid) ++ after
    /\ (forall x, x ∈ before -> index x < length pre)
    /\ (forall x, x ∈ after -> length pre + length mid <= index x).
Proof.
  intros Hm1 Hm2 Hi1 Hi2 Hle Hhead Hlast.
  assert (Hmid : mid <> []) by (intros ->; discriminate Hlast).
  pose proof (execAll_IsToken _ _ Hm1) as (_ & _ & _ & _ & Hb1 & _).
  pose proof (execAll_IsToken _ _ Hm2) as (_ & Hl2 & _ & _ & _ & Hb2).
  (* the character before the slice is not a word character *)
  assert (Hprev : isWordCharAt (lastOr None pre) = false).
  { rewrite Hi1 in Hb1. rewrite lookup_app_r, Nat.sub_diag in Hb1 by lia.
    rewrite lookup_app_l in Hb1 by (destruct mid; [done|simpl; lia]).
    rewrite <- head_lookup in Hb1.
    unfold wordBoundary in Hb1. rewrite Hhead in Hb1.
    unfold lastOr. destruct pre as [|c pre] using rev_ind.
    - done.
    - rewrite last_snoc. simpl. rewrite length_app, Nat.add_1_r in Hb1.
      rewrite lookup_app_l in Hb1 by (rewrite length_app; simpl; lia).
      rewrite lookup_app_r, Nat.sub_diag in Hb1 by lia. simpl in Hb1.
      by destruct (isWordChar c). }
  (* the character behind the slice is not a word character *)
  assert (Hnext : isWordCharAt (head post) = false).
  { rewrite Hi2 in Hb2.
    rewrite (lookup_app_r pre), (lookup_app_l mid) in Hb2
      by (destruct mid; [done|simpl in *; lia]).
    rewrite (lookup_app_r pre), (lookup_app_r mid) in Hb2 by lia.
    replace (length pre + length mid - 1 - length pre) with (pred (length mid))
      in Hb2 by lia.
    replace (length pre + length mid - length pre - length mid) with 0
      in Hb2 by lia.
    rewrite <- last_lookup, <- head_lookup in Hb2.
    unfold wordBoundary in Hb2. rewrite Hlast in Hb2.
    by destruct (isWordCharAt (head post)). }
  unfold execAll in *.
  destruct (execFrom_split pre (mid ++ post) 0 None 0 m1 Hm1 Hi1)
    as (before & Hsplit & Hbefore).
  simpl in Hsplit, Hbefore.
  assert (Hm2' : m2 ∈ execFrom 0 (lastOr None pre) (length pre) (mid ++ post)).
  { rewrite Hsplit in Hm2. apply elem_of_app in Hm2 as [Hin|Hin]; [|done].
    apply Hbefore in Hin. lia. }
  pose proof (execFrom_cut mid post 0 (lastOr None pre) (length pre) m2
                Hlast Hnext Hm2' Hi2) as Hcut.
  exists before,
    (execFrom 0 (lastOr (lastOr None pre) mid) (length pre + length mid) post).
  split; [|split].
  - rewrite Hsplit, Hcut. f_equal. f_equal.
    apply (execFrom_shift mid 0 (lastOr None pre) None 0 (length pre)).
    by rewrite Hprev.
  - exact Hbefore.
  - intros x Hx. apply execFrom_bounds in Hx as (? & _). lia.
Qed.

End SliceScan.

(** ** Incremental check against full check on a clean region *)

Section CleanRegion.
Import JsString WordRegex LRU Worker Spec.

Lemma invalidMatches_app (st : Engine) (l1 l2 : list RegExpMatch) :
  invalidMatches st (l1 ++ l2) = invalidMatches st l1 ++ invalidMatches st l2.
Proof. unfold invalidMatches. apply filter_app. Qed.

Lemma invalidMatches_shift (st : Engine) (off : nat) (l : list RegExpMatch) :
  invalidMatches st (map (shiftMatch off) l)
  = map (shiftMatch off) (invalidMatches st l).
Proof.
  induction l as [|m l IH]; [done|].
  rewrite map_cons, !invalidMatches_cons. cbn [shiftMatch matched].
  destruct (verdict st (toLowerCase (matched m))); [done|].
  by rewrite map_cons, IH.
Qed.

Lemma invalidMatches_subset (st : Engine) (l : list RegExpMatch) (m : RegExpMatch) :
  m ∈ invalidMatches st l -> m ∈ l.
Proof. unfold invalidMatches. rewrite list_elem_of_filter. tauto. Qed.

Lemma entryOf_shift (off : nat) (m : RegExpMatch) (flag flag' : option bool) :
  entryOf (resultOfMatch (shiftMatch off m) flag)
  = entryOf (shiftResult (Z.of_nat off) (resultOfMatch m flag')).
Proof.
  unfold entryOf, resultOfMatch, shiftResult, shiftMatch. simpl.
  f_equal; [f_equal|]; lia.
Qed.

(** The entries a scan of the region pushes, when nothing is cached
    for it. *)
Lemma processRegion_miss (region : Utils.IncrementalCheckRegion) (st : Engine) :
  consistent st ->
  cache (regionCache st) !! regionKey region = None ->
  (processRegion region st).1
  = map (shiftResult (Utils.start region))
      (map (fun m => resultOfMatch m (Some false))
           (invalidMatches st (execAll (Utils.text region)))).
Proof.
  intros Hc Hmiss. unfold processRegion. rewrite (get_miss _ _ Hmiss).
  unfold scanRegion.
  destruct (processRegionMatches_consistent (Utils.start region)
              (execAll (Utils.text region)) (withRegionCache (regionCache st) st) Hc)
    as (_ & Hr & Hp & _).
  destruct (processRegionMatches _ _ _) as [scan st2]. simpl in *.
  by rewrite Hp, Hr.
Qed.

Lemma filter_all {A} (P : A -> Prop) `{!forall x, Decision (P x)} (l : list A) :
  (forall x, x ∈ l -> P x) -> filter P l = l.
Proof.
  induction l as [|x l IH]; intros HP; [done|].
  rewrite filter_cons, decide_True by (apply HP; by left).
  f_equal. apply IH. intros y Hy. apply HP. by right.
Qed.

Lemma filter_none {A} (P : A -> Prop) `{!forall x, Decision (P x)} (l : list A) :
  (forall x, x ∈ l -> ~ P x) -> filter P l = [].
Proof.
  induction l as [|x l IH]; intros HP; [done|].
  rewrite filter_cons, decide_False by (apply HP; by left).
  apply IH. intros y Hy. apply HP. by right.
Qed.

(** On a region cut from the text as in [execAll_slice], with nothing
    cached for it, the incremental check pushes the entries that the
    full check reports inside the region. *)
Lemma processRegion_agrees (pre mid post : jsstring) (m1 m2 : RegExpMatch)
    (st : Engine) :
  let fullText := pre ++ mid ++ post in
  let region :=
    Utils.mkRegion (Z.of_nat (length pre))
      (Z.of_nat (length pre + length mid)) mid in
  m1 ∈ execAll fullText -> m2 ∈ execAll fullText ->
  index m1 = length pre ->
  index m2 + length (matched m2) = length pre + length mid ->
  length pre <= index m2 ->
  isWordCharAt (head mid) = true -> isWordCharAt (last mid) = true ->
  consistent st ->
  cache (regionCache st) !! regionKey region = None ->
  map entryOf (processRegion region st).1
  = map entryOf (filter (insideRegion region) (processText fullText st).1).
Proof.
  intros fullText region Hm1 Hm2 Hi1 Hi2 Hle Hhead Hlast Hc Hmiss.
  rewrite (processRegion_miss region st Hc Hmiss). cbn [Utils.start Utils.text region].
  unfold processText. rewrite (proj1 (processMatches_consistent _ st Hc)).
  destruct (execAll_slice pre mid post m1 m2 Hm1 Hm2 Hi1 Hi2 Hle Hhead Hlast)
    as (before & after & Hall & Hbefore & Hafter).
  fold fullText in Hall. rewrite Hall.
  rewrite !invalidMatches_app, invalidMatches_shift, !map_app, !filter_app.
  rewrite (filter_none _ (map _ (invalidMatches st before))).
  2:{ intros r Hr. apply list_elem_of_In, in_map_iff in Hr as (m & <- & Hm).
      apply list_elem_of_In, invalidMatches_subset, Hbefore in Hm.
      unfold insideRegion. cbn. lia. }
  rewrite (filter_none _ (map _ (invalidMatches st after))).
  2:{ intros r Hr. apply list_elem_of_In, in_map_iff in Hr as (m & <- & Hm).
      apply list_elem_of_In, invalidMatches_subset in Hm.
      pose proof (Hafter m Hm) as Hge.
      assert (2 <= length (matched m)).
      { assert (Hin : m ∈ execAll fullText).
        { rewrite Hall. apply elem_of_app. right. apply elem_of_app. by right. }
        by apply execAll_IsToken in Hin as (_ & ? & _). }
      unfold insideRegion. cbn. lia. }
  rewrite filter_all.
  2:{ intros r Hr. apply list_elem_of_In, in_map_iff in Hr as (m & <- & Hm).
      apply in_map_iff in Hm as (m' & <- & Hm').
      apply list_elem_of_In, invalidMatches_subset in Hm'.
      apply execFrom_bounds in Hm' as (_ & _ & Hend).
      unfold insideRegion. cbn. lia. }
  rewrite app_nil_l, app_nil_r, !map_map. apply map_ext.
  intros m. symmetry. apply entryOf_shift.
Qed.

End CleanRegion.

(** ** The region around a change *)

Section ExpandedRegion.
Import JsString WordRegex Utils Spec.

Lemma commonPrefix_le (a b : jsstring) :
  commonPrefix a b <= length a /\ commonPrefix a b <= length b.
Proof.
  revert b. induction a as [|x a IH]; intros [|y b]; cbn; try lia.
  case_bool_decide; [|lia]. destruct (IH b). lia.
Qed.

(** The two loops of [calculateTextChanges] leave at most one change,
    and its span lies in the new text. *)
Lemma calculateTextChanges_cases (old new : jsstring) :
  calculateTextChanges old new = []
  \/ exists c, calculateTextChanges old new = [c]
       /\ changeStart c <= changeEnd c <= length new.
Proof.
  unfold calculateTextChanges.
  set (s := commonPrefix old new).
  set (k := commonSuffixAfter s old new).
  destruct (_ || _); [right|by left].
  eexists. split; [reflexivity|]. cbn [changeStart changeEnd].
  assert (s <= length new) by apply commonPrefix_le.
  assert (k <= length new - s).
  { unfold k, commonSuffixAfter.
    destruct (commonPrefix_le (rev (drop s old)) (rev (drop s new))) as [_ Hk].
    by rewrite length_rev, length_drop in Hk. }
  lia.
Qed.

Lemma findIndexFrom_spec {A} (p : A -> bool) (base : Z) (l : list A) :
  findIndexFrom p base l = (-1)%Z
  \/ exists i x, findIndexFrom p base l = (base + Z.of_nat i)%Z
       /\ l !! i = Some x /\ p x = true.
Proof.
  revert base. induction l as [|y l IH]; intros base; cbn; [by left|].
  destruct (p y) eqn:Hp.
  - right. exists 0, y. split; [lia|done].
  - destruct (IH (base + 1)%Z) as [->|(i & x & -> & Hi & Hx)]; [by left|].
    right. exists (S i), x. split; [lia|done].
Qed.

Lemma findIndexFrom_first {A} (p : A -> bool) (base : Z) (l : list A)
    (i : nat) (x : A) :
  l !! i = Some x -> p x = true ->
  (base <= findIndexFrom p base l <= base + Z.of_nat i)%Z.
Proof.
  revert base i. induction l as [|y l IH]; intros base i Hi Hp; [done|].
  cbn. destruct (p y) eqn:Hy; [lia|].
  destruct i as [|i]; [cbn in Hi; congruence|].
  cbn in Hi. pose proof (IH (base + 1)%Z i Hi Hp). lia.
Qed.

(** The matches come in the order of the text and do not overlap. *)
Lemma execFrom_ordered (s : jsstring) (skip : nat) (prev : option ascii)
    (pos i j : nat) (x y : RegExpMatch) :
  execFrom skip prev pos s !! i = Some x ->
  execFrom skip prev pos s !! j = Some y ->
  i < j ->
  index x + length (matched x) <= index y.
Proof.
  revert skip prev pos i j. induction s as [|c s IH];
    intros skip prev pos i j Hx Hy Hij; [done|].
  cbn [execFrom] in Hx, Hy.
  destruct skip as [|skip]; [|by eapply IH].
  destruct (matchAt prev (c :: s)) as [len|]; [|by eapply IH].
  destruct j as [|j]; [lia|]. cbn in Hy.
  destruct i as [|i].
  - cbn in Hx. injection Hx as <-. cbn [index matched].
    apply list_elem_of_lookup_2, execFrom_bounds in Hy as (Hy & _ & _).
    rewrite length_take. lia.
  - cbn in Hx. eapply IH; [exact Hx|exact Hy|lia].
Qed.

Lemma wordSpans_lookup (text : jsstring) (i : nat) :
  wordSpans text !! i
  = (fun m => mkSpan (index m) (index m + length (matched m)) (matched m))
      <$> execAll text !! i.
Proof. apply (list_lookup_fmap _ (execAll text) i). Qed.

Lemma wordSpans_length (text : jsstring) :
  length (wordSpans text) = length (execAll text).
Proof. apply length_map. Qed.

(** When the text has a word, the region starts where a word starts
    and ends where that word or a later one ends. *)
Lemma expandRegionWithContext_words (text : jsstring) (s e : Z) :
  execAll text <> [] -> (s <= e)%Z ->
  exists i j m1 m2,
    execAll text !! i = Some m1 /\ execAll text !! j = Some m2 /\ i <= j
    /\ expandRegionWithContext text s e defaultContextWords
       = mkRegion (Z.of_nat (index m1))
           (Z.of_nat (index m2 + length (matched m2)))
           (slice text (Z.of_nat (index m1))
              (Z.of_nat (index m2 + length (matched m2)))).
Proof.
  intros Hne Hse. unfold expandRegionWithContext, defaultContextWords.
  set (words := wordSpans text).
  set (p1 := fun w => (s <? Z.of_nat (spanEnd w))%Z).
  set (p2 := fun w => (e <=? Z.of_nat (spanStart w))%Z).
  set (n := Z.of_nat (length words)).
  assert (Hn : (1 <= n)%Z).
  { unfold n, words. rewrite wordSpans_length.
    destruct (execAll text); [done|cbn; lia]. }
  set (swi := if (findIndex p1 words =? -1)%Z then n else findIndex p1 words).
  set (ewi := if (findIndex p2 words =? -1)%Z then n else findIndex p2 words).
  assert (Hswi : (0 <= swi <= n)%Z).
  { unfold swi, findIndex.
    destruct (findIndexFrom_spec p1 0 words) as [->|(i & x & -> & Hi & _)];
      [cbn; lia|].
    apply lookup_lt_Some in Hi. fold n in Hi.
    destruct (Z.eqb_spec (0 + Z.of_nat i) (-1)); unfold n; lia. }
  assert (Hewi : (0 <= ewi <= n)%Z).
  { unfold ewi, findIndex.
    destruct (findIndexFrom_spec p2 0 words) as [->|(i & x & -> & Hi & _)];
      [cbn; lia|].
    apply lookup_lt_Some in Hi.
    destruct (Z.eqb_spec (0 + Z.of_nat i) (-1)); unfold n; lia. }
  assert (Hord : (swi <= ewi)%Z).
  { unfold ewi at 1. unfold findIndex.
    destruct (findIndexFrom_spec p2 0 words) as [Hr|(i & x & Hr & Hi & Hx)].
    - rewrite Hr. cbn. lia.
    - assert (Hp1 : p1 x = true).
      { unfold words in Hi. rewrite wordSpans_lookup in Hi.
        destruct (execAll text !! i) as [m|] eqn:Hm; [|done].
        cbn in Hi. injection Hi as <-.
        apply list_elem_of_lookup_2, execAll_IsToken in Hm as (_ & Hlen & _).
        unfold p1, p2 in *. cbn [spanStart spanEnd] in *.
        apply Z.leb_le in Hx. apply Z.ltb_lt. lia. }
      pose proof (findIndexFrom_first p1 0 words i x Hi Hp1) as Hfirst.
      rewrite Hr. unfold swi, findIndex.
      destruct (Z.eqb_spec (0 + Z.of_nat i) (-1)); [lia|].
      destruct (Z.eqb_spec (findIndexFrom p1 0 words) (-1)); lia. }
  set (esi := Z.max 0 (swi - 2)). set (eei := Z.min n (ewi + 2)).
  assert (Hesi : (0 <= esi < n)%Z) by (unfold esi; lia).
  assert (Heei : (0 < eei <= n)%Z) by (unfold eei; lia).
  assert (Hij : (esi <= eei - 1)%Z) by (unfold esi, eei; lia).
  destruct (Z.ltb_spec esi n); [|lia]. destruct (Z.ltb_spec 0 eei); [|lia].
  assert (Hlook : forall k, (0 <= k < n)%Z ->
            exists m, execAll text !! Z.to_nat k = Some m).
  { intros k Hk. apply lookup_lt_is_Some. rewrite <- wordSpans_length.
    fold words. unfold n in Hk. lia. }
  destruct (Hlook esi Hesi) as [m1 Hm1].
  destruct (Hlook (eei - 1)%Z ltac:(lia)) as [m2 Hm2].
  exists (Z.to_nat esi), (Z.to_nat (eei - 1)), m1, m2.
  split; [done|]. split; [done|]. split; [lia|].
  unfold spanStartAt, spanEndAt, words.
  rewrite !wordSpans_lookup, Hm1, Hm2. reflexivity.
Qed.

Lemma head_take_S {A} (n : nat) (l : list A) : head (take (S n) l) = head l.
Proof. by destruct l. Qed.

(** The region around a change, cut out of the text as
    [execAll_slice] needs it. *)
Lemma expandRegionWithContext_cut (text : jsstring) (s e : Z) :
  execAll text <> [] -> (s <= e)%Z ->
  (forall m, m ∈ execAll text ->
     isWordCharAt (head (matched m)) = true
     /\ isWordCharAt (last (matched m)) = true) ->
  exists pre mid post m1 m2,
    text = pre ++ mid ++ post
    /\ m1 ∈ execAll text /\ m2 ∈ execAll text
    /\ index m1 = length pre
    /\ index m2 + length (matched m2) = length pre + length mid
    /\ length pre <= index m2
    /\ isWordCharAt (head mid) = true /\ isWordCharAt (last mid) = true
    /\ expandRegionWithContext text s e defaultContextWords
       = mkRegion (Z.of_nat (length pre)) (Z.of_nat (length pre + length mid)) mid.
Proof.
  intros Hne Hse Hends.
  destruct (expandRegionWithContext_words text s e Hne Hse)
    as (i & j & m1 & m2 & Hm1 & Hm2 & Hij & Hregion).
  pose proof (list_elem_of_lookup_2 _ _ _ Hm1) as Hin1.
  pose proof (list_elem_of_lookup_2 _ _ _ Hm2) as Hin2.
  destruct (execAll_IsToken _ _ Hin1) as (Htext1 & Hlen1 & Hend1 & _).
  destruct (execAll_IsToken _ _ Hin2) as (Htext2 & Hlen2 & Hend2 & _).
  set (a := index m1) in *. set (b := index m2 + length (matched m2)) in *.
  assert (Hab : a <= index m2).
  { destruct (decide (i = j)) as [->|Hneq].
    - rewrite Hm1 in Hm2. injection Hm2 as <-. unfold a. lia.
    - pose proof (execFrom_ordered text 0 None 0 i j m1 m2 Hm1 Hm2
                    ltac:(lia)). unfold a. lia. }
  exists (take a text), (take (b - a) (drop a text)), (drop b text), m1, m2.
  assert (Hpre : length (take a text) = a) by (rewrite length_take; lia).
  assert (Hmid : length (take (b - a) (drop a text)) = b - a).
  { rewrite length_take, length_drop. unfold b. lia. }
  rewrite Hpre, Hmid.
  split.
  { rewrite <- (take_drop a text) at 1. f_equal.
    rewrite <- (take_drop (b - a) (drop a text)) at 1. f_equal.
    rewrite drop_drop. f_equal. unfold b. lia. }
  split; [done|]. split; [done|]. split; [done|].
  split; [unfold b; lia|]. split; [done|].
  split.
  { replace (b - a) with (S (b - a - 1)) by (unfold b; lia).
    rewrite head_take_S.
    destruct (Hends m1 Hin1) as [Hh _]. rewrite Htext1 in Hh.
    replace (length (matched m1)) with (S (length (matched m1) - 1)) in Hh
      by lia.
    by rewrite head_take_S in Hh. }
  split.
  { assert (Hsplit : take (b - a) (drop a text)
                     = take (index m2 - a) (drop a text) ++ matched m2).
    { rewrite <- (take_drop (index m2 - a) (drop a text)) at 1.
      replace (b - a) with ((index m2 - a) + length (matched m2))
        by (unfold b; lia).
      rewrite take_app_add'.
      2:{ rewrite length_take, length_drop. lia. }
      f_equal. rewrite drop_drop.
      replace (a + (index m2 - a)) with (index m2) by lia.
      by rewrite <- Htext2. }
    rewrite Hsplit, last_app.
    destruct (Hends m2 Hin2) as [_ Hl].
    destruct (last (matched m2)) eqn:Hlast; [done|].
    apply last_None in Hlast. rewrite Hlast in Hlen2. cbn in Hlen2. lia. }
  rewrite Hregion. f_equal; [lia|].
  replace (Z.of_nat b) with (Z.of_nat a + Z.of_nat (b - a))%Z
    by (unfold b; lia).
  apply slice_take_drop. unfold b. lia.
Qed.

End ExpandedRegion.

(** ** Agreement of the incremental check with the full check *)

Section Agreement.
Import JsString WordRegex LRU Utils Worker Spec.

Lemma entryOf_shift_zero (r : SpellCheckResult) :
  entryOf (shiftResult 0 r) = entryOf r.
Proof.
  unfold entryOf, shiftResult. cbn. by rewrite !Z.add_0_r.
Qed.

(** The results of a full check lie inside the text. *)
Lemma processText_inside (fullText : jsstring) (st : Engine) (r : SpellCheckResult) :
  consistent st ->
  r ∈ (processText fullText st).1 ->
  insideRegion (mkRegion 0 (Z.of_nat (length fullText)) fullText) r.
Proof.
  intros Hc Hr. unfold processText in Hr.
  rewrite (proj1 (processMatches_consistent _ st Hc)) in Hr.
  apply list_elem_of_In, in_map_iff in Hr as (m & <- & Hm).
  apply list_elem_of_In, invalidMatches_subset, execFrom_bounds in Hm
    as (_ & _ & Hend).
  unfold insideRegion. cbn. lia.
Qed.

(** A check of the whole text as one region reports what the full
    check reports. *)
Lemma processRegion_whole (fullText : jsstring) (st : Engine) :
  let region := mkRegion 0 (Z.of_nat (length fullText)) fullText in
  consistent st ->
  cache (regionCache st) !! regionKey region = None ->
  map entryOf (processRegion region st).1
  = map entryOf (processText fullText st).1.
Proof.
  intros region Hc Hmiss.
  rewrite (processRegion_miss region st Hc Hmiss). cbn [Utils.start Utils.text region].
  unfold processText. rewrite (proj1 (processMatches_consistent _ st Hc)).
  rewrite !map_map. apply map_ext. intros m.
  rewrite entryOf_shift_zero. reflexivity.
Qed.

(** X1.  After one contiguous edit of a text, with no region cached, the
    incremental check reports the invalid words that a full check of
    the new text reports inside the regions, provided the new text has
    a word and each of its words begins and ends with a letter. *)
Lemma incremental_agrees_with_full (oldText newText : jsstring) (st : Engine) :
  consistent st ->
  cache (regionCache st) = ∅ ->
  oldText = [] \/ newText = [] \/ execAll newText <> [] ->
  (forall m, m ∈ execAll newText ->
     isWordCharAt (head (matched m)) = true
     /\ isWordCharAt (last (matched m)) = true) ->
  let regions :=
    calculateIncrementalCheckRegions oldText newText defaultContextWords in
  map entryOf (processIncrementalText newText regions st).1
  = map entryOf
      (filter (fun r => Exists (fun region => insideRegion region r) regions)
         (processText newText st).1).
Proof.
  intros Hc Hempty Hword Hends regions.
  set (st' := withCurrentCheckCache ∅ st).
  assert (Hc' : consistent st') by exact Hc.
  assert (Hmiss : forall k, cache (regionCache st') !! k = None).
  { intros k. cbn. rewrite Hempty. apply lookup_empty. }
  assert (Hfull : (processText newText st).1 = (processText newText st').1).
  { unfold processText.
    rewrite (proj1 (processMatches_consistent _ st Hc)).
    by rewrite (proj1 (processMatches_consistent _ st' Hc')). }
  rewrite Hfull. unfold processIncrementalText. fold st'.
  assert (Hone : forall region,
            (processRegions [region] st').1 = (processRegion region st').1).
  { intros region. cbn [processRegions].
    destruct (processRegion region st') as [rs st1]. cbn. apply app_nil_r. }
  assert (Hsingle : forall region (l : list SpellCheckResult),
            filter (fun r => Exists (fun region => insideRegion region r) [region]) l
            = filter (insideRegion region) l).
  { intros region l. apply list_filter_iff. intros r.
    rewrite Exists_cons, Exists_nil. tauto. }
  assert (Hwhole : (bool_decide (oldText = []) || bool_decide (newText = [])) = true ->
    map entryOf (processIncrementalText newText regions st).1
    = map entryOf
      (filter (fun r => Exists (fun region => insideRegion region r) regions)
         (processText newText st').1)).
  { intros Hb. unfold regions, calculateIncrementalCheckRegions. rewrite Hb.
    unfold processIncrementalText. fold st'.
    rewrite Hone, Hsingle, (processRegion_whole newText st' Hc' (Hmiss _)).
    f_equal. symmetry. apply filter_all.
    intros r Hr. exact (processText_inside newText st' r Hc' Hr). }
  destruct (bool_decide (oldText = []) || bool_decide (newText = [])) eqn:Hb;
    [by apply Hwhole|].
  clear Hwhole. apply orb_false_iff in Hb as [Hold Hnew].
  apply bool_decide_eq_false in Hold, Hnew.
  destruct Hword as [?|[?|Hword]]; [done|done|].
  unfold regions, calculateIncrementalCheckRegions.
  rewrite (proj2 (orb_false_iff _ _)) by (split; by apply bool_decide_eq_false).
  destruct (calculateTextChanges_cases oldText newText)
    as [->|(c & -> & Hspan)].
  - cbn [length Nat.eqb].
    rewrite filter_none by (intros r _ Hr; by apply Exists_nil in Hr).
    reflexivity.
  - cbn [length Nat.eqb map]. unfold mergeOverlappingRegions. cbn [length Nat.leb].
    destruct (expandRegionWithContext_cut newText
                (Z.of_nat (changeStart c)) (Z.of_nat (changeEnd c))
                Hword ltac:(lia) Hends)
      as (pre & mid & post & m1 & m2 & Htext & Hm1 & Hm2 & Hi1 & Hi2 & Hle
          & Hhead & Hlast & ->).
    rewrite Hone, Hsingle. rewrite Htext in Hm1, Hm2 |- *.
    by apply (processRegion_agrees pre mid post m1 m2 st').
Qed.

End Agreement.

(** ** Incremental check against full check *)

Section IncrementalVersusFull.
Import JsString WordRegex LRU Utils Worker Spec.

(** A first or an empty text gives the whole new text as one region. *)
Lemma regions_of_first_text (newText : jsstring) (contextWords : Z) :
  calculateIncrementalCheckRegions [] newText contextWords
  = [mkRegion 0 (Z.of_nat (length newText)) newText].
Proof. reflexivity. Qed.

(** [incremental_agrees_with_full] at the edit of [helo wrld] into
    [helo world]. *)
Lemma incremental_agrees_example :
  let oldText := str "helo wrld" in
  let newText := str "helo world" in
  let st := onmessage (INIT_DICTIONARY helloWorld) initialEngine in
  let regions := calculateIncrementalCheckRegions oldText newText defaultContextWords in
  map entryOf (processIncrementalText newText regions st).1
  = map entryOf
      (filter (fun r => Exists (fun region => insideRegion region r) regions)
         (processText newText st).1).
Proof.
  intros oldText newText st regions.
  assert (Hall : execAll newText
                 = [mkMatch 0 (str "helo"); mkMatch 5 (str "world")])
    by (vm_compute; reflexivity).
  apply incremental_agrees_with_full.
  - intros w v Hw. cbn in Hw. by rewrite lookup_empty in Hw.
  - reflexivity.
  - right. right. by rewrite Hall.
  - intros m Hm. rewrite Hall in Hm.
    apply elem_of_cons in Hm as [->|Hm];
      [|apply list_elem_of_singleton in Hm as ->];
      split; vm_compute; reflexivity.
Defined.

(** C1 at the edit of [1xx2] into [1qz2], with a dictionary that knows
    neither [qz] nor anything else in the text.  The new text has no
    word, so the region is the changed span [1,3) itself, whose text
    [qz] is a word once cut out: the incremental check reports it, the
    full check of the new text reports nothing. *)
Theorem incremental_check_differs :
  let oldText := str "1xx2" in
  let newText := str "1qz2" in
  let st := onmessage (INIT_DICTIONARY helloWorld) initialEngine in
  let regions := calculateIncrementalCheckRegions oldText newText defaultContextWords in
  regions = [mkRegion 1 3 (str "qz")]
  /\ (processIncrementalText newText regions st).1
     = [mkResult (str "qz") 1 3 (Some false)]
  /\ (processText newText st).1 = [].
Proof. vm_compute. repeat split. Qed.

(** The same divergence at a word that begins with an apostrophe after
    a digit: the full check reports ['ab] at [1,4), the incremental
    check cuts the region at the apostrophe and reports [ab] at [2,4). *)
Lemma incremental_check_differs_at_apostrophe :
  let oldText := str "1'ab cx" in
  let newText := str "1'ab cd" in
  let st := onmessage (INIT_DICTIONARY helloWorld) initialEngine in
  let regions := calculateIncrementalCheckRegions oldText newText defaultContextWords in
  regions = [mkRegion 1 7 (str "'ab cd")]
  /\ map (fun r => (word r, Worker.start r, Worker.end_ r))
       (processIncrementalText newText regions st).1
     = [(str "ab", 2, 4); (str "cd", 5, 7)]%Z
  /\ map (fun r => (word r, Worker.start r, Worker.end_ r))
       (processText newText st).1
     = [(str "'ab", 1, 4); (str "cd", 5, 7)]%Z.
Proof. vm_compute. repeat split. Qed.

End IncrementalVersusFull.

(** ** The cache under arbitrary sequences of calls *)

Section LRUCalls.
Import LRU Spec.
Context {V : Type}.
Implicit Types (c : LRUCache V) (k : jsstring).

Lemma wf_delete k c : wf c -> wf (delete k c).2.
Proof.
  intros (Hnd & Hdom & Hsz). unfold delete.
  destruct (cache c !! k) as [v|] eqn:E; [|done]. unfold wf. cbn.
  assert (Hk : k ∈ order c) by (apply Hdom; by rewrite E).
  split; [by apply NoDup_removeNode|]. split.
  - intros x. rewrite elem_of_removeNode by done. rewrite Hdom.
    destruct (decide (x = k)) as [->|Hne].
    + rewrite lookup_delete_eq. split; [tauto|]. by intros [? ?].
    + rewrite lookup_delete_ne by done. tauto.
  - pose proof (length_removeNode k (order c) Hk). lia.
Qed.

Lemma wf_size c : wf c -> size c = base.size (cache c).
Proof.
  intros (Hnd & Hdom & Hsz). rewrite Hsz, <- size_dom.
  unfold base.size at 1, set_size. cbn.
  apply Permutation_length, NoDup_Permutation; [done|apply NoDup_elements|].
  intros x. rewrite elem_of_elements, elem_of_dom. apply Hdom.
Qed.

Lemma fits_set k (v : V) c : fits c -> fits (set k v c).
Proof.
  intros [Hwf Hle]. split; [by apply wf_set|].
  rewrite capacity_set. unfold set.
  destruct (cache c !! k); [done|].
  destruct (Nat.ltb_spec (capacity c) (S (size c))); [|cbn; lia].
  unfold removeTail, addToHead.
  destruct (last (k :: order c)) eqn:El; [cbn; lia|by apply last_None in El].
Qed.

Lemma fits_get k c : fits c -> fits (get k c).2.
Proof.
  intros [Hwf Hle]. split; [by apply wf_get|].
  unfold get. by destruct (cache c !! k).
Qed.

Lemma fits_delete k c : fits c -> fits (delete k c).2.
Proof.
  intros [Hwf Hle]. split; [by apply wf_delete|].
  unfold delete. destruct (cache c !! k); [cbn; lia|done].
Qed.

Lemma fits_clear c : fits (clear c).
Proof. split; [apply wf_clear|cbn; lia]. Qed.

Lemma fits_create (cap : nat) : fits (create cap : LRUCache V).
Proof. split; [apply wf_create|cbn; lia]. Qed.

Lemma capacity_delete k c : capacity (delete k c).2 = capacity c.
Proof. unfold delete. by destruct (cache c !! k). Qed.

Lemma callOn_fits (o : LRUCall V) c :
  fits c -> fits (callOn o c) /\ capacity (callOn o c) = capacity c.
Proof.
  intros H. destruct o; cbn [callOn].
  - split; [by apply fits_get|apply capacity_get].
  - split; [by apply fits_set|apply capacity_set].
  - done.
  - split; [by apply fits_delete|apply capacity_delete].
  - split; [apply fits_clear|done].
Qed.

Lemma callsOn_fits (os : list (LRUCall V)) c :
  fits c -> fits (callsOn os c) /\ capacity (callsOn os c) = capacity c.
Proof.
  revert c. induction os as [|o os IH]; intros c H; [done|].
  cbn. destruct (callOn_fits o c H) as [H1 H2].
  destruct (IH _ H1) as [H3 H4]. split; [exact H3|exact (eq_trans H4 H2)].
Qed.

(** X2.  Whatever calls are made on a new cache of capacity [cap],
    [getSize] is the number of keys of the map, it never exceeds the
    capacity, and [getCapacity] stays [cap]. *)
Theorem lru_size_bounded (cap : nat) (os : list (LRUCall V)) :
  let c := callsOn os (create cap) in
  getSize c = base.size (cache c) /\ getSize c <= cap /\ getCapacity c = cap.
Proof.
  intros c. destruct (callsOn_fits os (create cap) (fits_create cap))
    as [[Hwf Hle] Hcap].
  fold c in Hwf, Hle, Hcap. unfold getSize, getCapacity. cbn in Hcap.
  split; [by apply wf_size|]. split; [lia|done].
Qed.

Lemma set_get_fits k (v : V) c :
  fits c ->
  (get k (set k v c)).1 = if capacity c =? 0 then None else Some v.
Proof.
  intros [Hwf Hle]. rewrite get_value.
  destruct (cache c !! k) as [v0|] eqn:E.
  - rewrite set_present by (by rewrite E). cbn. rewrite lookup_insert_eq.
    destruct (Nat.eqb_spec (capacity c) 0) as [H0|]; [|done].
    destruct Hwf as (_ & Hdom & Hsz).
    assert (Hk : k ∈ order c) by (apply Hdom; by rewrite E).
    destruct (order c); [by apply elem_of_nil in Hk|cbn in Hsz; lia].
  - destruct (Nat.ltb_spec (size c) (capacity c)) as [Hroom|Hfull].
    + rewrite set_fresh_room by done. cbn. rewrite lookup_insert_eq.
      destruct (Nat.eqb_spec (capacity c) 0); [lia|done].
    + destruct (order c) as [|x l] eqn:Eo using rev_ind.
      * rewrite set_fresh_empty by done. cbn. rewrite lookup_delete_eq.
        destruct Hwf as (_ & _ & Hsz). rewrite Eo in Hsz. cbn in Hsz.
        destruct (Nat.eqb_spec (capacity c) 0); [done|lia].
      * rewrite (set_fresh_full k v c l x) by done. cbn.
        assert (x <> k).
        { intros ->. pose proof (wf_fresh k c Hwf) as Hf.
          destruct Hwf as (_ & Hdom & _).
          assert (Hin : k ∈ order c).
          { rewrite Eo. apply elem_of_app. right. by left. }
          apply Hdom in Hin. rewrite E in Hin. by destruct Hin. }
        rewrite lookup_delete_ne, lookup_insert_eq by done.
        destruct Hwf as (_ & _ & Hsz). rewrite Eo, length_app in Hsz.
        cbn in Hsz. destruct (Nat.eqb_spec (capacity c) 0); [lia|done].
Qed.

(** X3.  On a cache of capacity [cap] reached by any calls, [get]
    right after [set] of the same key returns the value set, unless the
    capacity is 0, in which case the entry was evicted at once. *)
Theorem lru_set_then_get (cap : nat) (os : list (LRUCall V)) k (v : V) :
  let c := callsOn os (create cap) in
  (get k (set k v c)).1 = if cap =? 0 then None else Some v.
Proof.
  intros c. destruct (callsOn_fits os (create cap) (fits_create cap))
    as [Hfits Hcap].
  fold c in Hfits, Hcap. cbn in Hcap. rewrite <- Hcap.
  by apply set_get_fits.
Qed.

(** X4.  [delete] of a key that is present makes room: the next [set]
    of a new key evicts nothing, so the map is the old one without the
    deleted key and with the new entry. *)
Theorem lru_delete_makes_room (cap : nat) (os : list (LRUCall V))
    (k k' : jsstring) (v : V) :
  let c := callsOn os (create cap) in
  has k c = true -> has k' c = false ->
  (delete k c).1 = true
  /\ cache (set k' v (delete k c).2) = <[k' := v]> (base.delete k (cache c)).
Proof.
  intros c Hk Hk'.
  destruct (callsOn_fits os (create cap) (fits_create cap)) as [[Hwf Hle] _].
  fold c in Hwf, Hle. apply has_true in Hk as [v0 Hv0].
  apply has_false in Hk'.
  assert (Hpos : 1 <= size c).
  { destruct Hwf as (_ & Hdom & Hsz).
    assert (Hin : k ∈ order c) by (apply Hdom; by rewrite Hv0).
    destruct (order c); [by apply elem_of_nil in Hin|cbn in Hsz; lia]. }
  unfold delete. rewrite Hv0. cbn. split; [done|].
  rewrite set_fresh_room; cbn; [done| |lia].
  destruct (decide (k' = k)) as [->|Hne]; [apply lookup_delete_eq|].
  by rewrite lookup_delete_ne.
Qed.

End LRUCalls.

Section LRUCallExamples.
Import LRU Spec.

Lemma lru_delete_makes_room_witness :
  let c := callsOn [CallSet (str "a") 1; CallSet (str "b") 2] (create 2) in
  (delete (str "a") c).1 = true
  /\ cache (set (str "c") 3 (delete (str "a") c).2)
     = <[str "c" := 3]> (base.delete (str "a") (cache c)).
Proof.
  apply (lru_delete_makes_room 2 [CallSet (str "a") 1; CallSet (str "b") 2]
           (str "a") (str "c") 3); vm_compute; reflexivity.
Defined.

End LRUCallExamples.

(** ** Which key an insertion drives out *)

Section EvictionOrder.
Import LRU Spec.
Context {V : Type}.
Implicit Types (c : LRUCache V) (k x y : jsstring) (os : list (LRUCall V)).



















End EvictionOrder.

Section EvictionOrderExamples.
Import LRU Spec.



(** The same at capacity 2 when the key is read before the second key
    is inserted: the read key is again the one accessed first. *)
Lemma lru_early_read_does_not_protect :
  let a := str "a" in let b := str "b" in let c := str "c" in
  let c2 := set b 2 (get a (set a 1 (create 2))).2 in
  (get a (set a 1 (create 2))).1 = Some 1
  /\ has a (set c 3 c2) = false
  /\ has b (set c 3 c2) = true.
Proof. vm_compute. repeat split. Qed.

End EvictionOrderExamples.

(** ** The worker's caches in every state *)

Section Stores.
Import JsString WordRegex LRU Worker Spec.

Lemma storeInv_intro (st : Engine) :
  fits (checkedCache st) -> capacity (checkedCache st) = 5000 ->
  fits (regionCache st) -> capacity (regionCache st) = 1000 ->
  (forall k v, currentCheckCache st !! k = Some v -> v = false) ->
  storeInv st.
Proof.
  intros H1 H2 H3 H4 H5. exact (conj H1 (conj H2 (conj H3 (conj H4 H5)))).
Qed.

Lemma onlyFalse_insert (w : jsstring) (m : gmap jsstring bool) :
  (forall k v, m !! k = Some v -> v = false) ->
  forall k v, <[w := false]> m !! k = Some v -> v = false.
Proof.
  intros H k v Hk. apply lookup_insert_Some in Hk as [[_ <-]|[_ Hk]]; [done|].
  by apply (H k).
Qed.

Lemma checkWord_storeInv (w : jsstring) (st : Engine) :
  storeInv st -> storeInv (checkWord w st).2.
Proof.
  intros (Hc & Hccap & Hr & Hrcap & Hcur). unfold checkWord.
  destruct (has w (checkedCache st)).
  - pose proof (fits_get w _ Hc) as Hg.
    pose proof (capacity_get w (checkedCache st)) as Hcap.
    destruct (get w (checkedCache st)) as [v c]. cbn in Hg, Hcap.
    destruct (negb (truthy v)); apply storeInv_intro; cbn;
      try done; try congruence.
    by apply onlyFalse_insert.
  - pose proof (isValid_frame w st) as (_ & Hcc & Hrc & Hcu).
    destruct (isValid w st) as [valid st1]. cbn in Hcc, Hrc, Hcu.
    destruct (negb valid); apply storeInv_intro; cbn;
      rewrite ?Hcc, ?Hrc, ?Hcu, ?capacity_set;
      try done; try (by apply fits_set).
    by apply onlyFalse_insert.
Qed.

Lemma processMatches_storeInv (ms : list RegExpMatch) (st : Engine) :
  storeInv st -> storeInv (processMatches ms st).2.
Proof.
  revert st. induction ms as [|m ms IH]; intros st Hinv; cbn; [done|].
  pose proof (checkWord_storeInv (toLowerCase (matched m)) st Hinv) as H1.
  destruct (checkWord (toLowerCase (matched m)) st) as [invalid st1].
  specialize (IH st1 H1). by destruct (processMatches ms st1) as [rest st2].
Qed.

Lemma storeInv_regionCache (rc : LRUCache RegionEntry) (st : Engine) :
  storeInv st -> fits rc -> capacity rc = 1000 ->
  storeInv (withRegionCache rc st).
Proof.
  intros (Hc & Hccap & _ & _ & Hcur) Hrc Hcap. by apply storeInv_intro.
Qed.

Lemma scanRegion_storeInv (region : Utils.IncrementalCheckRegion) (st : Engine) :
  storeInv st -> storeInv (scanRegion region st).2.
Proof.
  intros Hinv. unfold scanRegion.
  pose proof (processMatches_storeInv (execAll (Utils.text region)) st Hinv)
    as Hscan.
  rewrite <- (processRegionMatches_state (Utils.start region)) in Hscan.
  destruct (processRegionMatches _ _ _) as [scan st2]. cbn in *.
  pose proof Hscan as (_ & _ & Hr & Hrcap & _).
  apply storeInv_regionCache; [done|by apply fits_set|by rewrite capacity_set].
Qed.

Lemma processRegion_storeInv (region : Utils.IncrementalCheckRegion) (st : Engine) :
  storeInv st -> storeInv (processRegion region st).2.
Proof.
  intros Hinv. unfold processRegion.
  pose proof Hinv as (_ & _ & Hr & Hrcap & _).
  pose proof (fits_get (regionKey region) _ Hr) as Hg.
  pose proof (capacity_get (regionKey region) (regionCache st)) as Hcap.
  destruct (get (regionKey region) (regionCache st)) as [cached rc].
  cbn in Hg, Hcap.
  assert (Hst1 : storeInv (withRegionCache rc st)).
  { apply storeInv_regionCache; [done|done|congruence]. }
  pose proof (scanRegion_storeInv region _ Hst1) as Hscan.
  destruct cached as [entry|]; [|exact Hscan].
  destruct (cacheEntryMatches entry (Utils.text region));
    [exact Hst1|exact Hscan].
Qed.

Lemma processRegions_storeInv (regions : list Utils.IncrementalCheckRegion)
    (st : Engine) :
  storeInv st -> storeInv (processRegions regions st).2.
Proof.
  revert st. induction regions as [|region regions IH]; intros st Hinv;
    cbn; [done|].
  pose proof (processRegion_storeInv region st Hinv) as H1.
  destruct (processRegion region st) as [rs st1].
  specialize (IH st1 H1). by destruct (processRegions regions st1) as [rest st2].
Qed.

Lemma storeInv_cleared (st : Engine) :
  capacity (checkedCache st) = 5000 -> capacity (regionCache st) = 1000 ->
  storeInv (withCurrentCheckCache ∅ (clearCaches st)).
Proof.
  intros H1 H2. apply storeInv_intro; cbn; try done; try apply fits_clear.
Qed.

Lemma storeInv_clearCaches (st : Engine) :
  storeInv st -> storeInv (clearCaches st).
Proof.
  intros (_ & H1 & _ & H2 & Hcur).
  apply storeInv_intro; cbn; try done; try apply fits_clear.
Qed.

Lemma recheckLastText_storeInv (st : Engine) :
  storeInv st -> storeInv (recheckLastText st).
Proof.
  intros Hinv. unfold recheckLastText. case_bool_decide; [done|].
  pose proof (processMatches_storeInv (execAll (lastFullText st)) st Hinv) as Hp.
  unfold processText. by destruct (processMatches _ st) as [invalidWords st1].
Qed.

Lemma onmessage_storeInv (msg : Request) (st : Engine) :
  storeInv st -> storeInv (onmessage msg st).
Proof.
  intros Hinv. pose proof Hinv as (_ & H1 & _ & H2 & Hcur).
  destruct msg; cbn [onmessage]; try exact Hinv.
  - by apply (storeInv_clearCaches (withDictionary (Some dict) st)).
  - apply (recheckLastText_storeInv
             (withCurrentCheckCache ∅ (clearCaches (withCustomWords _ st)))).
    by apply (storeInv_cleared (withCustomWords _ st)).
  - apply (recheckLastText_storeInv
             (withCurrentCheckCache ∅ (clearCaches (withCustomWords _ st)))).
    by apply (storeInv_cleared (withCustomWords _ st)).
  - by apply (storeInv_clearCaches (withCustomWords ∅ st)).
  - pose proof (processMatches_storeInv (execAll fullText) st Hinv) as H.
    unfold processText. by destruct (processMatches _ st) as [invalidWords st1].
  - assert (H0 : storeInv (withCurrentCheckCache ∅ st)).
    { destruct Hinv as (? & ? & ? & ? & _). by apply storeInv_intro. }
    pose proof (processRegions_storeInv regions _ H0) as H.
    unfold processIncrementalText.
    by destruct (processRegions regions _) as [invalidWords st1].
Qed.

Lemma reachable_storeInv (st : Engine) : reachable st -> storeInv st.
Proof.
  induction 1 as [|msg st _ IH]; [|by apply onmessage_storeInv].
  apply storeInv_intro; cbn; try done; apply fits_create.
Qed.

(** X5.  In every state of the worker the word cache holds at most
    5000 words and the region cache at most 1000 regions, and the
    field [size] of each is the number of keys of its map. *)
Theorem worker_caches_bounded (st : Engine) :
  reachable st ->
  size (checkedCache st) = base.size (cache (checkedCache st))
  /\ size (checkedCache st) <= 5000
  /\ size (regionCache st) = base.size (cache (regionCache st))
  /\ size (regionCache st) <= 1000.
Proof.
  intros Hreach.
  destruct (reachable_storeInv st Hreach)
    as ([Hwf1 Hle1] & Hcap1 & [Hwf2 Hle2] & Hcap2 & _).
  rewrite <- (wf_size _ Hwf1), <- (wf_size _ Hwf2).
  repeat split; lia.
Qed.

Lemma worker_caches_bounded_witness :
  let st := onmessage (CHECK_TEXT (str "helo wrold"))
              (onmessage (INIT_DICTIONARY helloWorld) initialEngine) in
  size (checkedCache st) = base.size (cache (checkedCache st))
  /\ size (checkedCache st) <= 5000
  /\ size (regionCache st) = base.size (cache (regionCache st))
  /\ size (regionCache st) <= 1000.
Proof.
  apply worker_caches_bounded.
  apply reachable_step, reachable_step, reachable_init.
Defined.

(** The map [currentCheckCache], which every [CHECK_RESULT]
    carries, only ever maps a word to [false]. *)
Lemma currentCheckCache_only_false (st : Engine) (k : jsstring) (v : bool) :
  reachable st -> currentCheckCache st !! k = Some v -> v = false.
Proof.
  intros Hreach. destruct (reachable_storeInv st Hreach) as (_ & _ & _ & _ & H).
  apply H.
Qed.

(** X6.  In every state of the worker the caches do not change what a
    full check reports: its results are the matches of the text, in
    order, whose lower-cased word is neither a custom word nor accepted
    by the dictionary. *)
Theorem full_check_reports_invalid_words (st : Engine) (fullText : jsstring) :
  reachable st ->
  (processText fullText st).1
  = map (fun m => resultOfMatch m None) (invalidMatches st (execAll fullText)).
Proof.
  intros Hreach. destruct (reachable_cacheInv st Hreach) as (_ & Hc & _).
  unfold processText. apply (proj1 (processMatches_consistent _ st Hc)).
Qed.

Lemma full_check_reports_invalid_words_witness :
  let st := onmessage (CHECK_TEXT (str "helo world"))
              (onmessage (INIT_DICTIONARY helloWorld) initialEngine) in
  (processText (str "say helo") st).1
  = map (fun m => resultOfMatch m None)
      (invalidMatches st (execAll (str "say helo"))).
Proof.
  apply full_check_reports_invalid_words.
  apply reachable_step, reachable_step, reachable_init.
Defined.

(** X7.  Once a word has been added with [ADD_WORD], a full check of
    any text reports no word equal to it up to letter case. *)
Theorem added_word_not_reported (st : Engine) (added fullText : jsstring)
    (r : SpellCheckResult) :
  reachable st ->
  r ∈ (processText fullText (onmessage (ADD_WORD added) st)).1 ->
  toLowerCase (word r) <> toLowerCase added.
Proof.
  intros Hreach Hr Heq.
  set (st' := onmessage (ADD_WORD added) st) in *.
  assert (Hreach' : reachable st') by by apply reachable_step.
  destruct (reachable_cacheInv st' Hreach') as (_ & Hc & _).
  unfold processText in Hr.
  rewrite (proj1 (processMatches_consistent _ st' Hc)) in Hr.
  apply list_elem_of_In, in_map_iff in Hr as (m & <- & Hm).
  apply list_elem_of_In in Hm. unfold invalidMatches in Hm.
  apply list_elem_of_filter in Hm as [Hv _]. cbn [word resultOfMatch] in Heq.
  assert (Hin : toLowerCase added ∈ customWords st').
  { unfold st'. cbn [onmessage customWords postMessage].
    rewrite recheckLastText_customWords. cbn. set_solver. }
  unfold verdict in Hv. rewrite Heq in Hv.
  by rewrite (bool_decide_eq_true_2 _ Hin) in Hv.
Qed.

Lemma added_word_not_reported_witness :
  let st := onmessage (INIT_DICTIONARY helloWorld) initialEngine in
  let r := mkResult (str "say") 0 3 None in
  r ∈ (processText (str "say Helo") (onmessage (ADD_WORD (str "helo")) st)).1
  /\ toLowerCase (word r) <> toLowerCase (str "helo").
Proof.
  assert (H : mkResult (str "say") 0 3 None
              ∈ (processText (str "say Helo")
                   (onmessage (ADD_WORD (str "helo"))
                      (onmessage (INIT_DICTIONARY helloWorld) initialEngine))).1).
  { vm_compute. left. }
  split; [exact H|].
  exact (added_word_not_reported _ _ _ _
           (reachable_step _ _ reachable_init) H).
Defined.

End Stores.

(** ** The edit distance as a metric *)

Section Metric.
Import JsString Worker Spec.

Lemma levenshtein_zero (s t : jsstring) : levenshtein s t = 0 <-> s = t.
Proof.
  revert t. induction s as [|a s IH]; intros t.
  - destruct t; cbn; (split; [intros H|intros H]; (done || lia)).
  - destruct t as [|b t]; [by rewrite levenshtein_nil_r|].
    rewrite levenshtein_cons. case_bool_decide as Hab.
    + rewrite IH. subst b. split; congruence.
    + split; [lia|congruence].
Qed.

Lemma levenshtein_sym (s t : jsstring) : levenshtein s t = levenshtein t s.
Proof.
  revert t. induction s as [|a s IHs]; intros t.
  - by rewrite levenshtein_nil_r.
  - induction t as [|b t IHt]; [by rewrite levenshtein_nil_r|].
    rewrite !levenshtein_cons.
    rewrite (IHs t), (IHs (b :: t)), IHt.
    destruct (decide (a = b)) as [->|Hne].
    + by rewrite !bool_decide_eq_true_2.
    + rewrite !bool_decide_eq_false_2 by congruence. lia.
Qed.

Lemma levenshtein_max (s t : jsstring) :
  levenshtein s t <= Nat.max (length s) (length t).
Proof.
  revert t. induction s as [|a s IHs]; intros t; [cbn; lia|].
  induction t as [|b t IHt]; [rewrite levenshtein_nil_r; lia|].
  rewrite levenshtein_cons. pose proof (IHs t). cbn [length].
  case_bool_decide; lia.
Qed.

(** One more character on one side moves the distance by at most one. *)
Lemma levenshtein_step (n : nat) (s t : jsstring) (a : ascii) :
  length s + length t <= n ->
  levenshtein (a :: s) t <= S (levenshtein s t)
  /\ levenshtein s t <= S (levenshtein (a :: s) t).
Proof.
  revert s t a. induction n as [|n IH]; intros s t a Hn.
  - destruct s, t; cbn in Hn; try lia. cbn. lia.
  - destruct t as [|b t].
    + rewrite !levenshtein_nil_r. cbn. lia.
    + cbn [length] in Hn.
      destruct (IH s t a ltac:(lia)) as [H1 H2].
      destruct (IH t s b ltac:(lia)) as [H3 H4].
      rewrite (levenshtein_sym (b :: t) s), (levenshtein_sym t s) in H3, H4.
      rewrite levenshtein_cons. case_bool_decide; lia.
Qed.

Lemma levenshtein_triangle_up_to (n : nat) (s t u : jsstring) :
  length s + length t + length u <= n ->
  levenshtein s u <= levenshtein s t + levenshtein t u.
Proof.
  revert s t u. induction n as [|n IH]; intros s t u Hn.
  - destruct s, t, u; cbn in *; lia.
  - destruct s as [|a s].
    { pose proof (levenshtein_length t u). cbn. lia. }
    destruct u as [|c u].
    { pose proof (levenshtein_length (a :: s) t).
      rewrite !levenshtein_nil_r. lia. }
    destruct t as [|b t].
    { pose proof (levenshtein_max (a :: s) (c :: u)).
      rewrite levenshtein_nil_r.
      change (levenshtein [] (c :: u)) with (length (c :: u)). lia. }
    cbn [length] in Hn.
    pose proof (IH s t u ltac:(lia)).
    pose proof (IH s t (c :: u) ltac:(cbn [length]; lia)).
    pose proof (IH s (b :: t) (c :: u) ltac:(cbn [length]; lia)) as H3.
    pose proof (IH (a :: s) (b :: t) u ltac:(cbn [length]; lia)) as H4.
    pose proof (IH (a :: s) t u ltac:(cbn [length]; lia)).
    pose proof (IH (a :: s) t (c :: u) ltac:(cbn [length]; lia)) as H6.
    destruct (levenshtein_step (length s + length u) s u a (le_n _)) as [_ H7].
    destruct (levenshtein_step (length u + length s) u s c (le_n _)) as [_ H8].
    rewrite (levenshtein_sym u s), (levenshtein_sym (c :: u) s) in H8.
    rewrite !levenshtein_cons in *.
    repeat case_bool_decide; subst; try done; lia.
Qed.

(** X8.  [calculateEditDistance] is a metric on strings: it is 0
    exactly on equal strings, it does not depend on the order of its
    arguments, and it satisfies the triangle inequality. *)
Theorem calculateEditDistance_metric (str1 str2 str3 : jsstring) :
  (calculateEditDistance str1 str2 = 0 <-> str1 = str2)
  /\ calculateEditDistance str1 str2 = calculateEditDistance str2 str1
  /\ calculateEditDistance str1 str3
     <= calculateEditDistance str1 str2 + calculateEditDistance str2 str3.
Proof.
  rewrite !calculateEditDistance_levenshtein. split; [|split].
  - rewrite levenshtein_zero. split; [|by intros ->].
    intros H. apply (f_equal (@rev ascii)) in H.
    by rewrite !rev_involutive in H.
  - apply levenshtein_sym.
  - by apply (levenshtein_triangle_up_to _ _ _ _ (le_n _)).
Qed.

(** X9.  [calculateEditDistance] lies between the difference of the
    two lengths and the greater of them. *)
Theorem calculateEditDistance_bounds (str1 str2 : jsstring) :
  length str1 - length str2 <= calculateEditDistance str1 str2
  /\ length str2 - length str1 <= calculateEditDistance str1 str2
  /\ calculateEditDistance str1 str2 <= Nat.max (length str1) (length str2).
Proof.
  rewrite calculateEditDistance_levenshtein.
  pose proof (levenshtein_length (rev str1) (rev str2)) as [H1 H2].
  pose proof (levenshtein_max (rev str1) (rev str2)) as H3.
  rewrite !length_rev in H1, H2, H3. done.
Qed.

End Metric.

(** ** Suggestions for any limit *)

Section SuggestionsAnyLimit.
Import JsString LRU Worker Spec.

(** The loop stops when the list is as long as the limit or longer,
    but only after a push: it takes at least one close candidate. *)
Lemma suggestLoop_any (word : jsstring) (maxSuggestions : nat)
    (candidates suggestions : list jsstring) :
  suggestLoop word maxSuggestions candidates suggestions
  = suggestions
      ++ take (Nat.max 1 (maxSuggestions - length suggestions))
           (filter (closeEnough word) candidates).
Proof.
  revert suggestions.
  induction candidates as [|candidate rest IH]; intros suggestions.
  - cbn [suggestLoop]. by rewrite filter_nil, take_nil, app_nil_r.
  - cbn [suggestLoop]. rewrite filter_cons.
    destruct (decide (closeEnough word candidate)) as [Hc|Hn].
    + rewrite (length_test _ _ Hc), (proj2 (distance_test _ _) Hc).
      rewrite length_app. cbn [length].
      destruct (Nat.leb_spec maxSuggestions (length suggestions + 1)).
      * replace (Nat.max 1 (maxSuggestions - length suggestions)) with 1 by lia.
        cbn. by rewrite take_0.
      * rewrite IH, length_app. cbn [length]. rewrite <- app_assoc.
        replace (Nat.max 1 (maxSuggestions - length suggestions))
          with (S (Nat.max 1 (maxSuggestions - (length suggestions + 1))))
          by lia.
        done.
    + destruct ((calculateEditDistance word candidate <=? 2)
                && (0 <? calculateEditDistance word candidate)) eqn:E.
      * exfalso. apply Hn. by apply distance_test.
      * destruct (_ <=? 2)%Z; by apply IH.
Qed.

Lemma commonWords_lower (candidate : jsstring) :
  candidate ∈ commonWords -> toLowerCase candidate = candidate.
Proof.
  assert (H : forallb (fun s => bool_decide (toLowerCase s = s)) commonWords
              = true) by (vm_compute; reflexivity).
  intros Hin. rewrite forallb_forall in H.
  apply list_elem_of_In, H in Hin. by apply bool_decide_eq_true in Hin.
Qed.

(** For every limit, [getSimpleSuggestions] returns the first
    close candidates of its word list, in the order of the list: as many
    as the limit says, and one when the limit is 0. *)
Lemma getSimpleSuggestions_any_limit (word : jsstring) (maxSuggestions : nat) :
  getSimpleSuggestions word maxSuggestions
  = take (Nat.max 1 maxSuggestions) (filter (closeEnough word) commonWords).
Proof.
  unfold getSimpleSuggestions. rewrite suggestLoop_any. cbn [length app].
  by rewrite Nat.sub_0_r.
Qed.

(** X10.  In every case [getSuggestions] returns at most
    [max 1 maxSuggestions] words. *)
Theorem getSuggestions_length (st : Engine) (word : jsstring)
    (maxSuggestions : nat) :
  length (getSuggestions word maxSuggestions st) <= Nat.max 1 maxSuggestions.
Proof.
  unfold getSuggestions. destruct (dictionary st) as [d|]; [|cbn; lia].
  case_bool_decide; [cbn; lia|]. case_bool_decide; [cbn; lia|].
  destruct (length (suggest d word) =? 0).
  - unfold getSimpleSuggestions. rewrite suggestLoop_any. cbn [length app].
    rewrite length_take. lia.
  - pose proof (length_filter
                  (fun suggestion => toLowerCase suggestion <> toLowerCase word)
                  (take maxSuggestions (suggest d word))) as Hf.
    rewrite length_take in Hf. lia.
Qed.

(** X11.  [getSuggestions] never suggests the word itself, whatever
    the letter case of either. *)
Theorem getSuggestions_not_the_word (st : Engine) (word suggestion : jsstring)
    (maxSuggestions : nat) :
  suggestion ∈ getSuggestions word maxSuggestions st ->
  toLowerCase suggestion <> toLowerCase word.
Proof.
  unfold getSuggestions. destruct (dictionary st) as [d|];
    [|by intros Hx%elem_of_nil].
  case_bool_decide; [by intros Hx%elem_of_nil|].
  case_bool_decide; [by intros Hx%elem_of_nil|].
  destruct (length (suggest d word) =? 0).
  - unfold getSimpleSuggestions. rewrite suggestLoop_any. cbn [app].
    intros (i & Hi%list_elem_of_lookup_2 & _)%elem_of_take.
    apply list_elem_of_filter in Hi as [Hc Hin].
    rewrite (commonWords_lower _ Hin). intros ->.
    unfold closeEnough, editDistance in Hc.
    assert (levenshtein (rev (toLowerCase word)) (rev (toLowerCase word)) = 0)
      by by apply levenshtein_zero.
    lia.
  - by intros [Hne _]%list_elem_of_filter.
Qed.

Lemma getSuggestions_not_the_word_witness :
  let st := onmessage (INIT_DICTIONARY helloWorld) initialEngine in
  str "the" ∈ getSuggestions (str "Teh") 5 st
  /\ toLowerCase (str "the") <> toLowerCase (str "Teh").
Proof.
  assert (H : str "the"
              ∈ getSuggestions (str "Teh") 5
                  (onmessage (INIT_DICTIONARY helloWorld) initialEngine)).
  { vm_compute. left. }
  split; [exact H|]. exact (getSuggestions_not_the_word _ _ _ _ H).
Defined.

End SuggestionsAnyLimit.

(** ** The change between two texts *)

Section TextChanges.
Import JsString Utils Spec.

Lemma commonPrefix_take (a b : jsstring) :
  take (commonPrefix a b) a = take (commonPrefix a b) b.
Proof.
  revert b. induction a as [|x a IH]; intros [|y b]; cbn; try done.
  case_bool_decide; [|done]. subst y. cbn. by rewrite IH.
Qed.

Lemma commonPrefix_refl (a : jsstring) : commonPrefix a a = length a.
Proof.
  induction a as [|x a IH]; [done|]. cbn.
  by rewrite bool_decide_eq_true_2, IH.
Qed.

(** Where the first loop stops, the two texts do not both hold the
    same character. *)
Lemma commonPrefix_stop (a b : jsstring) (c : ascii) :
  a !! commonPrefix a b = Some c -> b !! commonPrefix a b <> Some c.
Proof.
  revert b. induction a as [|x a IH]; intros [|y b]; cbn; try done.
  case_bool_decide as Hxy; [apply IH|]. cbn. congruence.
Qed.

(** The quantities of [calculateTextChanges]. *)
Lemma calculateTextChanges_unfold (old new : jsstring) :
  let s := commonPrefix old new in
  let k := commonSuffixAfter s old new in
  s <= length old /\ s <= length new
  /\ k <= length old - s /\ k <= length new - s
  /\ take s old = take s new
  /\ drop (length old - k) old = drop (length new - k) new
  /\ (forall c, rev (drop s old) !! k = Some c -> rev (drop s new) !! k <> Some c).
Proof.
  intros s k. destruct (commonPrefix_le old new) as [H1 H2].
  fold s in H1, H2.
  set (A := drop s old). set (B := drop s new).
  destruct (commonPrefix_le (rev A) (rev B)) as [H3 H4].
  rewrite !length_rev in H3, H4. unfold A, B in H3, H4.
  rewrite !length_drop in H3, H4. fold A B in H3, H4.
  change (commonPrefix (rev A) (rev B)) with k in H3, H4.
  split; [done|]. split; [done|]. split; [done|]. split; [done|].
  split; [apply commonPrefix_take|]. split.
  - pose proof (commonPrefix_take (rev A) (rev B)) as Ht.
    change (commonPrefix (rev A) (rev B)) with k in Ht.
    rewrite !firstn_rev in Ht. apply rev_inj in Ht. unfold A, B in Ht.
    rewrite !length_drop, !drop_drop in Ht.
    replace (s + (length old - s - k)) with (length old - k) in Ht by lia.
    replace (s + (length new - s - k)) with (length new - k) in Ht by lia.
    done.
  - intros c. apply commonPrefix_stop.
Qed.

Lemma calculateTextChanges_same (old new : jsstring) :
  calculateTextChanges old new = [] <-> old = new.
Proof.
  destruct (calculateTextChanges_unfold old new)
    as (H1 & H2 & H3 & H4 & Hpre & Hsuf & _).
  unfold calculateTextChanges.
  set (s := commonPrefix old new) in *.
  set (k := commonSuffixAfter s old new) in *.
  split.
  - destruct (Nat.ltb_spec s (length old - k)); [done|].
    destruct (Nat.ltb_spec s (length new - k)); [done|]. intros _.
    rewrite <- (take_drop s old), <- (take_drop s new), Hpre. f_equal.
    replace s with (length old - k) at 1 by lia.
    replace s with (length new - k) by lia. done.
  - intros <-. assert (s = length old) by apply commonPrefix_refl.
    destruct (Nat.ltb_spec s (length old - k)); [lia|done].
Qed.

(** X12.  [calculateTextChanges] reports no change exactly when the two
    texts are equal. *)
Theorem calculateTextChanges_nil (old new : jsstring) :
  calculateTextChanges old new = [] <-> old = new.
Proof. apply calculateTextChanges_same. Qed.

(** X13.  A change reported by [calculateTextChanges] turns the old text
    into the new one: the new text is the old text with the part
    [oldText], found at [start], replaced by [text]; [end] is the end of
    [text] in the new text. *)
Theorem calculateTextChanges_patch (old new : jsstring) (c : TextChange) :
  c ∈ calculateTextChanges old new ->
  new = take (changeStart c) old ++ changeText c
          ++ drop (changeStart c + length (Utils.oldText c)) old
  /\ Utils.oldText c = take (length (Utils.oldText c)) (drop (changeStart c) old)
  /\ changeText c = take (length (changeText c)) (drop (changeStart c) new)
  /\ changeEnd c = changeStart c + length (changeText c).
Proof.
  destruct (calculateTextChanges_unfold old new)
    as (H1 & H2 & H3 & H4 & Hpre & Hsuf & _).
  unfold calculateTextChanges.
  set (s := commonPrefix old new) in *.
  set (k := commonSuffixAfter s old new) in *.
  destruct (_ || _); [|by intros Hc%elem_of_nil].
  intros ->%list_elem_of_singleton.
  cbn [changeStart changeEnd changeText Utils.oldText].
  assert (Hnew : slice new (Z.of_nat s) (Z.of_nat (length new - k))
                 = take (length new - k - s) (drop s new)).
  { replace (Z.of_nat (length new - k))
      with (Z.of_nat s + Z.of_nat (length new - k - s))%Z by lia.
    apply slice_take_drop. lia. }
  assert (Hold : slice old (Z.of_nat s) (Z.of_nat (length old - k))
                 = take (length old - k - s) (drop s old)).
  { replace (Z.of_nat (length old - k))
      with (Z.of_nat s + Z.of_nat (length old - k - s))%Z by lia.
    apply slice_take_drop. lia. }
  rewrite Hnew, Hold, !length_take, !length_drop.
  rewrite !Nat.min_l by lia.
  split; [|split; [done|split; [done|lia]]].
  replace (s + (length old - k - s)) with (length old - k) by lia.
  rewrite Hsuf, Hpre.
  rewrite <- (take_drop s new) at 1. f_equal.
  rewrite <- (take_drop (length new - k - s) (drop s new)) at 1. f_equal.
  rewrite drop_drop. f_equal. lia.
Qed.

Lemma calculateTextChanges_patch_witness :
  let c := mkChange 2 4 (str "LL") (str "l") in
  c ∈ calculateTextChanges (str "helo") (str "heLLo")
  /\ str "heLLo" = take 2 (str "helo") ++ str "LL" ++ drop (2 + 1) (str "helo").
Proof.
  assert (H : mkChange 2 4 (str "LL") (str "l")
              ∈ calculateTextChanges (str "helo") (str "heLLo")).
  { vm_compute. left. }
  split; [exact H|].
  exact (proj1 (calculateTextChanges_patch _ _ _ H)).
Defined.

Lemma head_take_drop (n i : nat) (l : jsstring) :
  0 < n -> head (take n (drop i l)) = l !! i.
Proof.
  intros Hn. destruct n as [|n]; [lia|].
  rewrite <- (Nat.add_0_r i) at 2. rewrite <- lookup_drop.
  by destruct (drop i l).
Qed.

Lemma last_take_rev (n : nat) (l : jsstring) :
  n <= length l -> 0 < n -> last (take n l) = rev l !! (length l - n).
Proof.
  intros Hn Hpos.
  assert (Hl : rev l = rev (drop n l) ++ rev (take n l))
    by by rewrite <- rev_app_distr, take_drop.
  rewrite Hl, lookup_app_r by (rewrite length_rev, length_drop; lia).
  rewrite length_rev, length_drop.
  replace (length l - n - (length l - n)) with 0 by lia.
  destruct (take n l) as [|x t] eqn:E using rev_ind.
  - apply (f_equal length) in E. rewrite length_take in E. cbn in E. lia.
  - by rewrite rev_unit, last_snoc.
Qed.

(** X14.  The change is as tight as the two loops make it: the removed
    part and the inserted part differ in their first characters and in
    their last characters (one of the two parts may be empty, not
    both). *)
Theorem calculateTextChanges_tight (old new : jsstring) (c : TextChange) :
  c ∈ calculateTextChanges old new ->
  head (changeText c) <> head (Utils.oldText c)
  /\ last (changeText c) <> last (Utils.oldText c).
Proof.
  destruct (calculateTextChanges_unfold old new)
    as (H1 & H2 & H3 & H4 & _ & _ & Hstop).
  pose proof (commonPrefix_stop old new) as Hstart.
  unfold calculateTextChanges.
  set (s := commonPrefix old new) in *.
  set (k := commonSuffixAfter s old new) in *.
  destruct (Nat.ltb_spec s (length old - k)) as [Ho|Ho];
    destruct (Nat.ltb_spec s (length new - k)) as [Hn|Hn]; cbn [orb];
    try (by intros Hc%elem_of_nil); intros ->%list_elem_of_singleton;
    cbn [changeText Utils.oldText].
  all: replace (Z.of_nat (length new - k))
         with (Z.of_nat s + Z.of_nat (length new - k - s))%Z by lia.
  all: replace (Z.of_nat (length old - k))
         with (Z.of_nat s + Z.of_nat (length old - k - s))%Z by lia.
  all: rewrite !slice_take_drop by lia.
  - rewrite !head_take_drop by lia.
    rewrite !last_take_rev by (rewrite ?length_drop; lia).
    rewrite !length_drop.
    replace (length new - s - (length new - k - s)) with k by lia.
    replace (length old - s - (length old - k - s)) with k by lia.
    split.
    + destruct (old !! s) as [x|] eqn:E.
      * intros Heq. by apply (Hstart x).
      * apply lookup_ge_None in E. lia.
    + destruct (rev (drop s old) !! k) as [x|] eqn:E.
      * intros Heq. by apply (Hstop x).
      * apply lookup_ge_None in E. rewrite length_rev, length_drop in E. lia.
  - replace (length new - k - s) with 0 by lia. rewrite take_0. cbn.
    destruct (take (length old - k - s) (drop s old)) as [|x t] eqn:E.
    + apply (f_equal length) in E. rewrite length_take, length_drop in E.
      cbn in E. lia.
    + split; [done|]. destruct (last (x :: t)) eqn:El; [done|].
      by apply last_None in El.
  - replace (length old - k - s) with 0 by lia. rewrite take_0. cbn.
    destruct (take (length new - k - s) (drop s new)) as [|x t] eqn:E.
    + apply (f_equal length) in E. rewrite length_take, length_drop in E.
      cbn in E. lia.
    + split; [done|]. destruct (last (x :: t)) eqn:El; [done|].
      by apply last_None in El.
Qed.

Lemma calculateTextChanges_tight_witness :
  let c := mkChange 2 4 (str "LL") (str "l") in
  c ∈ calculateTextChanges (str "helo") (str "heLLo")
  /\ head (str "LL") <> head (str "l").
Proof.
  assert (H : mkChange 2 4 (str "LL") (str "l")
              ∈ calculateTextChanges (str "helo") (str "heLLo")).
  { vm_compute. left. }
  split; [exact H|].
  exact (proj1 (calculateTextChanges_tight _ _ _ H)).
Defined.

End TextChanges.

(** ** The region around a change, for any number of context words *)

Section RegionSpans.
Import JsString WordRegex Utils Spec.

Lemma findIndexFrom_least {A} (p : A -> bool) (base : Z) (l : list A)
    (i j : nat) (x : A) :
  findIndexFrom p base l = (base + Z.of_nat i)%Z ->
  (0 <= base)%Z -> l !! j = Some x -> j < i -> p x = false.
Proof.
  revert base i j. induction l as [|y l IH]; intros base i j Hr Hb Hj Hlt;
    [done|].
  cbn in Hr. destruct (p y) eqn:Hy; [lia|].
  destruct j as [|j]; [cbn in Hj; congruence|]. cbn in Hj.
  destruct i as [|i]; [lia|].
  apply (IH (base + 1)%Z i j); [rewrite Hr|..]; (done || lia).
Qed.

Lemma findIndexFrom_none {A} (p : A -> bool) (base : Z) (l : list A) (x : A) :
  findIndexFrom p base l = (-1)%Z -> (0 <= base)%Z -> x ∈ l -> p x = false.
Proof.
  revert base. induction l as [|y l IH]; intros base Hr Hb Hx;
    [by apply elem_of_nil in Hx|].
  cbn in Hr. destruct (p y) eqn:Hy; [lia|].
  apply elem_of_cons in Hx as [->|Hx]; [done|].
  apply (IH (base + 1)%Z); (done || lia).
Qed.

(** [startWordIndex] and [endWordIndex] after the replacement of -1 by
    [words.length]: the index of the first word that ends after [s],
    and of the first word that starts at [e] or later. *)
Lemma wordIndices (text : jsstring) (s e : Z) :
  let words := wordSpans text in
  let len := length (execAll text) in
  exists swi ewi : nat,
    swi <= len /\ ewi <= len
    /\ (let i := findIndex (fun w => (s <? Z.of_nat (spanEnd w))%Z) words in
        if (i =? -1)%Z then Z.of_nat (length words) else i) = Z.of_nat swi
    /\ (let i := findIndex (fun w => (e <=? Z.of_nat (spanStart w))%Z) words in
        if (i =? -1)%Z then Z.of_nat (length words) else i) = Z.of_nat ewi
    /\ (forall k m, execAll text !! k = Some m ->
          (s < Z.of_nat (index m + length (matched m)))%Z <-> swi <= k)
    /\ (forall k m, execAll text !! k = Some m ->
          (e <= Z.of_nat (index m))%Z <-> ewi <= k).
Proof.
  intros words len.
  assert (Hlen : length words = len) by apply wordSpans_length.
  assert (Hword : forall k m, execAll text !! k = Some m ->
            words !! k = Some (mkSpan (index m) (index m + length (matched m))
                                 (matched m))).
  { intros k m Hk. unfold words. by rewrite wordSpans_lookup, Hk. }
  assert (Hmono : forall k k' m m', execAll text !! k = Some m ->
            execAll text !! k' = Some m' -> k <= k' ->
            index m <= index m'
            /\ index m + length (matched m) <= index m' + length (matched m')).
  { intros k k' m m' Hk Hk' Hle. destruct (decide (k = k')) as [->|Hne].
    - rewrite Hk in Hk'. injection Hk' as <-. lia.
    - pose proof (execFrom_ordered text 0 None 0 k k' m m' Hk Hk' ltac:(lia)).
      lia. }
  assert (Hfind : forall (p : WordSpan -> bool),
            (forall k k' m m', execAll text !! k = Some m ->
               execAll text !! k' = Some m' -> k <= k' ->
               p (mkSpan (index m) (index m + length (matched m)) (matched m))
               = true ->
               p (mkSpan (index m') (index m' + length (matched m')) (matched m'))
               = true) ->
            exists wi : nat,
              wi <= len
              /\ (let i := findIndex p words in
                  if (i =? -1)%Z then Z.of_nat (length words) else i)
                 = Z.of_nat wi
              /\ (forall k m, execAll text !! k = Some m ->
                    p (mkSpan (index m) (index m + length (matched m))
                         (matched m)) = true <-> wi <= k)).
  { intros p Hup. unfold findIndex.
    destruct (findIndexFrom_spec p 0 words) as [Hr|(i & x & Hr & Hi & Hx)].
    - exists len. split; [done|]. rewrite Hr. cbn. split; [by rewrite Hlen|].
      intros k m Hk. pose proof (lookup_lt_Some _ _ _ Hk). fold len in H.
      split; [|lia]. intros Hp.
      pose proof (findIndexFrom_none p 0 words _ Hr ltac:(lia)
                    (list_elem_of_lookup_2 _ _ _ (Hword k m Hk))).
      congruence.
    - pose proof (lookup_lt_Some _ _ _ Hi) as Hlt. rewrite Hlen in Hlt.
      exists i. split; [lia|]. rewrite Hr.
      destruct (Z.eqb_spec (0 + Z.of_nat i) (-1)); [lia|].
      split; [cbn; lia|].
      intros k m Hk. split.
      + intros Hp. destruct (Nat.le_gt_cases i k) as [|Hki]; [done|].
        pose proof (findIndexFrom_least p 0 words i k _ Hr ltac:(lia)
                      (Hword k m Hk) Hki).
        congruence.
      + intros Hik.
        destruct (execAll text !! i) as [mi|] eqn:Hmi.
        * apply (Hup i k mi m Hmi Hk Hik).
          rewrite (Hword i mi Hmi) in Hi. by injection Hi as <-.
        * apply lookup_ge_None in Hmi. fold len in Hmi. lia. }
  destruct (Hfind (fun w => (s <? Z.of_nat (spanEnd w))%Z)) as (swi & H1 & H2 & H3).
  { intros k k' m m' Hk Hk' Hle. cbn [spanEnd]. rewrite !Z.ltb_lt.
    destruct (Hmono k k' m m' Hk Hk' Hle). lia. }
  destruct (Hfind (fun w => (e <=? Z.of_nat (spanStart w))%Z))
    as (ewi & H4 & H5 & H6).
  { intros k k' m m' Hk Hk' Hle. cbn [spanStart]. rewrite !Z.leb_le.
    destruct (Hmono k k' m m' Hk Hk' Hle). lia. }
  exists swi, ewi. split; [done|]. split; [done|].
  split; [exact H2|]. split; [exact H5|]. split.
  - intros k m Hk. rewrite <- (H3 k m Hk). cbn [spanEnd]. by rewrite Z.ltb_lt.
  - intros k m Hk. rewrite <- (H6 k m Hk). cbn [spanStart]. by rewrite Z.leb_le.
Qed.

(** The region computed when the text has a word and there is at
    least one context word, by the indices of its first and last
    word. *)
Lemma expandRegionWithContext_indices (text : jsstring) (s e ctx : Z) :
  execAll text <> [] -> (s <= e)%Z -> (1 <= ctx)%Z ->
  exists (swi ewi : nat) m1 m2,
    let len := length (execAll text) in
    let i := Z.to_nat (Z.max 0 (Z.of_nat swi - ctx)) in
    let j := Z.to_nat (Z.min (Z.of_nat len) (Z.of_nat ewi + ctx) - 1) in
    swi <= ewi <= len /\ i <= j < len
    /\ execAll text !! i = Some m1 /\ execAll text !! j = Some m2
    /\ (forall k m, execAll text !! k = Some m ->
          (s < Z.of_nat (index m + length (matched m)))%Z <-> swi <= k)
    /\ (forall k m, execAll text !! k = Some m ->
          (e <= Z.of_nat (index m))%Z <-> ewi <= k)
    /\ expandRegionWithContext text s e ctx
       = mkRegion (Z.of_nat (index m1))
           (Z.of_nat (index m2 + length (matched m2)))
           (slice text (Z.of_nat (index m1))
              (Z.of_nat (index m2 + length (matched m2)))).
Proof.
  intros Hne Hse Hctx.
  destruct (wordIndices text s e) as (swi & ewi & Hs & He & Hsw & Hew & H1 & H2).
  assert (Hn : 1 <= length (execAll text)).
  { destruct (execAll text); [done|cbn; lia]. }
  assert (Hord : swi <= ewi).
  { destruct (execAll text !! ewi) as [m|] eqn:Hm.
    - apply (H1 ewi m Hm).
      pose proof (proj2 (H2 ewi m Hm) (le_n _)).
      apply list_elem_of_lookup_2, execAll_IsToken in Hm as (_ & ? & _). lia.
    - apply lookup_ge_None in Hm. lia. }
  set (len := length (execAll text)) in *.
  set (i := Z.to_nat (Z.max 0 (Z.of_nat swi - ctx))).
  set (j := Z.to_nat (Z.min (Z.of_nat len) (Z.of_nat ewi + ctx) - 1)).
  assert (Hi : i < len) by (unfold i; lia).
  assert (Hj : j < len) by (unfold j; lia).
  assert (Hij : i <= j) by (unfold i, j; lia).
  destruct (lookup_lt_is_Some_2 (execAll text) i Hi) as [m1 Hm1].
  destruct (lookup_lt_is_Some_2 (execAll text) j Hj) as [m2 Hm2].
  exists swi, ewi, m1, m2. cbn zeta. fold len i j.
  split; [lia|]. split; [lia|]. split; [done|]. split; [done|].
  split; [exact H1|]. split; [exact H2|].
  unfold expandRegionWithContext. cbv zeta in Hsw, Hew |- *.
  rewrite Hsw, Hew, wordSpans_length. fold len.
  destruct (Z.ltb_spec (Z.max 0 (Z.of_nat swi - ctx)) (Z.of_nat len)); [|lia].
  destruct (Z.ltb_spec 0 (Z.min (Z.of_nat len) (Z.of_nat ewi + ctx))); [|lia].
  unfold spanStartAt, spanEndAt. fold i j.
  rewrite !wordSpans_lookup, Hm1, Hm2. reflexivity.
Qed.

(** X15.  With at least one context word, every word of the text that
    touches the changed span [s, e] lies inside the region that
    [expandRegionWithContext] returns. *)
Theorem expandRegionWithContext_covers (text : jsstring) (s e ctx : Z)
    (m : RegExpMatch) :
  (s <= e)%Z -> (1 <= ctx)%Z ->
  m ∈ execAll text ->
  (s <= Z.of_nat (index m + length (matched m)))%Z ->
  (Z.of_nat (index m) <= e)%Z ->
  let region := expandRegionWithContext text s e ctx in
  (start region <= Z.of_nat (index m))%Z
  /\ (Z.of_nat (index m + length (matched m)) <= end_ region)%Z.
Proof.
  intros Hse Hctx Hm Hs He region.
  assert (Hne : execAll text <> []).
  { intros E. rewrite E in Hm. by apply elem_of_nil in Hm. }
  destruct (expandRegionWithContext_indices text s e ctx Hne Hse Hctx)
    as (swi & ewi & m1 & m2 & Hw & Hij & Hm1 & Hm2 & H1 & H2 & Hregion).
  cbn zeta in *. unfold region. rewrite Hregion. cbn [start end_].
  apply list_elem_of_lookup_1 in Hm as [k Hk].
  pose proof (lookup_lt_Some _ _ _ Hk) as Hklen.
  assert (Hmono : forall a b x y, execAll text !! a = Some x ->
            execAll text !! b = Some y -> a <= b ->
            index x <= index y
            /\ index x + length (matched x) <= index y + length (matched y)).
  { intros a b x y Ha Hb Hle. destruct (decide (a = b)) as [->|Hneq].
    - rewrite Ha in Hb. injection Hb as <-. lia.
    - pose proof (execFrom_ordered text 0 None 0 a b x y Ha Hb ltac:(lia)).
      lia. }
  assert (Hswi : swi <= S k).
  { destruct (execAll text !! S k) as [m'|] eqn:Hm'.
    - apply (H1 (S k) m' Hm').
      pose proof (execFrom_ordered text 0 None 0 k (S k) m m' Hk Hm'
                    ltac:(lia)).
      apply list_elem_of_lookup_2, execAll_IsToken in Hm' as (_ & ? & _). lia.
    - apply lookup_ge_None in Hm'. lia. }
  assert (Hewi : k <= ewi).
  { destruct (Nat.le_gt_cases k ewi) as [|Hlt]; [done|].
    destruct (lookup_lt_is_Some_2 (execAll text) ewi ltac:(lia)) as [m' Hm'].
    pose proof (proj2 (H2 ewi m' Hm') (le_n _)).
    pose proof (execFrom_ordered text 0 None 0 ewi k m' m Hm' Hk Hlt).
    apply list_elem_of_lookup_2, execAll_IsToken in Hm' as (_ & ? & _). lia. }
  destruct (Hmono _ k m1 m Hm1 Hk ltac:(lia)) as [Ha _].
  destruct (Hmono k _ m m2 Hk Hm2 ltac:(lia)) as [_ Hb].
  lia.
Qed.

Lemma expandRegionWithContext_covers_witness :
  let m := mkMatch 3 (str "bb") in
  m ∈ execAll (str "aa bb cc dd")
  /\ (start (expandRegionWithContext (str "aa bb cc dd") 5 6 1) <= 3)%Z
  /\ (5 <= end_ (expandRegionWithContext (str "aa bb cc dd") 5 6 1))%Z.
Proof.
  assert (H : mkMatch 3 (str "bb") ∈ execAll (str "aa bb cc dd")).
  { vm_compute. right. left. }
  split; [exact H|].
  exact (expandRegionWithContext_covers (str "aa bb cc dd") 5 6 1
           (mkMatch 3 (str "bb")) ltac:(lia) ltac:(lia) H
           ltac:(cbn; lia) ltac:(cbn; lia)).
Defined.

(** Without a word in the text the region is the changed span. *)
Lemma expandRegionWithContext_no_word (text : jsstring) (s e ctx : Z) :
  execAll text = [] ->
  expandRegionWithContext text s e ctx = mkRegion s e (slice text s e).
Proof.
  intros E. unfold expandRegionWithContext, wordSpans. rewrite E.
  cbv zeta. cbn [map length findIndex findIndexFrom].
  change (-1 =? -1)%Z with true. cbv iota.
  change (Z.of_nat 0) with 0%Z.
  destruct (Z.ltb_spec (Z.max 0 (0 - ctx)) 0); [lia|].
  destruct (Z.ltb_spec 0 (Z.min 0 (0 + ctx))); [lia|]. reflexivity.
Qed.

(** The span of the region lies in the text. *)
Lemma expandRegionWithContext_bounds (text : jsstring) (s e ctx : Z) :
  (0 <= s <= e)%Z -> (e <= Z.of_nat (length text))%Z -> (1 <= ctx)%Z ->
  let region := expandRegionWithContext text s e ctx in
  (0 <= start region <= end_ region)%Z
  /\ (end_ region <= Z.of_nat (length text))%Z
  /\ Utils.text region = slice text (start region) (end_ region).
Proof.
  intros Hse He Hctx region.
  split; [|split; [|reflexivity]].
  - destruct (decide (execAll text = [])) as [E|Hne].
    + unfold region. rewrite expandRegionWithContext_no_word by done.
      cbn [start end_]. lia.
    + destruct (expandRegionWithContext_indices text s e ctx Hne ltac:(lia) Hctx)
        as (swi & ewi & m1 & m2 & Hw & Hij & Hm1 & Hm2 & _ & _ & Hregion).
      cbn zeta in *. unfold region. rewrite Hregion. cbn [start end_].
      destruct (decide (Z.to_nat (Z.max 0 (Z.of_nat swi - ctx))
                        = Z.to_nat (Z.min (Z.of_nat (length (execAll text)))
                                      (Z.of_nat ewi + ctx) - 1))) as [E|Hneq].
      * rewrite E, Hm2 in Hm1. injection Hm1 as <-. lia.
      * pose proof (execFrom_ordered text 0 None 0 _ _ m1 m2 Hm1 Hm2
                      ltac:(lia)). lia.
  - destruct (decide (execAll text = [])) as [E|Hne].
    + unfold region. rewrite expandRegionWithContext_no_word by done.
      cbn [start end_]. lia.
    + destruct (expandRegionWithContext_indices text s e ctx Hne ltac:(lia) Hctx)
        as (swi & ewi & m1 & m2 & Hw & Hij & Hm1 & Hm2 & _ & _ & Hregion).
      cbn zeta in *. unfold region. rewrite Hregion. cbn [start end_].
      apply list_elem_of_lookup_2, execAll_IsToken in Hm2 as (_ & _ & ? & _).
      lia.
Qed.

(** X16.  [calculateIncrementalCheckRegions] returns no region or one
    region.  It returns none exactly when the two texts are equal and
    not empty.  With at least one context word, the region lies in the
    new text and its [text] is the new text between [start] and
    [end]. *)
Theorem calculateIncrementalCheckRegions_shape (oldText newText : jsstring)
    (contextWords : Z) :
  (1 <= contextWords)%Z ->
  let regions := calculateIncrementalCheckRegions oldText newText contextWords in
  length regions <= 1
  /\ (regions = [] <-> oldText = newText /\ oldText <> [])
  /\ (forall region, region ∈ regions ->
        (0 <= start region <= end_ region)%Z
        /\ (end_ region <= Z.of_nat (length newText))%Z
        /\ Utils.text region = slice newText (start region) (end_ region)).
Proof.
  intros Hctx regions. unfold regions, calculateIncrementalCheckRegions.
  destruct (bool_decide (oldText = []) || bool_decide (newText = [])) eqn:Hb.
  - split; [cbn; lia|]. split.
    + split; [done|]. intros [<- Hne].
      apply orb_true_iff in Hb as [Hb|Hb]; by apply bool_decide_eq_true in Hb.
    + intros region ->%list_elem_of_singleton. cbn [start end_ Utils.text].
      split; [lia|]. split; [lia|]. symmetry. apply slice_full.
  - apply orb_false_iff in Hb as [Hold Hnew].
    apply bool_decide_eq_false in Hold, Hnew.
    pose proof (calculateTextChanges_same oldText newText) as Hnil.
    destruct (calculateTextChanges_cases oldText newText)
      as [E|(c & E & Hspan)]; rewrite E in *.
    + cbn. split; [lia|]. split; [|by intros r Hr%elem_of_nil].
      split; [intros _|done]. split; [by apply Hnil|done].
    + cbn [length Nat.eqb map]. unfold mergeOverlappingRegions.
      cbn [length Nat.leb]. split; [lia|]. split.
      * split; [done|]. intros [Heq _]. apply Hnil in Heq. done.
      * intros region ->%list_elem_of_singleton.
        apply expandRegionWithContext_bounds; lia.
Qed.

Lemma calculateIncrementalCheckRegions_shape_witness :
  let regions :=
    calculateIncrementalCheckRegions (str "helo wrld") (str "helo world") 2 in
  length regions <= 1
  /\ (regions = [] <-> str "helo wrld" = str "helo world" /\ str "helo wrld" <> []).
Proof.
  pose proof (calculateIncrementalCheckRegions_shape
                (str "helo wrld") (str "helo world") 2 ltac:(lia))
    as (H1 & H2 & _).
  split; [exact H1|exact H2].
Defined.

End RegionSpans.

(** ** The spans of merged regions *)

Section MergedSpans.
Import JsString Utils Spec.
Implicit Types (r a b : IncrementalCheckRegion) (l : list IncrementalCheckRegion).

Lemma apart_singleton r : apart [r].
Proof. intros i a b Ha Hb. destruct i; cbn in Hb; done. Qed.

Lemma apart_snoc l a b :
  apart (l ++ [a]) -> (end_ a < start b)%Z -> apart ((l ++ [a]) ++ [b]).
Proof.
  intros H Hab i x y Hx Hy.
  destruct (decide (S i < length (l ++ [a]))) as [Hlt|Hge].
  - rewrite lookup_app_l in Hx by lia. rewrite lookup_app_l in Hy by lia.
    by apply (H i).
  - pose proof (lookup_lt_Some _ _ _ Hy) as Hlen.
    rewrite length_app in Hlen. cbn in Hlen.
    assert (Hi : S i = length (l ++ [a])) by lia.
    rewrite Hi, lookup_app_r, Nat.sub_diag in Hy by lia.
    cbn in Hy. injection Hy as <-.
    rewrite lookup_app_l in Hx by lia.
    rewrite length_app in Hi. cbn in Hi.
    rewrite lookup_app_r in Hx by lia.
    replace (i - length l) with 0 in Hx by lia. cbn in Hx.
    by injection Hx as <-.
Qed.

Lemma apart_last l a a' :
  apart (l ++ [a]) -> start a' = start a -> apart (l ++ [a']).
Proof.
  intros H Hs i x y Hx Hy.
  pose proof (lookup_lt_Some _ _ _ Hy) as Hlen.
  rewrite length_app in Hlen. cbn in Hlen.
  rewrite lookup_app_l in Hx by lia.
  destruct (decide (S i < length l)) as [Hlt|Hge].
  - rewrite lookup_app_l in Hy by lia.
    apply (H i); by rewrite lookup_app_l by lia.
  - rewrite lookup_app_r in Hy by lia.
    replace (S i - length l) with 0 in Hy by lia. cbn in Hy.
    injection Hy as <-. rewrite Hs.
    apply (H i x a); [by rewrite lookup_app_l by lia|].
    rewrite lookup_app_r by lia.
    by replace (S i - length l) with 0 by lia.
Qed.

Lemma mergeStep_apart (acc : list IncrementalCheckRegion * IncrementalCheckRegion)
    (current : IncrementalCheckRegion) :
  apart (acc.1 ++ [acc.2]) ->
  apart ((mergeStep acc current).1 ++ [(mergeStep acc current).2]).
Proof.
  destruct acc as [done lastR]. cbn [fst snd]. intros H. unfold mergeStep.
  destruct (Z.leb_spec (start current) (end_ lastR)); cbn [fst snd].
  - by apply (apart_last done lastR).
  - apply apart_snoc; [done|lia].
Qed.

Lemma fold_mergeStep_apart (rest : list IncrementalCheckRegion)
    (acc : list IncrementalCheckRegion * IncrementalCheckRegion) :
  apart (acc.1 ++ [acc.2]) ->
  apart ((fold_left mergeStep rest acc).1 ++ [(fold_left mergeStep rest acc).2]).
Proof.
  revert acc. induction rest as [|current rest IH]; intros acc H; [done|].
  cbn [fold_left]. by apply IH, mergeStep_apart.
Qed.

(** X17.  In the result of [mergeOverlappingRegions] every region
    starts after the end of the region before it: the spans are in
    order and neither touch nor overlap. *)
Theorem mergeOverlappingRegions_apart (regions : list IncrementalCheckRegion)
    (i : nat) (a b : IncrementalCheckRegion) :
  mergeOverlappingRegions regions !! i = Some a ->
  mergeOverlappingRegions regions !! S i = Some b ->
  (end_ a < start b)%Z.
Proof.
  unfold mergeOverlappingRegions.
  destruct (Nat.leb_spec (length regions) 1) as [Hle|Hgt].
  - intros Ha Hb. apply lookup_lt_Some in Hb. lia.
  - destruct (sortByStart regions) as [|first rest]; [done|].
    pose proof (fold_mergeStep_apart rest ([], first) (apart_singleton first))
      as H.
    destruct (fold_left mergeStep rest ([], first)) as [done lastR].
    apply H.
Qed.

Lemma mergeOverlappingRegions_apart_witness :
  let regions := [mkRegion 6 9 (str "ghi"); mkRegion 0 2 (str "ab");
                  mkRegion 1 4 (str "bcd")] in
  mergeOverlappingRegions regions !! 0 = Some (mkRegion 0 4 (str "bcd"))
  /\ mergeOverlappingRegions regions !! 1 = Some (mkRegion 6 9 (str "ghi"))
  /\ (4 < 6)%Z.
Proof.
  assert (H0 : mergeOverlappingRegions
                 [mkRegion 6 9 (str "ghi"); mkRegion 0 2 (str "ab");
                  mkRegion 1 4 (str "bcd")] !! 0
               = Some (mkRegion 0 4 (str "bcd"))) by (vm_compute; reflexivity).
  assert (H1 : mergeOverlappingRegions
                 [mkRegion 6 9 (str "ghi"); mkRegion 0 2 (str "ab");
                  mkRegion 1 4 (str "bcd")] !! 1
               = Some (mkRegion 6 9 (str "ghi"))) by (vm_compute; reflexivity).
  split; [exact H0|]. split; [exact H1|].
  exact (mergeOverlappingRegions_apart _ 0 _ _ H0 H1).
Defined.

Lemma insertByStart_elem r x l :
  x ∈ insertByStart r l <-> x = r \/ x ∈ l.
Proof.
  induction l as [|y l IH]; cbn.
  - rewrite list_elem_of_singleton. set_solver.
  - destruct (start r <=? start y)%Z.
    + by rewrite elem_of_cons.
    + rewrite !elem_of_cons, IH. tauto.
Qed.

Lemma sortByStart_elem x l : x ∈ sortByStart l <-> x ∈ l.
Proof.
  induction l as [|y l IH]; [done|]. cbn [sortByStart foldr].
  fold (sortByStart l). rewrite insertByStart_elem, elem_of_cons, IH. tauto.
Qed.

Lemma insertByStart_sorted r l :
  StronglySorted (fun a b => (start a <= start b)%Z) l ->
  StronglySorted (fun a b => (start a <= start b)%Z) (insertByStart r l).
Proof.
  induction l as [|y l IH]; intros Hs; cbn.
  - repeat constructor.
  - apply StronglySorted_inv in Hs as [Hs Hy].
    destruct (Z.leb_spec (start r) (start y)).
    + constructor; [by constructor|].
      constructor; [done|]. eapply Forall_impl; [exact Hy|]. cbn. lia.
    + constructor; [by apply IH|].
      apply Forall_forall. intros x Hx.
      apply insertByStart_elem in Hx as [->|Hx]; [lia|].
      rewrite Forall_forall in Hy. by apply Hy.
Qed.

Lemma sortByStart_sorted l :
  StronglySorted (fun a b => (start a <= start b)%Z) (sortByStart l).
Proof.
  induction l as [|y l IH]; [constructor|]. cbn [sortByStart foldr].
  by apply insertByStart_sorted.
Qed.

Lemma within_snoc r l b : within r l -> within r (l ++ [b]).
Proof.
  intros (o & Ho & H). exists o. split; [|done]. apply elem_of_app. by left.
Qed.

Lemma within_last r l a a' :
  within r (l ++ [a]) -> start a' = start a -> (end_ a <= end_ a')%Z ->
  within r (l ++ [a']).
Proof.
  intros (o & Ho & H1 & H2) Hs He.
  apply elem_of_app in Ho as [Ho|Ho%list_elem_of_singleton].
  - exists o. split; [apply elem_of_app; by left|done].
  - subst o. exists a'. split; [apply elem_of_app; right; by left|lia].
Qed.

(** The loop over the sorted regions keeps every region seen so far
    inside the merged list. *)
Lemma fold_mergeStep_within (rest seen : list IncrementalCheckRegion)
    (acc : list IncrementalCheckRegion * IncrementalCheckRegion) :
  Forall (fun c => (start acc.2 <= start c)%Z) rest ->
  StronglySorted (fun a b => (start a <= start b)%Z) rest ->
  (forall r, r ∈ seen -> within r (acc.1 ++ [acc.2])) ->
  forall r, r ∈ seen ++ rest ->
    within r ((fold_left mergeStep rest acc).1
                ++ [(fold_left mergeStep rest acc).2]).
Proof.
  revert seen acc. induction rest as [|current rest IH];
    intros seen acc Hfirst Hsorted Hseen r Hr.
  - rewrite app_nil_r in Hr. by apply Hseen.
  - cbn [fold_left].
    apply Forall_cons in Hfirst as [Hcur Hfirst].
    apply StronglySorted_inv in Hsorted as [Hsorted Hall].
    apply (IH (seen ++ [current])); [| |
      |by rewrite <- app_assoc].
    + destruct acc as [done lastR]. unfold mergeStep. cbn [snd] in *.
      destruct (Z.leb_spec (start current) (end_ lastR)); cbn [snd]; done.
    + done.
    + intros x Hx. destruct acc as [done lastR]. unfold mergeStep.
      cbn [fst snd] in *.
      apply elem_of_app in Hx as [Hx|Hx%list_elem_of_singleton].
      * specialize (Hseen x Hx).
        destruct (Z.leb_spec (start current) (end_ lastR)); cbn [fst snd].
        -- apply (within_last x done lastR); [done|done|cbn; lia].
        -- by apply within_snoc.
      * subst x.
        destruct (Z.leb_spec (start current) (end_ lastR)); cbn [fst snd].
        -- eexists. split; [apply elem_of_app; right; by left|]. cbn. lia.
        -- exists current. split; [apply elem_of_app; right; by left|lia].
Qed.

(** X18.  [mergeOverlappingRegions] loses nothing: the span of every
    given region lies inside the span of a region of the result. *)
Theorem mergeOverlappingRegions_covers (regions : list IncrementalCheckRegion)
    (r : IncrementalCheckRegion) :
  r ∈ regions ->
  exists o, o ∈ mergeOverlappingRegions regions
            /\ (start o <= start r)%Z /\ (end_ r <= end_ o)%Z.
Proof.
  intros Hr. unfold mergeOverlappingRegions.
  destruct (Nat.leb_spec (length regions) 1) as [Hle|Hgt].
  { exists r. split; [done|lia]. }
  pose proof (sortByStart_sorted regions) as Hsorted.
  apply sortByStart_elem in Hr.
  destruct (sortByStart regions) as [|first rest];
    [by apply elem_of_nil in Hr|].
  apply StronglySorted_inv in Hsorted as [Hsorted Hfirst].
  pose proof (fold_mergeStep_within rest [first] ([], first) Hfirst Hsorted)
    as H.
  destruct (fold_left mergeStep rest ([], first)) as [done lastR].
  apply H; [|done].
  intros x ->%list_elem_of_singleton. exists first. split; [by left|lia].
Qed.

Lemma mergeOverlappingRegions_covers_witness :
  let regions := [mkRegion 6 9 (str "ghi"); mkRegion 0 2 (str "ab");
                  mkRegion 1 4 (str "bcd")] in
  mkRegion 0 2 (str "ab") ∈ regions
  /\ exists o, o ∈ mergeOverlappingRegions regions
               /\ (start o <= 0)%Z /\ (2 <= end_ o)%Z.
Proof.
  assert (H : mkRegion 0 2 (str "ab")
              ∈ [mkRegion 6 9 (str "ghi"); mkRegion 0 2 (str "ab");
                 mkRegion 1 4 (str "bcd")]) by (right; left).
  split; [exact H|]. exact (mergeOverlappingRegions_covers _ _ H).
Defined.

End MergedSpans.

(** ** The text of the regions after the merging step *)

Section MergedText.
Import JsString WordRegex Utils Spec.





End MergedText.

(** ** The two dictionaries *)

Section Dictionaries.
Import JsString Spec.

Lemma checkFrom_insertFrom (chars chars' : jsstring)
    (node : DictionaryTrie.TrieNode) :
  DictionaryTrie.checkFrom chars' (DictionaryTrie.insertFrom chars node)
  = bool_decide (chars' = chars) || DictionaryTrie.checkFrom chars' node.
Proof.
  revert chars' node. induction chars as [|c chars IH]; intros chars' node.
  - destruct chars' as [|c' chars']; [done|]. cbn.
    by rewrite bool_decide_eq_false_2.
  - destruct chars' as [|c' chars']; cbn.
    { by rewrite bool_decide_eq_false_2. }
    destruct (decide (c' = c)) as [->|Hne].
    + rewrite lookup_insert_eq, IH.
      destruct (DictionaryTrie.children node !! c) as [child|] eqn:E; cbn.
      * f_equal. apply bool_decide_ext. split; congruence.
      * assert (DictionaryTrie.checkFrom chars' DictionaryTrie.newNode = false)
          as -> by by destruct chars'.
        f_equal. apply bool_decide_ext. split; congruence.
    + rewrite lookup_insert_ne by done.
      rewrite bool_decide_eq_false_2 by congruence. done.
Qed.

(** X19.  In any trie, [check] after [insert] finds the inserted word
    in any letter case, and answers as before for every other word. *)
Theorem trie_check_insert (word word' : jsstring)
    (root : DictionaryTrie.TrieNode) :
  DictionaryTrie.check word' (DictionaryTrie.insert word root)
  = bool_decide (toLowerCase word' = toLowerCase word)
    || DictionaryTrie.check word' root.
Proof. apply checkFrom_insertFrom. Qed.

Lemma trie_check_fold (words : list jsstring) (word : jsstring)
    (root : DictionaryTrie.TrieNode) :
  DictionaryTrie.check word
    (foldl (fun root word => DictionaryTrie.insert word root) root words)
  = bool_decide (toLowerCase word ∈ map toLowerCase words)
    || DictionaryTrie.check word root.
Proof.
  revert root. induction words as [|w words IH]; intros root; cbn [foldl map].
  - rewrite bool_decide_eq_false_2; [done|]. by intros H%elem_of_nil.
  - rewrite IH. unfold DictionaryTrie.check, DictionaryTrie.insert.
    rewrite checkFrom_insertFrom.
    destruct (decide (toLowerCase word = toLowerCase w)) as [Heq|Hne].
    + rewrite (bool_decide_eq_true_2 (_ = _)) by done.
      rewrite (bool_decide_eq_true_2 (_ ∈ _ :: _)) by (rewrite Heq; by left).
      by rewrite orb_true_r.
    + rewrite (bool_decide_eq_false_2 (_ = _)) by done. cbn [orb].
      f_equal. apply bool_decide_ext. rewrite elem_of_cons. tauto.
Qed.

(** X20.  The trie built by the constructor accepts exactly the words
    of the list, in any letter case. *)
Theorem trie_check_create (words : list jsstring) (word : jsstring) :
  DictionaryTrie.check word (DictionaryTrie.create words)
  = bool_decide (toLowerCase word ∈ map toLowerCase words).
Proof.
  unfold DictionaryTrie.create. rewrite trie_check_fold.
  assert (DictionaryTrie.check word DictionaryTrie.newNode = false) as ->.
  { unfold DictionaryTrie.check. by destruct (toLowerCase word). }
  apply orb_false_r.
Qed.

Lemma indexed_create (words : list jsstring) :
  indexed (EnglishDictionary.create words).
Proof.
  unfold indexed, EnglishDictionary.create. cbn.
  generalize (list_to_set (map toLowerCase words) : gset jsstring).
  intros X.
  apply (set_fold_ind_L
           (fun m (X : gset jsstring) =>
              forall w, w ∈ X -> is_Some (m !! EnglishDictionary.prefixOf w))).
  - intros w Hw. by apply not_elem_of_empty in Hw.
  - intros x Y m Hx IH w Hw.
    destruct (decide (EnglishDictionary.prefixOf w = EnglishDictionary.prefixOf x))
      as [->|Hne].
    + rewrite lookup_insert_eq. by eexists.
    + rewrite lookup_insert_ne by done. apply IH. set_solver.
Qed.

Lemma indexed_insert (word : jsstring) (d : EnglishDictionary.State) :
  indexed d -> indexed (EnglishDictionary.insert word d).
Proof.
  intros H w Hw. unfold EnglishDictionary.insert in *. cbn in *.
  destruct (decide (EnglishDictionary.prefixOf w
                    = EnglishDictionary.prefixOf (toLowerCase word)))
    as [->|Hne].
  - rewrite lookup_insert_eq. by eexists.
  - rewrite lookup_insert_ne by done. apply H.
    apply elem_of_union in Hw as [Hw%elem_of_singleton|Hw]; [|done].
    by subst w.
Qed.

Lemma indexed_fold (more : list jsstring) (d : EnglishDictionary.State) :
  indexed d ->
  indexed (foldl (fun d word => EnglishDictionary.insert word d) d more)
  /\ EnglishDictionary.wordSet
       (foldl (fun d word => EnglishDictionary.insert word d) d more)
     = list_to_set (map toLowerCase more) ∪ EnglishDictionary.wordSet d.
Proof.
  revert d. induction more as [|w more IH]; intros d H; cbn [foldl map].
  - split; [done|]. cbn. set_solver.
  - destruct (IH _ (indexed_insert w d H)) as [H1 H2]. split; [done|].
    rewrite H2. cbn. set_solver.
Qed.

Lemma check_indexed (word : jsstring) (d : EnglishDictionary.State) :
  indexed d ->
  EnglishDictionary.check word d
  = bool_decide (toLowerCase word ∈ EnglishDictionary.wordSet d).
Proof.
  intros H. unfold EnglishDictionary.check. cbv zeta.
  destruct (decide (toLowerCase word ∈ EnglishDictionary.wordSet d)) as [Hin|Hn].
  - rewrite (bool_decide_eq_true_2 (is_Some _)) by by apply H.
    done.
  - rewrite (bool_decide_eq_false_2 (_ ∈ _)) by done.
    by destruct (negb _).
Qed.

Lemma dictionary_check_aux (words : list jsstring) (word : jsstring) :
  EnglishDictionary.check word (EnglishDictionary.create words)
  = bool_decide (toLowerCase word ∈ map toLowerCase words).
Proof.
  rewrite (check_indexed _ _ (indexed_create words)).
  apply bool_decide_ext. cbn. by rewrite elem_of_list_to_set.
Qed.

(** X21.  In a dictionary built by the constructor and any number of
    [insert] calls, the prefix index never rejects a word of the set:
    [check] accepts exactly the words given to the constructor or
    inserted, in any letter case. *)
Theorem dictionary_check (words more : list jsstring) (word : jsstring) :
  EnglishDictionary.check word
    (foldl (fun d w => EnglishDictionary.insert w d)
       (EnglishDictionary.create words) more)
  = bool_decide (toLowerCase word ∈ map toLowerCase (words ++ more)).
Proof.
  destruct (indexed_fold more _ (indexed_create words)) as [H1 H2].
  rewrite (check_indexed _ _ H1), H2. apply bool_decide_ext.
  cbn. rewrite elem_of_union, !elem_of_list_to_set, map_app, elem_of_app.
  tauto.
Qed.

(** X22.  Built from the same word list, the trie and the dictionary
    with the prefix index accept the same words. *)
Theorem trie_agrees_with_dictionary (words : list jsstring) (word : jsstring) :
  DictionaryTrie.check word (DictionaryTrie.create words)
  = EnglishDictionary.check word (EnglishDictionary.create words).
Proof.
  unfold DictionaryTrie.create.
  rewrite trie_check_fold, dictionary_check_aux.
  assert (DictionaryTrie.check word DictionaryTrie.newNode = false) as ->.
  { unfold DictionaryTrie.check. by destruct (toLowerCase word). }
  apply orb_false_r.
Qed.

End Dictionaries.

(** ** The custom dictionary and the worker *)

Section CustomWords.
Import JsString WordRegex CustomDictionary Spec.

Lemma handleAll_app (a b : list Worker.Request) (st : Worker.Engine) :
  handleAll (a ++ b) st = handleAll b (handleAll a st).
Proof. apply foldl_app. Qed.

Lemma inStep_refl (d : State) : inStep d d.
Proof.
  split; [done|]. split; [done|]. split; [done|].
  intros sent Hw. exists []. by rewrite app_nil_r.
Qed.

Lemma inStep_trans (d0 d1 d2 : State) :
  inStep d0 d1 -> inStep d1 d2 -> inStep d0 d2.
Proof.
  intros (Hm1 & Ha1 & Hs1 & Hw1) (Hm2 & Ha2 & Hs2 & Hw2).
  split; [congruence|]. split; [congruence|]. split.
  - intros H. rewrite Hm1 in Hs2. auto.
  - intros sent Hsent. destruct (Hw1 sent Hsent) as (more1 & Hd1 & Hst1).
    destruct (Hw2 _ Hd1) as (more2 & Hd2 & Hst2).
    exists (more1 ++ more2). split; [by rewrite app_assoc|].
    intros st Hst. rewrite handleAll_app. by apply Hst2, Hst1.
Qed.

(** The same for a dictionary that differs from [d] by its set, its
    message log and its save counter. *)
Lemma inStep_intro (d : State) (ws : gset jsstring)
    (w : option (list Worker.Request)) (n : nat) (more : list Worker.Request) :
  ((Z.of_nat (base.size (words d)) <= maxWords d)%Z ->
   (Z.of_nat (base.size ws) <= maxWords d)%Z) ->
  (forall sent, worker d = Some sent -> w = Some (sent ++ more)) ->
  (forall st, Worker.customWords st = words d ->
     Worker.customWords (handleAll more st) = ws) ->
  inStep d (mkState ws (maxWords d) (autoSave d) w n).
Proof.
  intros Hs Hw Hst. split; [done|]. split; [done|]. split; [done|].
  intros sent Hsent. exists more. split; [by apply Hw|done].
Qed.

Lemma Forall_trimStart (P : ascii -> Prop) (s : jsstring) :
  Forall P s -> Forall P (trimStart s).
Proof.
  induction 1 as [|c s Hc Hs IH]; cbn; [done|].
  destruct (isWhiteSpace c); [done|by constructor].
Qed.

Lemma Forall_trim (P : ascii -> Prop) (s : jsstring) :
  Forall P s -> Forall P (trim s).
Proof.
  intros H. unfold trim.
  apply Forall_forall. intros c Hc%list_elem_of_In%in_rev%list_elem_of_In.
  revert c Hc. apply Forall_forall, Forall_trimStart.
  apply Forall_forall. intros c Hc%list_elem_of_In%in_rev%list_elem_of_In.
  revert c Hc. by apply Forall_forall, Forall_trimStart.
Qed.

(** The word that [addWord] and [removeWord] work with is its own
    lower-case form, which is what the worker stores. *)
Lemma normalized_lower (s : jsstring) :
  toLowerCase (trim (toLowerCase s)) = trim (toLowerCase s).
Proof.
  assert (H : Forall (fun c => toLowerChar c = c) (trim (toLowerCase s))).
  { apply Forall_trim. unfold toLowerCase. apply Forall_forall.
    intros c Hc%list_elem_of_In%in_map_iff. destruct Hc as (c0 & <- & _).
    apply toLowerChar_idempotent. }
  unfold toLowerCase at 1. induction H as [|c l Hc Hl IH]; [done|].
  cbn. by rewrite Hc, IH.
Qed.

Lemma customWords_ADD_WORD (w : jsstring) (st : Worker.Engine) :
  Worker.customWords (Worker.onmessage (Worker.ADD_WORD w) st)
  = {[ toLowerCase w ]} ∪ Worker.customWords st.
Proof.
  cbn [Worker.onmessage Worker.customWords Worker.postMessage].
  by rewrite recheckLastText_customWords.
Qed.

Lemma customWords_REMOVE_WORD (w : jsstring) (st : Worker.Engine) :
  Worker.customWords (Worker.onmessage (Worker.REMOVE_WORD w) st)
  = Worker.customWords st ∖ {[ toLowerCase w ]}.
Proof.
  cbn [Worker.onmessage Worker.customWords Worker.postMessage].
  by rewrite recheckLastText_customWords.
Qed.

Lemma addWord_inStep (v : JsValue) (d : State) : inStep d (addWord v d).2.
Proof.
  unfold addWord. destruct (falsy v); [apply inStep_refl|].
  destruct v as [| | | |s|]; try apply inStep_refl.
  destruct (_ || _); [apply inStep_refl|].
  set (n := trim (toLowerCase s)).
  destruct (Z.leb_spec (maxWords d) (Z.of_nat (base.size (words d))))
    as [Hfull|Hroom]; cbn [andb].
  - destruct (decide (n ∈ words d)) as [Hin|Hnot].
    + rewrite (bool_decide_eq_true_2 _ Hin). cbn [negb snd].
      assert (Heq : {[n]} ∪ words d = words d) by set_solver.
      rewrite Heq. apply (inStep_intro d (words d) (worker d) (saves d) []).
      * done.
      * intros sent ->. by rewrite app_nil_r.
      * done.
    + rewrite (bool_decide_eq_false_2 _ Hnot). cbn [negb]. apply inStep_refl.
  - destruct (decide (n ∈ words d)) as [Hin|Hnot].
    + rewrite (bool_decide_eq_true_2 _ Hin). cbn [negb snd].
      assert (Heq : {[n]} ∪ words d = words d) by set_solver.
      rewrite Heq. apply (inStep_intro d (words d) (worker d) (saves d) []).
      * done.
      * intros sent ->. by rewrite app_nil_r.
      * done.
    + rewrite (bool_decide_eq_false_2 _ Hnot). cbn [negb snd].
      apply (inStep_intro d _ _ _ [Worker.ADD_WORD n]).
      * intros _. rewrite size_union by set_solver.
        rewrite size_singleton. lia.
      * by intros sent ->.
      * intros st Hst. unfold handleAll. cbn [foldl].
        rewrite customWords_ADD_WORD, Hst.
        unfold n. by rewrite normalized_lower.
Qed.

Lemma removeWord_inStep (word : jsstring) (d : State) :
  inStep d (removeWord word d).2.
Proof.
  unfold removeWord. cbv zeta. set (n := trim (toLowerCase word)).
  destruct (decide (n ∈ words d)) as [Hin|Hnot].
  - rewrite (bool_decide_eq_true_2 _ Hin). cbn [snd].
    apply (inStep_intro d _ _ _ [Worker.REMOVE_WORD n]).
    + intros H.
      pose proof (subseteq_size (words d ∖ {[n]}) (words d) ltac:(set_solver)).
      lia.
    + by intros sent ->.
    + intros st Hst. unfold handleAll. cbn [foldl].
      rewrite customWords_REMOVE_WORD, Hst.
      unfold n. by rewrite normalized_lower.
  - rewrite (bool_decide_eq_false_2 _ Hnot). cbn [snd].
    assert (Heq : words d ∖ {[n]} = words d) by set_solver.
    rewrite Heq. apply (inStep_intro d (words d) (worker d) (saves d) []).
    + done.
    + intros sent ->. by rewrite app_nil_r.
    + done.
Qed.

Lemma addWords_inStep (ws : list jsstring) (d : State) :
  inStep d (addWords ws d).2.
Proof.
  revert d. induction ws as [|w ws IH]; intros d; [apply inStep_refl|].
  cbn [addWords]. pose proof (addWord_inStep (VString w) d) as H1.
  destruct (addWord (VString w) d) as [ok d1]. cbn [snd] in H1.
  specialize (IH d1). destruct (addWords ws d1) as [[added failed] d2].
  cbn [snd] in IH. destruct ok; cbn [snd]; by apply (inStep_trans d d1 d2).
Qed.

Lemma removeWords_inStep (ws : list jsstring) (d : State) :
  inStep d (removeWords ws d).2.
Proof.
  revert d. induction ws as [|w ws IH]; intros d; [apply inStep_refl|].
  cbn [removeWords]. pose proof (removeWord_inStep w d) as H1.
  destruct (removeWord w d) as [ok d1]. cbn [snd] in H1.
  specialize (IH d1). destruct (removeWords ws d1) as [[removed notFound] d2].
  cbn [snd] in IH. destruct ok; cbn [snd]; by apply (inStep_trans d d1 d2).
Qed.

Lemma clear_inStep (d : State) : inStep d (clear d).
Proof.
  unfold clear. apply (inStep_intro d ∅ _ _ [Worker.CLEAR_WORDS]).
  - rewrite size_empty. lia.
  - by intros sent ->.
  - done.
Qed.

Lemma callsDictionary_inStep (os : list DictionaryCall) (d : State) :
  inStep d (callsDictionary os d).
Proof.
  revert d. induction os as [|o os IH]; intros d; [apply inStep_refl|].
  cbn. apply (inStep_trans d (callDictionary o d)); [|apply IH].
  destruct o; cbn [callDictionary].
  - apply addWord_inStep.
  - apply removeWord_inStep.
  - apply addWords_inStep.
  - apply removeWords_inStep.
  - apply clear_inStep.
  - apply addWords_inStep.
Qed.

(** X23.  A dictionary that holds no more words than [maxWords] stays
    so under every sequence of calls that add, remove or clear words. *)
Theorem dictionary_within_limit (os : list DictionaryCall) (d : State) :
  (Z.of_nat (getWordCount d) <= maxWords d)%Z ->
  (Z.of_nat (getWordCount (callsDictionary os d)) <= maxWords d)%Z.
Proof.
  destruct (callsDictionary_inStep os d) as (_ & _ & H & _). exact H.
Qed.

Lemma dictionary_within_limit_witness :
  let d := mkState ∅ 1 true (Some []) 0 in
  (Z.of_nat (getWordCount
               (callsDictionary [CallAddWords [str "helo"; str "wrld"]] d))
   <= 1)%Z.
Proof.
  apply (dictionary_within_limit
           [CallAddWords [str "helo"; str "wrld"]]
           (mkState ∅ 1 true (Some []) 0)).
  vm_compute. discriminate.
Defined.

(** X24.  The dictionary keeps an attached worker in step: when the
    worker has handled, in order, the messages posted during any
    sequence of calls, its custom words are the words of the dictionary,
    provided they were before. *)
Theorem dictionary_keeps_worker_in_step (os : list DictionaryCall) (d : State)
    (sent : list Worker.Request) (st : Worker.Engine) :
  worker d = Some sent ->
  Worker.customWords st = words d ->
  exists more,
    worker (callsDictionary os d) = Some (sent ++ more)
    /\ Worker.customWords (handleAll more st) = words (callsDictionary os d).
Proof.
  intros Hw Hst.
  destruct (callsDictionary_inStep os d) as (_ & _ & _ & H).
  destruct (H sent Hw) as (more & H1 & H2). exists more. auto.
Qed.

Lemma dictionary_keeps_worker_in_step_witness :
  let d := mkState ∅ 10 true (Some []) 0 in
  let os := [CallAddWord (VString (str " Helo ")); CallRemoveWord (str "helo");
             CallAddWordsFromText (str "wrld")] in
  exists more,
    worker (callsDictionary os d) = Some ([] ++ more)
    /\ Worker.customWords (handleAll more Worker.initialEngine)
       = words (callsDictionary os d).
Proof.
  apply (dictionary_keeps_worker_in_step
           [CallAddWord (VString (str " Helo ")); CallRemoveWord (str "helo");
            CallAddWordsFromText (str "wrld")]
           (mkState ∅ 10 true (Some []) 0) [] Worker.initialEngine);
    reflexivity.
Defined.

Lemma addWord_added (v : JsValue) (d : State) :
  (addWord v d).1 = true ->
  exists s, v = VString s
    /\ (trim (toLowerCase s) ∉ words d)
    /\ words (addWord v d).2 = {[ trim (toLowerCase s) ]} ∪ words d.
Proof.
  unfold addWord. destruct (falsy v); [done|].
  destruct v as [| | | |s|]; try done.
  destruct (_ || _); [done|]. destruct (_ && _); [done|].
  case_bool_decide as Hin; cbn; [done|]. intros _. by exists s.
Qed.

(** X25.  A word that [addWord] has added is known to [hasWord], and
    [removeWord] of the same word then succeeds and gives back the set
    of words there was before. *)
Theorem addWord_then_removeWord (word : jsstring) (d : State) :
  (addWord (VString word) d).1 = true ->
  let d1 := (addWord (VString word) d).2 in
  hasWord word d1 = true
  /\ (removeWord word d1).1 = true
  /\ words (removeWord word d1).2 = words d.
Proof.
  intros Hadd d1.
  destruct (addWord_added (VString word) d Hadd) as (s & Hs & Hnot & Hwords).
  injection Hs as <-. fold d1 in Hwords.
  assert (Hin : trim (toLowerCase word) ∈ words d1) by (rewrite Hwords; set_solver).
  unfold hasWord, removeWord. cbv zeta.
  rewrite (bool_decide_eq_true_2 _ Hin). cbn [fst snd words].
  split; [done|]. split; [done|]. rewrite Hwords. set_solver.
Qed.

Lemma addWord_then_removeWord_witness :
  let d := mkState {[ str "wrld" ]} 10 true (Some []) 0 in
  let d1 := (addWord (VString (str " Helo ")) d).2 in
  hasWord (str " Helo ") d1 = true
  /\ (removeWord (str " Helo ") d1).1 = true
  /\ words (removeWord (str " Helo ") d1).2 = words d.
Proof.
  apply (addWord_then_removeWord (str " Helo ")
           (mkState {[ str "wrld" ]} 10 true (Some []) 0)).
  vm_compute. reflexivity.
Defined.

Lemma addWord_count (v : JsValue) (d : State) :
  base.size (words (addWord v d).2)
  = base.size (words d) + (if (addWord v d).1 then 1 else 0).
Proof.
  unfold addWord. destruct (falsy v); [cbn; lia|].
  destruct v as [| | | |s|]; try (cbn; lia).
  destruct (_ || _); [cbn; lia|].
  destruct (_ && _); [cbn; lia|].
  destruct (decide (trim (toLowerCase s) ∈ words d)) as [Hin|Hnot].
  - rewrite (bool_decide_eq_true_2 _ Hin). cbn [negb fst snd words].
    assert ({[trim (toLowerCase s)]} ∪ words d = words d) as -> by set_solver.
    lia.
  - rewrite (bool_decide_eq_false_2 _ Hnot). cbn [negb fst snd words].
    rewrite size_union by set_solver. rewrite size_singleton. lia.
Qed.

(** [addWords] accounts for every word it is given: the words
    counted in [added] and the words listed in [failed] are as many as
    the words given, and the dictionary has grown by [added] words. *)
Lemma addWords_count (ws : list jsstring) (d : State) :
  (addWords ws d).1.1 + length (addWords ws d).1.2 = length ws
  /\ getWordCount (addWords ws d).2 = getWordCount d + (addWords ws d).1.1.
Proof.
  unfold getWordCount. revert d.
  induction ws as [|w ws IH]; intros d; [cbn; lia|].
  cbn [addWords]. pose proof (addWord_count (VString w) d) as Hc.
  destruct (addWord (VString w) d) as [ok d1]. cbn [fst snd] in Hc.
  specialize (IH d1). destruct (addWords ws d1) as [[added failed] d2].
  cbn [fst snd] in IH. destruct ok; cbn [fst snd length]; lia.
Qed.

Lemma inClass_not_space (c : ascii) :
  inClass c = true -> isWhiteSpace (toLowerChar c) = false.
Proof. destruct c as [[] [] [] [] [] [] [] []]; cbn; done. Qed.

Lemma trimStart_no_space (s : jsstring) :
  Forall (fun c => isWhiteSpace c = false) s -> trimStart s = s.
Proof. destruct 1 as [|c s Hc _]; cbn; [done|]. by rewrite Hc. Qed.

(** A word made of letters and apostrophes is normalised to its
    lower-case form: there is nothing to trim. *)
Lemma token_normalized (w : jsstring) :
  Forall (fun c => inClass c = true) w -> trim (toLowerCase w) = toLowerCase w.
Proof.
  intros H.
  assert (Hs : Forall (fun c => isWhiteSpace c = false) (toLowerCase w)).
  { unfold toLowerCase. apply Forall_forall.
    intros c Hc%list_elem_of_In%in_map_iff. destruct Hc as (c0 & <- & Hc0).
    apply inClass_not_space. rewrite Forall_forall in H.
    by apply H, list_elem_of_In. }
  unfold trim. rewrite (trimStart_no_space _ Hs), trimStart_no_space.
  - apply rev_involutive.
  - apply Forall_forall. intros c Hc%list_elem_of_In%in_rev%list_elem_of_In.
    revert c Hc. by apply Forall_forall.
Qed.

Lemma addWord_mono (v : JsValue) (d : State) :
  words d ⊆ words (addWord v d).2.
Proof.
  unfold addWord. destruct (falsy v); [done|].
  destruct v as [| | | |s|]; try done.
  destruct (_ || _); [done|]. destruct (_ && _); [done|].
  destruct (negb _); cbn; set_solver.
Qed.

Lemma addWords_mono (ws : list jsstring) (d : State) :
  words d ⊆ words (addWords ws d).2.
Proof.
  revert d. induction ws as [|w ws IH]; intros d; [done|].
  cbn [addWords]. pose proof (addWord_mono (VString w) d) as H1.
  destruct (addWord (VString w) d) as [ok d1]. cbn [snd] in H1.
  specialize (IH d1). destruct (addWords ws d1) as [[added failed] d2].
  cbn [snd] in IH. destruct ok; cbn [snd]; set_solver.
Qed.

Lemma addWord_learns (w : jsstring) (d : State) :
  2 <= length w -> Forall (fun c => inClass c = true) w ->
  (Z.of_nat (base.size (words d)) < maxWords d)%Z ->
  toLowerCase w ∈ words (addWord (VString w) d).2.
Proof.
  intros Hlen Hclass Hroom. unfold addWord.
  assert (Hw : w <> []) by (intros ->; cbn in Hlen; lia).
  cbn [falsy]. rewrite (bool_decide_eq_false_2 _ Hw).
  rewrite (token_normalized w Hclass).
  assert (Hl : length (toLowerCase w) = length w) by apply length_map.
  rewrite bool_decide_eq_false_2
    by (intros E; rewrite E in Hl; cbn in Hl; lia).
  destruct (Nat.ltb_spec (length (toLowerCase w)) 2); [lia|]. cbn [orb].
  destruct (Z.leb_spec (maxWords d) (Z.of_nat (base.size (words d)))); [lia|].
  cbn [andb]. destruct (negb _); cbn; set_solver.
Qed.

Lemma addWords_learns (ws : list jsstring) (d : State) (w : jsstring) :
  Forall (fun w => 2 <= length w /\ Forall (fun c => inClass c = true) w) ws ->
  (Z.of_nat (base.size (words d)) + Z.of_nat (length ws) <= maxWords d)%Z ->
  w ∈ ws -> toLowerCase w ∈ words (addWords ws d).2.
Proof.
  revert d. induction ws as [|x ws IH]; intros d Hall Hroom Hw;
    [by apply elem_of_nil in Hw|].
  apply Forall_cons in Hall as [[Hlen Hclass] Hall].
  cbn [length] in Hroom. cbn [addWords].
  pose proof (addWord_learns x d Hlen Hclass ltac:(lia)) as Hx.
  pose proof (addWord_count (VString x) d) as Hc.
  destruct (addWord_inStep (VString x) d) as (Hmax & _).
  destruct (addWord (VString x) d) as [ok d1]. cbn [fst snd] in Hx, Hc, Hmax.
  pose proof (addWords_mono ws d1) as Hmono.
  assert (Hroom1 : (Z.of_nat (base.size (words d1)) + Z.of_nat (length ws)
                    <= maxWords d1)%Z).
  { rewrite Hmax. destruct ok; lia. }
  specialize (IH d1 Hall Hroom1).
  destruct (addWords ws d1) as [[added failed] d2]. cbn [snd] in IH, Hmono.
  apply elem_of_cons in Hw as [->|Hw].
  - destruct ok; cbn [snd]; set_solver.
  - destruct ok; cbn [snd]; by apply IH.
Qed.

(** X26.  After [addWordsFromText], when the dictionary had room for
    as many words as the text has, [hasWord] knows every word of the
    text. *)
Theorem addWordsFromText_learns (text : jsstring) (d : State)
    (m : RegExpMatch) :
  (Z.of_nat (getWordCount d) + Z.of_nat (length (execAll text))
   <= maxWords d)%Z ->
  m ∈ execAll text ->
  hasWord (matched m) (addWordsFromText text d).2 = true.
Proof.
  intros Hroom Hm. unfold hasWord, addWordsFromText.
  pose proof (execAll_IsToken _ _ Hm) as (_ & Hlen & _ & Hclass & _).
  rewrite (token_normalized _ Hclass). apply bool_decide_eq_true_2.
  apply addWords_learns.
  - apply Forall_forall. intros w Hw%list_elem_of_In%in_map_iff.
    destruct Hw as (m' & <- & Hm'%list_elem_of_In).
    by pose proof (execAll_IsToken _ _ Hm') as (_ & ? & _ & ? & _).
  - by rewrite length_map.
  - apply list_elem_of_In, in_map. by apply list_elem_of_In.
Qed.

Lemma addWordsFromText_learns_witness :
  let d := mkState ∅ 10 true (Some []) 0 in
  hasWord (str "Wrld") (addWordsFromText (str "Helo, Wrld!") d).2 = true.
Proof.
  assert (Hm : mkMatch 6 (str "Wrld") ∈ execAll (str "Helo, Wrld!"))
    by (vm_compute; right; left).
  apply (addWordsFromText_learns (str "Helo, Wrld!")
           (mkState ∅ 10 true (Some []) 0) (mkMatch 6 (str "Wrld"))); [|exact Hm].
  vm_compute. discriminate.
Defined.

End CustomWords.

(** ** Words and text nodes *)

Section NodeMap.
Import JsString WordRegex Utils Spec.
Context {N : Type} (textContent : N -> jsstring).

Lemma buildNodeMap_full (nodes : list N) (acc : jsstring) :
  exists rest,
    (buildNodeMap textContent nodes acc).1 = acc ++ rest
    /\ Forall (fun seg => length acc <= segStart seg)
         (buildNodeMap textContent nodes acc).2.
Proof.
  revert acc. induction nodes as [|node nodes IH]; intros acc.
  - exists []. cbn. by rewrite app_nil_r.
  - cbn [buildNodeMap].
    destruct (IH (acc ++ textContent node ++ str " ")) as (rest & H1 & H2).
    destruct (buildNodeMap textContent nodes _) as [full nodeMap].
    cbn [fst snd] in *. exists (textContent node ++ str " " ++ rest). split.
    + by rewrite H1, <- !app_assoc.
    + constructor; [cbn; lia|].
      eapply Forall_impl; [exact H2|]. cbn. intros seg.
      rewrite !length_app. lia.
Qed.

(** Segments that start after the match leave the result alone. *)
Lemma locate_later (nodeMap : list (Segment N)) (s e : nat) (acc : Located N) :
  s < e ->
  Forall (fun seg => e <= segStart seg) nodeMap ->
  fold_left (locateStep s e) nodeMap acc = acc.
Proof.
  intros Hse. revert acc. induction nodeMap as [|seg nodeMap IH];
    intros acc Hall; [done|].
  apply Forall_cons in Hall as [Hseg Hall]. cbn [fold_left].
  rewrite IH by done. unfold locateStep.
  destruct (Nat.leb_spec (segStart seg) s); [lia|]. cbn [andb].
  destruct (Nat.ltb_spec (segStart seg) e); [lia|]. done.
Qed.

Lemma locate_in_nodes (nodes : list N) (acc : jsstring) (s e : nat)
    (init : Located N) :
  let full := (buildNodeMap textContent nodes acc).1 in
  let nodeMap := (buildNodeMap textContent nodes acc).2 in
  length acc <= s -> s < e -> e <= length full ->
  (forall p, s <= p < e -> full !! p <> Some " "%char) ->
  exists node offset,
    node ∈ nodes
    /\ fold_left (locateStep s e) nodeMap init
       = mkLocated (Some node) offset (Some node) (offset + (e - s))
    /\ take (e - s) (drop offset (textContent node))
       = take (e - s) (drop s full).
Proof.
  revert acc init. induction nodes as [|node nodes IH]; intros acc init.
  - cbn. intros Hs Hse He. lia.
  - cbn [buildNodeMap].
    pose proof (buildNodeMap_full nodes (acc ++ textContent node ++ str " "))
      as (rest & Hfull & Hsegs).
    specialize (IH (acc ++ textContent node ++ str " ")).
    destruct (buildNodeMap textContent nodes _) as [full nodeMap].
    cbn [fst snd] in *. intros Hs Hse He Hnospace.
    set (text := textContent node) in *.
    assert (Hspace : full !! (length acc + length text) = Some " "%char).
    { rewrite Hfull, <- !app_assoc.
      rewrite lookup_app_r by lia. rewrite lookup_app_r by lia.
      by replace (length acc + length text - length acc - length text)
           with 0 by lia. }
    destruct (Nat.lt_ge_cases s (length acc + length text)) as [Hin|Hout].
    + assert (He' : e <= length acc + length text).
      { destruct (Nat.le_gt_cases e (length acc + length text)); [done|].
        exfalso. apply (Hnospace (length acc + length text)); [lia|done]. }
      exists node, (s - length acc). split; [by left|].
      cbn [fold_left]. rewrite locate_later.
      2: done.
      2:{ eapply Forall_impl; [exact Hsegs|]. cbn. intros seg.
          rewrite !length_app. cbn. lia. }
      unfold locateStep. cbn [segStart segEnd Utils.node].
      destruct (Nat.leb_spec (length acc) s); [|lia].
      destruct (Nat.ltb_spec s (length acc + length text)); [|lia].
      destruct (Nat.ltb_spec (length acc) e); [|lia].
      destruct (Nat.leb_spec e (length acc + length text)); [|lia].
      cbn [andb startNode startOffset]. split.
      * f_equal. lia.
      * rewrite Hfull, <- !app_assoc, drop_app_ge by lia.
        rewrite drop_app_le by lia.
        rewrite take_app_le by (rewrite length_drop; lia). done.
    + assert (Hs' : length (acc ++ text ++ str " ") <= s).
      { rewrite !length_app. cbn.
        destruct (decide (s = length acc + length text)) as [->|]; [|lia].
        exfalso. apply (Hnospace (length acc + length text)); [lia|done]. }
      destruct (IH (locateStep s e init (mkSegment node (length acc)
                                          (length acc + length text)))
                  Hs' Hse He Hnospace)
        as (node' & offset & Hnode & Hfold & Htext).
      exists node', offset. split; [by right|]. split; [|done].
      cbn [fold_left]. exact Hfold.
Qed.

(** X27.  In [getTextPositionsWithDictionary], every word matched in
    the collected text lies inside one text node, and
    [findNodesFromIndex] returns that node as start node and as end
    node, with the offsets of the word in the node's text: no match is
    left without its nodes. *)
Theorem findNodesFromIndex_locates (nodes : list N) (m : RegExpMatch) :
  let fullText := (buildNodeMap textContent nodes []).1 in
  let nodeMap := (buildNodeMap textContent nodes []).2 in
  m ∈ execAll fullText ->
  exists node offset,
    node ∈ nodes
    /\ findNodesFromIndex nodeMap (index m) (index m + length (matched m))
       = mkLocated (Some node) offset (Some node) (offset + length (matched m))
    /\ take (length (matched m)) (drop offset (textContent node)) = matched m.
Proof.
  intros fullText nodeMap Hm.
  destruct (execAll_IsToken _ _ Hm) as (Htext & Hlen & Hend & Hclass & _).
  destruct (locate_in_nodes nodes [] (index m) (index m + length (matched m))
              (mkLocated None 0 None 0))
    as (node & offset & Hnode & Hfold & Hcontent).
  - cbn. lia.
  - lia.
  - exact Hend.
  - intros p Hp Hspace. fold fullText in Hspace.
    assert (Hp' : matched m !! (p - index m) = Some " "%char).
    { rewrite Htext, lookup_take, decide_True by lia. rewrite lookup_drop.
      by replace (index m + (p - index m)) with p by lia. }
    rewrite Forall_forall in Hclass.
    by pose proof (Hclass _ (list_elem_of_lookup_2 _ _ _ Hp')).
  - exists node, offset. split; [done|].
    replace (index m + length (matched m) - index m)
      with (length (matched m)) in * by lia.
    split; [exact Hfold|]. fold fullText in Hcontent. by rewrite Hcontent.
Qed.

End NodeMap.

Section NodeMapExamples.
Import JsString WordRegex Utils Spec.

Lemma findNodesFromIndex_locates_witness :
  let nodes := [str "say helo"; str "wrld"] in
  exists node offset,
    node ∈ nodes
    /\ findNodesFromIndex (buildNodeMap id nodes []).2 4 (4 + 4)
       = mkLocated (Some node) offset (Some node) (offset + 4)
    /\ take 4 (drop offset node) = str "helo".
Proof.
  assert (Hm : mkMatch 4 (str "helo")
               ∈ execAll (buildNodeMap id [str "say helo"; str "wrld"] []).1)
    by (vm_compute; right; left).
  exact (findNodesFromIndex_locates id [str "say helo"; str "wrld"]
           (mkMatch 4 (str "helo")) Hm).
Defined.

End NodeMapExamples.

(** ** debounce *)

Section DebounceFacts.
Import Debounce Spec.
Context {A R : Type} (func : A -> R) (delay : Z) (leading trailing : bool).

#[local] Abbreviation State := (Debounce.State A R).
#[local] Abbreviation step := (Debounce.step func delay leading trailing).
#[local] Abbreviation run := (Debounce.run func delay leading trailing).
#[local] Abbreviation invokeFunc := (Debounce.invokeFunc func).
#[local] Abbreviation leadingEdge := (Debounce.leadingEdge func delay leading).
#[local] Abbreviation trailingEdge := (Debounce.trailingEdge func trailing).
#[local] Abbreviation timerExpired :=
  (Debounce.timerExpired func delay trailing).
#[local] Abbreviation debounced :=
  (Debounce.debounced func delay leading).

(** The state after each function, written out. *)
Lemma invokeFunc_state (time : Z) (st : State) :
  (invokeFunc time st).2
  = mkState (timeoutId st) (lastCallTime st) time None
      (match lastArgs st with Some a => Some (func a) | None => result st end)
      (timers st) (nextTimer st) (invocations st ++ option_list (lastArgs st)).
Proof.
  unfold Debounce.invokeFunc. destruct (lastArgs st); cbn;
    by rewrite ?app_nil_r.
Qed.

Lemma leadingEdge_state (time : Z) (st : State) :
  let st3 := mkState (Some (nextTimer st)) (lastCallTime st) time (lastArgs st)
               (result st) (timers st ++ [mkTimer (nextTimer st) delay])
               (S (nextTimer st)) (invocations st) in
  (leadingEdge time st).2 = if leading then (invokeFunc time st3).2 else st3.
Proof. unfold Debounce.leadingEdge. cbn. by destruct leading. Qed.

Lemma trailingEdge_state (time : Z) (st : State) :
  (trailingEdge time st).2
  = if trailing && bool_decide (is_Some (lastArgs st))
    then (invokeFunc time (withTimeoutId None st)).2
    else withLastArgs None (withTimeoutId None st).
Proof.
  unfold Debounce.trailingEdge. cbn [withTimeoutId lastArgs].
  by destruct (trailing && _).
Qed.

Lemma timerExpired_state (time : Z) (st : State) :
  timerExpired time st
  = if shouldInvoke delay time st then (trailingEdge time st).2
    else mkState (Some (nextTimer st)) (lastCallTime st) (lastInvokeTime st)
           (lastArgs st) (result st)
           (timers st ++ [mkTimer (nextTimer st) (remainingWait delay time st)])
           (S (nextTimer st)) (invocations st).
Proof. unfold Debounce.timerExpired. by destruct (shouldInvoke delay time st). Qed.

Lemma debounced_state (time : Z) (args : A) (st : State) :
  let st1 := withLastCallTime time (withLastArgs (Some args) st) in
  let st2 := withTimeoutId (Some (nextTimer st)) (setTimeout delay st1).2 in
  (debounced time args st).2
  = if shouldInvoke delay time st then
      match timeoutId st with
      | None => (leadingEdge time st1).2
      | Some _ => (invokeFunc time st2).2
      end
    else
      match timeoutId st with
      | None => st2
      | Some _ => st1
      end.
Proof.
  unfold Debounce.debounced.
  cbn [timeoutId lastCallTime withLastCallTime withLastArgs setTimeout snd].
  destruct (shouldInvoke delay time st), (timeoutId st); reflexivity.
Qed.

Lemma cancel_state (st : State) :
  cancel st
  = mkState None 0 0 None (result st)
      (match timeoutId st with
       | Some id => filter (fun t => timerId t <> id) (timers st)
       | None => timers st
       end)
      (nextTimer st) (invocations st).
Proof. unfold cancel. by destruct (timeoutId st). Qed.

(** What [func] has been given, followed by what is waiting for it:
    no function but a call adds to it. *)
Lemma invokeFunc_log (time : Z) (st : State) :
  invocations (invokeFunc time st).2 ++ option_list (lastArgs (invokeFunc time st).2)
  = invocations st ++ option_list (lastArgs st).
Proof. rewrite invokeFunc_state. cbn. apply app_nil_r. Qed.

Lemma leadingEdge_log (time : Z) (st : State) :
  invocations (leadingEdge time st).2
    ++ option_list (lastArgs (leadingEdge time st).2)
  = invocations st ++ option_list (lastArgs st).
Proof.
  rewrite leadingEdge_state. cbv zeta. destruct leading; [|done].
  by rewrite invokeFunc_log.
Qed.

Lemma trailingEdge_log (time : Z) (st : State) :
  sublist (invocations (trailingEdge time st).2
             ++ option_list (lastArgs (trailingEdge time st).2))
          (invocations st ++ option_list (lastArgs st)).
Proof.
  rewrite trailingEdge_state. destruct (trailing && _).
  - by rewrite invokeFunc_log.
  - cbn. rewrite app_nil_r. by apply sublist_inserts_r.
Qed.

Lemma timerExpired_log (time : Z) (st : State) :
  sublist (invocations (timerExpired time st)
             ++ option_list (lastArgs (timerExpired time st)))
          (invocations st ++ option_list (lastArgs st)).
Proof.
  rewrite timerExpired_state. destruct (shouldInvoke delay time st); [|done].
  apply trailingEdge_log.
Qed.

Lemma step_log (ev : Event A) (st : State) (calls : list A) :
  sublist (invocations st ++ option_list (lastArgs st)) calls ->
  sublist (invocations (step ev st) ++ option_list (lastArgs (step ev st)))
          (calls ++ callArgs [ev]).
Proof.
  intros H.
  assert (Hinv : sublist (invocations st) calls).
  { etrans; [|exact H]. by apply sublist_inserts_r. }
  destruct ev as [time args|time id|]; cbn [callArgs omap Debounce.step].
  - assert (Hnew : sublist (invocations st ++ [args]) (calls ++ [args]))
      by by apply sublist_app.
    rewrite debounced_state. cbv zeta.
    destruct (shouldInvoke delay time st), (timeoutId st);
      rewrite ?leadingEdge_log, ?invokeFunc_log; exact Hnew.
  - rewrite app_nil_r. case_bool_decide; [|done].
    etrans; [apply timerExpired_log|]. exact H.
  - rewrite app_nil_r, cancel_state. cbn. by rewrite app_nil_r.
Qed.

Lemma run_log (evs : list (Event A)) (st : State) (calls : list A) :
  sublist (invocations st ++ option_list (lastArgs st)) calls ->
  sublist (invocations (run evs st) ++ option_list (lastArgs (run evs st)))
          (calls ++ callArgs evs).
Proof.
  revert st calls. induction evs as [|ev evs IH]; intros st calls H.
  - cbn. by rewrite app_nil_r.
  - cbn [Debounce.run foldl].
    pose proof (IH _ _ (step_log ev st calls H)) as H'.
    assert (callArgs (ev :: evs) = callArgs [ev] ++ callArgs evs) as ->
      by by destruct ev.
    by rewrite app_assoc.
Qed.

(** X28.  Whatever calls, timer firings and cancellations happen,
    [func] is only given arguments of calls, in the order of the calls,
    and those of one call at most once. *)
Theorem debounce_invokes_calls_once (evs : list (Event A)) :
  sublist (invocations (run evs initial)) (callArgs evs).
Proof.
  pose proof (run_log evs initial [] (sublist_nil (A:=A))) as H. cbn [app] in H.
  etrans; [|exact H]. by apply sublist_inserts_r.
Qed.




(** The three parts of [armed], for a state written out. *)
Lemma armed_intro (id : option nat) (t1 t2 : Z) (args : option A)
    (r : option R) (ts : list Timer) (n : nat) (inv : list A) :
  (forall t, t ∈ ts -> timerId t < n) ->
  (forall i, id = Some i -> i ∈ map timerId ts) ->
  (is_Some args -> is_Some id) ->
  armed (mkState id t1 t2 args r ts n inv).
Proof. intros H1 H2 H3. by split; [|split]. Qed.

Lemma timers_snoc (ts : list Timer) (n : nat) (ms : Z) :
  (forall t, t ∈ ts -> timerId t < n) ->
  (forall t, t ∈ ts ++ [mkTimer n ms] -> timerId t < S n)
  /\ n ∈ map timerId (ts ++ [mkTimer n ms]).
Proof.
  intros H. split.
  - intros t [Ht|Ht%list_elem_of_singleton]%elem_of_app.
    + specialize (H t Ht). lia.
    + subst t. cbn. lia.
  - rewrite map_app. apply elem_of_app. right. by left.
Qed.

Lemma armed_invokeFunc (time : Z) (st : State) :
  (forall t, t ∈ timers st -> timerId t < nextTimer st) ->
  (forall i, timeoutId st = Some i -> i ∈ map timerId (timers st)) ->
  armed (invokeFunc time st).2.
Proof.
  intros H1 H2. rewrite invokeFunc_state.
  apply armed_intro; (done || by intros [? ?]).
Qed.

Lemma armed_timerExpired (time : Z) (st : State) :
  (forall t, t ∈ timers st -> timerId t < nextTimer st) ->
  armed (timerExpired time st).
Proof.
  intros H1. rewrite timerExpired_state.
  destruct (shouldInvoke delay time st).
  - rewrite trailingEdge_state. destruct (trailing && _).
    + by apply armed_invokeFunc.
    + apply armed_intro; [done|done|by intros [? ?]].
  - destruct (timers_snoc _ _ (remainingWait delay time st) H1) as [Ha Hb].
    apply armed_intro; [done| |by eexists]. intros j Hj. by simplify_eq.
Qed.

Lemma step_armed (ev : Event A) (st : State) : armed st -> armed (step ev st).
Proof.
  intros (I1 & I2 & I3). destruct ev as [time args|time id|];
    cbn [Debounce.step].
  - rewrite debounced_state. cbv zeta.
    destruct (timers_snoc _ _ delay I1) as [Ha Hb].
    destruct (shouldInvoke delay time st), (timeoutId st) as [i|] eqn:Hid.
    + apply armed_invokeFunc; cbn; [done|].
      intros j Hj. by simplify_eq.
    + rewrite leadingEdge_state. cbv zeta.
      cbn [timers nextTimer lastCallTime lastArgs result invocations
           withLastCallTime withLastArgs].
      destruct leading.
      * apply armed_invokeFunc; cbn; [done|].
        intros j Hj. by simplify_eq.
      * apply armed_intro; [done| |by eexists].
        intros j Hj. by simplify_eq.
    + apply armed_intro; [exact I1| |by eexists].
      intros j Hj. cbn in Hj. rewrite Hid in Hj. by apply I2.
    + apply armed_intro; [exact Ha| |by eexists].
      intros j Hj. by simplify_eq.
  - case_bool_decide; [|done]. apply armed_timerExpired.
    cbn [clearTimeout timers nextTimer].
    intros t [_ Ht]%list_elem_of_filter. by apply I1.
  - rewrite cancel_state. apply armed_intro; [|done|by intros [? ?]].
    destruct (timeoutId st); [|done].
    intros t [_ Ht]%list_elem_of_filter. by apply I1.
Qed.

Lemma run_armed (evs : list (Event A)) (st : State) :
  armed st -> armed (run evs st).
Proof.
  revert st. induction evs as [|ev evs IH]; intros st H; [done|].
  cbn [Debounce.run foldl]. by apply IH, step_armed.
Qed.

Lemma armed_initial : armed (initial : State).
Proof.
  apply armed_intro; [|done|by intros [? ?]].
  intros t Ht. by apply elem_of_nil in Ht.
Qed.

(** X30.  Whatever has happened, the arguments of a call that [func]
    has not been given yet have a timer waiting for them, the one
    [timeoutId] names; and with [trailing] on, when that timer fires
    [delay] or more after the last call, [func] is given them. *)
Theorem debounce_pending_call_is_served (evs : list (Event A)) (a : A) :
  let st := run evs initial in
  lastArgs st = Some a ->
  exists id,
    timeoutId st = Some id
    /\ id ∈ map timerId (timers st)
    /\ (trailing = true ->
        forall time, (delay <= time - lastCallTime st)%Z ->
          invocations (step (Fire time id) st) = invocations st ++ [a]).
Proof.
  intros st.
  assert (Harmed : armed st) by apply run_armed, armed_initial.
  clearbody st. destruct Harmed as (_ & I2 & I3). intros Hargs.
  destruct (I3 ltac:(by rewrite Hargs)) as [id Hid].
  exists id. split; [done|]. split; [by apply I2|].
  intros Htrailing time Htime. cbn [Debounce.step].
  rewrite (bool_decide_eq_true_2 _ (I2 id Hid)), timerExpired_state.
  assert (Hshould : shouldInvoke delay time (clearTimeout id st) = true).
  { unfold shouldInvoke. cbn [clearTimeout lastCallTime lastInvokeTime].
    destruct (Z.leb_spec delay (time - lastCallTime st)); [|lia].
    by rewrite orb_true_r. }
  rewrite Hshould, trailingEdge_state, invokeFunc_state.
  cbn [clearTimeout withTimeoutId lastArgs invocations].
  rewrite Hargs, Htrailing, bool_decide_eq_true_2 by by eexists.
  reflexivity.
Qed.

End DebounceFacts.

Section DebounceExamples.
Import Debounce Spec.


Lemma debounce_pending_call_is_served_witness :
  let st := run id 300 false true [Call 1000 7] initial in
  exists i,
    timeoutId st = Some i
    /\ i ∈ map timerId (timers st)
    /\ (true = true ->
        forall time, (300 <= time - lastCallTime st)%Z ->
          invocations (step id 300 false true (Fire time i) st)
          = invocations st ++ [7]).
Proof.
  apply (debounce_pending_call_is_served id 300 false true [Call 1000 7] 7).
  reflexivity.
Defined.

End DebounceExamples.
